(** * Duoread: placeholder shielding, cached translation client and session
    state, verified against the extension's JavaScript sources.

    - [content.js]: [getTranslatableText], [restorePlaceholders],
      [escapeHtml], [isMainlyJapanese], [collectTargetElements],
      [translatePage], [insertTranslation], [showLoadingIndicator],
      [removeLoadingIndicator], [removeAllTranslations], [toggleTranslate]
      and the message listener.
    - service worker ([background.js]): [getHash], [translateTexts],
      [fetchTranslationsFromApi], [translateBatch],
      [handleTranslateRequest].
    - [popup.js]: the click handler of the translate button.

    JavaScript strings are sequences of UTF-16 code units; they are modelled
    as lists of [N].  Every definition keeps the name of the source function
    it embeds. *)

From Stdlib Require Import NArith List Bool Lia String Ascii DecimalNat Sorted.
From stdpp Require Import gmap list fin_maps.
Import ListNotations.

Set Warnings "-register-all".

Local Open Scope N_scope.

(* ===================================================================== *)
(** ** JavaScript strings *)
(* ===================================================================== *)

Module Js.

(** A JavaScript string: its UTF-16 code units. *)
Abbreviation jsstring := (list N).

(** ASCII literal to code units (used for the literals of the source). *)
Definition lit (s : string) : jsstring :=
  List.map N_of_ascii (list_ascii_of_string s).

Definition c_amp : N := 38.        (* & *)
Definition c_lt : N := 60.         (* < *)
Definition c_gt : N := 62.         (* > *)
Definition c_quot : N := 34.       (* double quote *)
Definition c_apos : N := 39.       (* ' *)
Definition c_dollar : N := 36.     (* $ *)
Definition c_backtick : N := 96.   (* ` *)
Definition c_star : N := 42.       (* * *)
Definition c_underscore : N := 95. (* _ *)
Definition c_fullwidth_underscore : N := 65343. (* U+FF3F *)
Definition c_backslash : N := 92.
Definition c_lbracket : N := 91.
Definition c_rbracket : N := 93.
Definition c_space : N := 32.

(** [WhiteSpace] and [LineTerminator] of ECMAScript: what [\s] matches and
    what [String.prototype.trim] strips. *)
Definition is_ws (c : N) : bool :=
  ((9 <=? c) && (c <=? 13)) || (c =? 32) || (c =? 160) || (c =? 5760)
  || ((8192 <=? c) && (c <=? 8202)) || (c =? 8232) || (c =? 8233)
  || (c =? 8239) || (c =? 8287) || (c =? 12288) || (c =? 65279).

(** [str.replace(/c/g, by)] for a single literal character [c] and a
    replacement string without [$]. *)
Definition replace_char (c : N) (by_ : jsstring) (s : jsstring) : jsstring :=
  flat_map (fun x => if x =? c then by_ else [x]) s.

(** [str.split('')]: one string per code unit. *)
Definition split_chars (s : jsstring) : list jsstring :=
  List.map (fun c => [c]) s.

(** [arr.join(sep)]. *)
Fixpoint join (sep : jsstring) (parts : list jsstring) : jsstring :=
  match parts with
  | [] => []
  | [p] => p
  | p :: rest => p ++ sep ++ join sep rest
  end.

(** Truthiness of a string: non-empty. *)
Definition nonempty (s : jsstring) : bool :=
  match s with [] => false | _ => true end.

(** [haystack.includes(needle)] as a proposition. *)
Definition includes (needle haystack : jsstring) : Prop :=
  exists before after, haystack = before ++ needle ++ after.

Fixpoint starts_with (p s : jsstring) : bool :=
  match p, s with
  | [], _ => true
  | _ :: _, [] => false
  | a :: p', b :: s' => (a =? b) && starts_with p' s'
  end.

(** Executable [includes]. *)
Fixpoint includesb (needle haystack : jsstring) : bool :=
  starts_with needle haystack ||
  match haystack with
  | [] => false
  | _ :: h' => includesb needle h'
  end.

End Js.
Import Js.

(* ===================================================================== *)
(** ** The regular expressions built by [restorePlaceholders] *)
(* ===================================================================== *)

Module Regex.

(** Members of a character class [[...]]. *)
Inductive citem : Type :=
  | CSpace            (* the class escape \s *)
  | CLit (c : N).     (* a literal character *)

Inductive atom : Type :=
  | ALit (c : N)
  | ASpace                          (* \s *)
  | AClass (items : list citem).    (* [ ... ] *)

(** A term is an atom, possibly under a greedy star. *)
Inductive term : Type :=
  | One (a : atom)
  | Star (a : atom).

(** *** Parsing the pattern source

    [new RegExp(source, 'gi')] for the fragment of the pattern syntax that
    [restorePlaceholders] produces: literal characters, [\s], classes made
    of literals and [\s], and the star.  Any other syntax character makes
    the parser give up ([None]). *)

Inductive pmode : Type :=
  | PTop
  | PTopEsc
  | PClass (items : list citem)
  | PClassEsc (items : list citem).

Record pstate : Type := mkP {
  p_done : list term;
  p_pending : option atom;
  p_mode : pmode
}.

Definition flush (st : pstate) : list term :=
  match p_pending st with
  | Some a => p_done st ++ [One a]
  | None => p_done st
  end.

(** [SyntaxCharacter] of the pattern grammar: ^ $ \ . * + ? ( ) [ ] { } | *)
Definition syntax_char (c : N) : bool :=
  existsb (N.eqb c) [94; 36; 92; 46; 42; 43; 63; 40; 41; 91; 93; 123; 125; 124].

(** Literal characters the model covers: ASCII and U+FF3F, for which the
    case folding of [canonicalize] below is the engine's. *)
Definition modelled_literal (c : N) : bool :=
  (c <? 128) || (c =? c_fullwidth_underscore).

Definition nonempty_items (items : list citem) : bool :=
  match items with [] => false | _ => true end.

Definition pstep (st : pstate) (c : N) : option pstate :=
  match p_mode st with
  | PTop =>
      if c =? c_backslash then Some (mkP (flush st) None PTopEsc)
      else if c =? c_lbracket then Some (mkP (flush st) None (PClass []))
      else if c =? c_star then
        match p_pending st with
        | Some a => Some (mkP (p_done st ++ [Star a]) None PTop)
        | None => None
        end
      else if syntax_char c || negb (modelled_literal c) then None
      else Some (mkP (flush st) (Some (ALit c)) PTop)
  | PTopEsc =>
      if c =? 115 (* s *) then Some (mkP (p_done st) (Some ASpace) PTop)
      else None
  | PClass items =>
      if c =? c_rbracket then Some (mkP (p_done st) (Some (AClass items)) PTop)
      else if c =? c_backslash then Some (mkP (p_done st) None (PClassEsc items))
      else if (c =? 45 (* - *)) || ((c =? 94 (* ^ *)) && negb (nonempty_items items))
              || negb (modelled_literal c) then None
      else Some (mkP (p_done st) None (PClass (items ++ [CLit c])))
  | PClassEsc items =>
      if c =? 115 then Some (mkP (p_done st) None (PClass (items ++ [CSpace])))
      else None
  end.

(** Reading the whole source; an unterminated class or escape is a
    [SyntaxError]. *)
Fixpoint pfold (st : pstate) (src : jsstring) : option pstate :=
  match src with
  | [] => Some st
  | c :: src' =>
      match pstep st c with
      | Some st' => pfold st' src'
      | None => None
      end
  end.

Definition parse (src : jsstring) : option (list term) :=
  match pfold (mkP [] None PTop) src with
  | Some st =>
      match p_mode st with
      | PTop => Some (flush st)
      | _ => None
      end
  | None => None
  end.

(** *** Matching

    [Canonicalize] under the [i] flag without the [u] flag: the code unit's
    upper case.  On ASCII this maps a-z to A-Z; no code unit above 127
    canonicalizes to an ASCII one, and only U+FF3F canonicalizes to U+FF3F,
    so against the literals [modelled_literal] lets through the identity is exact
    for the other code units. *)
Definition canonicalize (c : N) : N :=
  if (97 <=? c) && (c <=? 122) then c - 32 else c.

Definition citem_match (c : N) (i : citem) : bool :=
  match i with
  | CSpace => is_ws c
  | CLit p => canonicalize p =? canonicalize c
  end.

Definition atom_match (a : atom) (c : N) : bool :=
  match a with
  | ALit p => canonicalize p =? canonicalize c
  | ASpace => is_ws c
  | AClass items => existsb (citem_match c) items
  end.

(** The backtracking matcher at the start of [s]: the number of code units
    of the match the engine reports, i.e. the first one in its priority
    order (a greedy star first tries one more repetition, then gives back). *)
Fixpoint exec (ts : list term) (s : jsstring) {struct ts} : option nat :=
  match ts with
  | [] => Some 0%nat
  | One a :: ts' =>
      match s with
      | c :: s' => if atom_match a c then S <$> exec ts' s' else None
      | [] => None
      end
  | Star a :: ts' =>
      (fix star (s : jsstring) : option nat :=
         match s with
         | c :: s' =>
             if atom_match a c then
               match star s' with
               | Some n => Some (S n)
               | None => exec ts' s
               end
             else exec ts' s
         | [] => exec ts' []
         end) s
  end.

(** *** [String.prototype.replace] with a global pattern *)

(** [GetSubstitution] for a pattern without capture groups: [$$] is a
    dollar sign, [$&] the match, [$`] the text before it, [$'] the text
    after it; any other [$] stands for itself. *)
Fixpoint GetSubstitution (repl matched before after : jsstring) : jsstring :=
  match repl with
  | [] => []
  | c :: r =>
      if c =? c_dollar then
        match r with
        | d :: r' =>
            if d =? c_dollar then c_dollar :: GetSubstitution r' matched before after
            else if d =? c_amp then matched ++ GetSubstitution r' matched before after
            else if d =? c_backtick then before ++ GetSubstitution r' matched before after
            else if d =? c_apos then after ++ GetSubstitution r' matched before after
            else c_dollar :: GetSubstitution r matched before after
        | [] => [c_dollar]
        end
      else c :: GetSubstitution r matched before after
  end.

(** The scan of [str.replace(/.../g, repl)]: [before] holds the code units
    already passed (reversed), [skip] how many of the coming ones belong to
    the match just replaced.  After an empty match the scan copies one code
    unit and goes on. *)
Fixpoint replace_scan (ts : list term) (repl : jsstring)
    (before : jsstring) (s : jsstring) (skip : nat) {struct s} : jsstring :=
  match skip with
  | S k =>
      match s with
      | [] => []
      | c :: s' => replace_scan ts repl (c :: before) s' k
      end
  | O =>
      match exec ts s with
      | Some n =>
          GetSubstitution repl (take n s) (rev before) (drop n s) ++
          match s with
          | [] => []
          | c :: s' =>
              match n with
              | O => c :: replace_scan ts repl (c :: before) s' 0
              | S k => replace_scan ts repl (c :: before) s' k
              end
          end
      | None =>
          match s with
          | [] => []
          | c :: s' => c :: replace_scan ts repl (c :: before) s' 0
          end
      end
  end.

Definition replace_all (ts : list term) (repl : jsstring) (s : jsstring) : jsstring :=
  replace_scan ts repl [] s 0.

End Regex.

(* ===================================================================== *)
(** ** The document tree, as far as content.js reads and writes it *)
(* ===================================================================== *)

Module Dom.

(** HTML elements carry their lower-case local name. *)
Inductive node : Type :=
  | Text (data : jsstring)
  | Comment (data : jsstring)
  | Elem (tag : jsstring) (attrs : list (jsstring * jsstring))
         (children : list node).

Definition eqs (a b : jsstring) : bool := bool_decide (a = b).

Fixpoint getAttribute (name : jsstring) (attrs : list (jsstring * jsstring))
  : option jsstring :=
  match attrs with
  | [] => None
  | (k, v) :: rest => if eqs k name then Some v else getAttribute name rest
  end.

(** [el.setAttribute(name, value)]: overwrite in place or append. *)
Fixpoint setAttribute (name value : jsstring)
    (attrs : list (jsstring * jsstring)) : list (jsstring * jsstring) :=
  match attrs with
  | [] => [(name, value)]
  | (k, v) :: rest =>
      if eqs k name then (k, value) :: rest
      else (k, v) :: setAttribute name value rest
  end.

Definition removeAttribute (name : jsstring)
    (attrs : list (jsstring * jsstring)) : list (jsstring * jsstring) :=
  List.filter (fun kv => negb (eqs (fst kv) name)) attrs.

(** The descendant text content: all text nodes in tree order. *)
Fixpoint textContent (n : node) : jsstring :=
  match n with
  | Text d => d
  | Comment _ => []
  | Elem _ _ ch => flat_map textContent ch
  end.

(** *** Serialization ([outerHTML]) *)

Definition void_element (tag : jsstring) : bool :=
  existsb (eqs tag)
    (List.map lit ["area"; "base"; "basefont"; "bgsound"; "br"; "col"; "embed";
              "frame"; "hr"; "img"; "input"; "keygen"; "link"; "meta";
              "param"; "source"; "track"; "wbr"]%string).

(** Elements whose text children are serialized without escaping. *)
Definition raw_text_element (tag : jsstring) : bool :=
  existsb (eqs tag)
    (List.map lit ["style"; "script"; "xmp"; "iframe"; "noembed"; "noframes";
              "plaintext"; "noscript"]%string).

Definition escape_text (s : jsstring) : jsstring :=
  replace_char c_gt (lit "&gt;")
    (replace_char c_lt (lit "&lt;")
      (replace_char 160 (lit "&nbsp;")
        (replace_char c_amp (lit "&amp;") s))).

Definition escape_attr (s : jsstring) : jsstring :=
  replace_char c_quot (lit "&quot;")
    (replace_char 160 (lit "&nbsp;")
      (replace_char c_amp (lit "&amp;") s)).

Definition serialize_attrs (attrs : list (jsstring * jsstring)) : jsstring :=
  flat_map (fun kv => [c_space] ++ fst kv ++ lit "=" ++ [c_quot]
                      ++ escape_attr (snd kv) ++ [c_quot]) attrs.

Fixpoint serialize (raw : bool) (n : node) : jsstring :=
  match n with
  | Text d => if raw then d else escape_text d
  | Comment d => lit "<!--" ++ d ++ lit "-->"
  | Elem tag attrs ch =>
      lit "<" ++ tag ++ serialize_attrs attrs ++ lit ">" ++
      (if void_element tag then []
       else flat_map (serialize (raw_text_element tag)) ch
            ++ lit "</" ++ tag ++ lit ">")
  end.

Definition outerHTML (n : node) : jsstring := serialize false n.

(** *** Selectors *)

Definition is_ascii_ws (c : N) : bool :=
  (c =? 9) || (c =? 10) || (c =? 12) || (c =? 13) || (c =? 32).

(** The tokens of a [class] attribute value. *)
Fixpoint tokens_aux (cur : jsstring) (s : jsstring) : list jsstring :=
  match s with
  | [] => match cur with [] => [] | _ => [cur] end
  | c :: s' =>
      if is_ascii_ws c then
        match cur with
        | [] => tokens_aux [] s'
        | _ => cur :: tokens_aux [] s'
        end
      else tokens_aux (cur ++ [c]) s'
  end.

Definition classList (attrs : list (jsstring * jsstring)) : list jsstring :=
  match getAttribute (lit "class") attrs with
  | Some v => tokens_aux [] v
  | None => []
  end.

Definition has_class (cls : jsstring) (attrs : list (jsstring * jsstring)) : bool :=
  existsb (eqs cls) (classList attrs).

Definition ascii_lower (c : N) : N :=
  if (65 <=? c) && (c <=? 90) then c + 32 else c.

(** [[type^="math/"]]: the values of [type] compare ASCII case-insensitively
    in HTML documents. *)
Definition type_starts_with_math (attrs : list (jsstring * jsstring)) : bool :=
  match getAttribute (lit "type") attrs with
  | Some v => starts_with (lit "math/") (List.map ascii_lower v)
  | None => false
  end.

Definition math_classes : list jsstring :=
  List.map lit ["MathJax"; "jax"; "math"; "katex"; "mjx-chtml"]%string.

(** [mathSelectors] of [getTranslatableText]. *)
Definition matches_math (n : node) : bool :=
  match n with
  | Elem tag attrs _ =>
      existsb (fun c => has_class c attrs) math_classes
      || (eqs tag (lit "script") && type_starts_with_math attrs)
      || eqs tag (lit "math")
  | _ => false
  end.

(** ['code, pre'] *)
Definition matches_code (n : node) : bool :=
  match n with
  | Elem tag _ _ => eqs tag (lit "code") || eqs tag (lit "pre")
  | _ => false
  end.

End Dom.

(* ===================================================================== *)
(** ** content.js: the text shielding codec *)
(* ===================================================================== *)

Module Content.

Import Regex Dom.

(** [escapeHtml]: five global replacements, in the source's order. *)
Definition escapeHtml (text : jsstring) : jsstring :=
  replace_char c_apos (lit "&#039;")
    (replace_char c_quot (lit "&quot;")
      (replace_char c_gt (lit "&gt;")
        (replace_char c_lt (lit "&lt;")
          (replace_char c_amp (lit "&amp;") text)))).

(** [id.replace(/_/g, '[_＿]')] *)
Definition escapedId (id : jsstring) : jsstring :=
  replace_char c_underscore
    [c_lbracket; c_underscore; c_fullwidth_underscore; c_rbracket] id.

(** [escapedId.split('').join('\\s*')]: the pattern source. *)
Definition pattern_source (id : jsstring) : jsstring :=
  join [c_backslash; 115; c_star] (split_chars (escapedId id)).

(** The replacement string of the template literal. *)
Definition wrapper_open : jsstring :=
  lit "<span class=" ++ [c_quot] ++ lit "immersive-translate-placeholder"
  ++ [c_quot] ++ lit ">".

Definition wrapper_close : jsstring := lit "</span>".

Definition wrapper (originalHtml : jsstring) : jsstring :=
  wrapper_open ++ originalHtml ++ wrapper_close.

(** The placeholder map: a JavaScript object with string keys, iterated by
    [Object.entries] in insertion order. *)
Abbreviation PlaceholderMap := (list (jsstring * jsstring)).

(** The loop of [restorePlaceholders] over [Object.entries(placeholderMap)].
    [None]: the pattern source is outside the modelled pattern syntax. *)
Fixpoint restore_entries (entries : PlaceholderMap) (html : jsstring)
  : option jsstring :=
  match entries with
  | [] => Some html
  | (id, originalHtml) :: rest =>
      match parse (pattern_source id) with
      | Some pattern =>
          restore_entries rest (replace_all pattern (wrapper originalHtml) html)
      | None => None
      end
  end.

Definition restorePlaceholders (translatedText : jsstring)
    (placeholderMap : PlaceholderMap) : option jsstring :=
  if negb (nonempty translatedText) then Some []
  else restore_entries placeholderMap (escapeHtml translatedText).

(** *** [getTranslatableText] *)

Fixpoint uint_digits (u : Decimal.uint) : jsstring :=
  match u with
  | Decimal.Nil => []
  | Decimal.D0 u => 48 :: uint_digits u
  | Decimal.D1 u => 49 :: uint_digits u
  | Decimal.D2 u => 50 :: uint_digits u
  | Decimal.D3 u => 51 :: uint_digits u
  | Decimal.D4 u => 52 :: uint_digits u
  | Decimal.D5 u => 53 :: uint_digits u
  | Decimal.D6 u => 54 :: uint_digits u
  | Decimal.D7 u => 55 :: uint_digits u
  | Decimal.D8 u => 56 :: uint_digits u
  | Decimal.D9 u => 57 :: uint_digits u
  end.

(** The decimal digits of the counter inside the template literal. *)
Definition decimal (n : nat) : jsstring := uint_digits (Nat.to_uint n).

(** [`__KIND_${placeholderIndex}__`] *)
Definition token (kind : jsstring) (index : nat) : jsstring :=
  lit "__" ++ kind ++ lit "_" ++ decimal index ++ lit "__".

Definition MATH : jsstring := lit "MATH".
Definition CODE : jsstring := lit "CODE".

(** [placeholderMap[id] = value] *)
Fixpoint obj_set (id value : jsstring) (m : PlaceholderMap) : PlaceholderMap :=
  match m with
  | [] => [(id, value)]
  | (k, v) :: rest =>
      if eqs k id then (k, value) :: rest else (k, v) :: obj_set id value rest
  end.

(** The state of one [forEach]: [placeholderIndex] and [placeholderMap]. *)
Abbreviation shield_state := (nat * PlaceholderMap)%type.

Section Shield.

Variable kind : jsstring.
Variable selected : node -> bool.

Definition record_entry (n : node) (st : shield_state) : shield_state :=
  (S (fst st), obj_set (token kind (fst st)) (outerHTML n) (snd st)).

(** [querySelectorAll] returns a static list: a selected element that lies
    inside another selected element is still visited, after its ancestor's
    [textContent] assignment has detached it.  It gets its token and its
    entry; its own text assignment no longer reaches the clone. *)
Fixpoint register (n : node) (st : shield_state) : shield_state :=
  match n with
  | Elem _ _ ch =>
      fold_left (fun st' c => register c st') ch
                (if selected n then record_entry n st else st)
  | _ => st
  end.

(** One [forEach] pass over the selected descendants, in tree order. *)
Fixpoint shield (n : node) (st : shield_state) : node * shield_state :=
  match n with
  | Elem tag attrs ch =>
      if selected n then
        (Elem tag attrs
           [Text ([c_space] ++ token kind (fst st) ++ [c_space])],
         register n st)
      else
        let r :=
          (fix go (l : list node) (st' : shield_state)
             : list node * shield_state :=
             match l with
             | [] => ([], st')
             | c :: l' =>
                 let r1 := shield c st' in
                 let r2 := go l' (snd r1) in
                 (fst r1 :: fst r2, snd r2)
             end) ch st in
        (Elem tag attrs (fst r), snd r)
  | _ => (n, st)
  end.

(** The same pass over a list of siblings. *)
Fixpoint shield_list (l : list node) (st : shield_state)
  : list node * shield_state :=
  match l with
  | [] => ([], st)
  | c :: l' =>
      let r1 := shield c st in
      let r2 := shield_list l' (snd r1) in
      (fst r1 :: fst r2, snd r2)
  end.

End Shield.

(** [.replace(/\s+/g, ' ')]: every maximal run of white space becomes one
    space.  [in_run] tells that the previous code unit was white space. *)
Fixpoint collapse_ws (in_run : bool) (s : jsstring) : jsstring :=
  match s with
  | [] => []
  | c :: s' =>
      if is_ws c then
        if in_run then collapse_ws true s' else c_space :: collapse_ws true s'
      else c :: collapse_ws false s'
  end.

Fixpoint trim_start (s : jsstring) : jsstring :=
  match s with
  | [] => []
  | c :: s' => if is_ws c then trim_start s' else s
  end.

Definition trim (s : jsstring) : jsstring :=
  rev (trim_start (rev (trim_start s))).

Definition children_of (n : node) : list node :=
  match n with
  | Elem _ _ ch => ch
  | _ => []
  end.

Definition with_children (n : node) (ch : list node) : node :=
  match n with
  | Elem tag attrs _ => Elem tag attrs ch
  | _ => n
  end.

(** [getTranslatableText(element)].  The clone is a value here, so the live
    element is untouched.  The clone is not rendered, hence its [innerText]
    is its [textContent]. *)
Definition getTranslatableText (element : node) : jsstring * PlaceholderMap :=
  let clone := element in
  let m := shield_list MATH matches_math (children_of clone) (0%nat, []) in
  let c := shield_list CODE matches_code (fst m) (snd m) in
  let clone' := with_children clone (fst c) in
  let text := trim (collapse_ws false (textContent clone')) in
  (text, snd (snd c)).

End Content.

Local Close Scope N_scope.

(* ===================================================================== *)
(** ** The service worker: cached translation client *)
(* ===================================================================== *)

Module Background.

(** The JavaScript values that flow through the client: what
    [response.json()] yields from string and array responses, and
    [undefined].  Numbers and plain objects do not occur in them. *)
Inductive jsval : Type :=
  | Undef
  | Null
  | Bool (b : bool)
  | Str (s : jsstring)
  | Arr (items : list jsval).

Definition truthy (v : jsval) : bool :=
  match v with
  | Undef | Null => false
  | Bool b => b
  | Str s => nonempty s
  | Arr _ => true
  end.

(** [String(v)] *)
Fixpoint String_ (v : jsval) : jsstring :=
  match v with
  | Undef => lit "undefined"
  | Null => lit "null"
  | Bool true => lit "true"
  | Bool false => lit "false"
  | Str s => s
  | Arr items =>
      join (lit ",")
        (List.map (fun x => match x with
                            | Undef | Null => []
                            | _ => String_ x
                            end) items)
  end.

(** [arr[0]] *)
Definition first (items : list jsval) : jsval :=
  match items with
  | x :: _ => x
  | [] => Undef
  end.

Inductive error : Type :=
  | NetworkError (message : jsstring)           (* fetch rejected *)
  | HttpError (status : N) (statusText : jsstring)
  | JsonError                                   (* response.json() rejected *)
  | TypeError.                                  (* data.map is not a function *)

Inductive result (A : Type) : Type :=
  | Ok (a : A)
  | Throw (e : error).
Arguments Ok {A} a.
Arguments Throw {A} e.

(** The request of [translateBatch]: the language pair and the repeated
    [q] parameters. *)
Record request : Type := mkRequest {
  r_sl : jsstring;
  r_tl : jsstring;
  r_q : list jsstring
}.

Inductive fetch_outcome : Type :=
  | FetchRejected (message : jsstring)
  | FetchResponse (status : N) (statusText : jsstring) (body : option jsval).

Inductive event : Type :=
  | EvFetch (r : request)
  | EvDelay (ms : N).

(** What the client reads and writes: [chrome.storage.local], the number
    of [fetch] calls issued so far, and the fetches and timer waits in the
    order they happened. *)
Record world : Type := mkWorld {
  storage : gmap jsstring (gmap jsstring jsval);
  fetches : nat;
  timeline : list event
}.

Definition M (A : Type) : Type := world -> result A * world.

Definition ret {A} (a : A) : M A := fun w => (Ok a, w).

Definition bind {A B} (m : M A) (k : A -> M B) : M B :=
  fun w =>
    match m w with
    | (Ok a, w') => k a w'
    | (Throw e, w') => (Throw e, w')
    end.

Notation "x <- m ;; k" := (bind m (fun x => k))
  (at level 100, m at next level, right associativity).

(** [await delay(ms)] *)
Definition delay (ms : N) : M unit :=
  fun w => (Ok tt, mkWorld (storage w) (fetches w) (timeline w ++ [EvDelay ms])).

(** [response.ok] *)
Definition response_ok (status : N) : bool :=
  ((200 <=? status) && (status <=? 299))%N.

(** The response normalization of [translateBatch]. *)
Definition normalize (texts : list jsstring) (data : jsval) : result (list jsval) :=
  if Nat.eqb (length texts) 1 then
    match data with
    | Arr items =>
        Ok [match first items with
            | Arr inner => first inner
            | v => v
            end]
    | _ => Ok [Str (String_ data)]
    end
  else
    match data with
    | Arr items =>
        Ok (List.map (fun item => match item with
                                  | Arr inner => first inner
                                  | _ => Str (String_ item)
                                  end) items)
    | _ => Throw TypeError
    end.

(** What the body of the [try] in [translateBatch] makes of a fetch
    outcome: the normalized list, or the exception raised. *)
Definition outcome_result (texts : list jsstring) (outcome : fetch_outcome)
  : result (list jsval) :=
  match outcome with
  | FetchRejected message => Throw (NetworkError message)
  | FetchResponse status statusText body =>
      if response_ok status then
        match body with
        | Some data => normalize texts data
        | None => Throw JsonError
        end
      else Throw (HttpError status statusText)
  end.

Definition maxRetries : nat := 3.
Definition batchSize : nat := 10.

Section Client.

(** [getHash]: the hexadecimal SHA-256 digest of the text.  The client
    uses it only as a function from texts to keys (64 hexadecimal digits,
    so never the name of a property every object inherits). *)
Variable getHash : jsstring -> jsstring.

(** The remote backend: what the n-th [fetch] of the service worker
    yields for a request. *)
Variable backend : nat -> request -> fetch_outcome.

(** [await fetch(...)]: the next answer of the backend. *)
Definition fetch (req : request) : world -> fetch_outcome * world :=
  fun w =>
    (backend (fetches w) req,
     mkWorld (storage w) (S (fetches w)) (timeline w ++ [EvFetch req])).

(** The body of the [try] in [translateBatch]. *)
Definition attempt (texts : list jsstring) (sl tl : jsstring)
  : M (list jsval) :=
  fun w =>
    let (outcome, w') := fetch (mkRequest sl tl texts) w in
    (outcome_result texts outcome, w').

(** The [for] loop of [translateBatch]; [remaining] is
    [maxRetries - attempt].  Falling out of the loop returns
    [undefined].  ([console.error] leaves no trace in the model.) *)
Fixpoint retry (remaining attempt_no : nat) (texts : list jsstring)
    (sl tl : jsstring) : M jsval :=
  match remaining with
  | O => ret Undef
  | S remaining' =>
      fun w =>
        match attempt texts sl tl w with
        | (Ok translated, w') => (Ok (Arr translated), w')
        | (Throw e, w') =>
            if attempt_no <? maxRetries - 1 then
              (_ <- delay (2 ^ N.of_nat attempt_no * 500)%N ;;
               retry remaining' (S attempt_no) texts sl tl) w'
            else (Throw e, w')
        end
  end.

Definition translateBatch (texts : list jsstring) (sl tl : jsstring) : M jsval :=
  retry maxRetries 0 texts sl tl.

(** [texts.slice(i, i + batchSize)] *)
Definition slice {A} (i j : nat) (l : list A) : list A :=
  take (j - i) (drop i l).

(** The [for] loop of [fetchTranslationsFromApi].  [fuel] bounds the
    number of iterations; [fetchTranslationsFromApi] passes enough. *)
Fixpoint fetch_loop (fuel : nat) (texts : list jsstring) (sl tl : jsstring)
    (i : nat) (results : list jsval) : M (list jsval) :=
  match fuel with
  | O => ret results
  | S fuel' =>
      if i <? length texts then
        batchResults <- translateBatch (slice i (i + batchSize) texts) sl tl ;;
        let results' :=
          match batchResults with
          | Arr items => results ++ items
          | other => results ++ [other]
          end in
        _ <- (if i + batchSize <? length texts then delay 200%N else ret tt) ;;
        fetch_loop fuel' texts sl tl (i + batchSize) results'
      else ret results
  end.

Definition fetchTranslationsFromApi (texts : list jsstring) (sl tl : jsstring)
  : M (list jsval) :=
  fetch_loop (length texts) texts sl tl 0 [].

Definition cacheKey (sl tl : jsstring) : jsstring :=
  lit "tr_cache_" ++ sl ++ lit "_" ++ tl.

(** The state of the cache check: [results], [uncachedIndices],
    [uncachedTexts]. *)
Record lookup_state : Type := mkLookup {
  results : list jsval;
  uncachedIndices : list nat;
  uncachedTexts : list jsstring
}.

(** [cache[hash]] *)
Definition cache_get (cache : gmap jsstring jsval) (hash : jsstring) : jsval :=
  default Undef (cache !! hash).

(** The cache check loop, from index [i] on. *)
Fixpoint check_cache (cache : gmap jsstring jsval) (texts : list jsstring)
    (i : nat) (st : lookup_state) : lookup_state :=
  match texts with
  | [] => st
  | text :: rest =>
      let hash := getHash text in
      check_cache cache rest (S i)
        (if truthy (cache_get cache hash) then
           mkLookup (<[i := cache_get cache hash]> (results st))
                    (uncachedIndices st) (uncachedTexts st)
         else
           mkLookup (results st) (uncachedIndices st ++ [i])
                    (uncachedTexts st ++ [text]))
  end.

(** [arr[i]] *)
Definition at_index (l : list jsval) (i : nat) : jsval :=
  default Undef (l !! i).

(** The merge loop over the fetched results, from index [i] on. *)
Fixpoint merge (apiResults : list jsval) (indices : list nat)
    (texts : list jsstring) (i : nat)
    (acc : list jsval * gmap jsstring jsval)
  : list jsval * gmap jsstring jsval :=
  match texts with
  | [] => acc
  | text :: rest =>
      let translated := at_index apiResults i in
      let hash := getHash text in
      merge apiResults indices rest (S i)
        (match indices !! i with
         | Some originalIndex => <[originalIndex := translated]> (fst acc)
         | None => fst acc
         end,
         <[hash := translated]> (snd acc))
  end.

(** [chrome.storage.local.set({[key]: value})]; the write is issued
    before [translateTexts] returns and storage operations take effect in
    the order they are issued. *)
Definition storage_set (key : jsstring) (value : gmap jsstring jsval) : M unit :=
  fun w => (Ok tt, mkWorld (<[key := value]> (storage w)) (fetches w) (timeline w)).

(** [translateTexts].  The [catch] block logs and rethrows, so a failure
    of the fetch passes through [bind]; [{...cache, ...newCache}] is the
    union in which the new entries win. *)
Definition translateTexts (texts : list jsstring) (sl tl : jsstring)
  : M (list jsval) :=
  fun w =>
    let key := cacheKey sl tl in
    let cache := default ∅ (storage w !! key) in
    let st := check_cache cache texts 0
                (mkLookup (replicate (length texts) Null) [] []) in
    match uncachedTexts st with
    | [] => (Ok (results st), w)
    | _ =>
        (apiResults <- fetchTranslationsFromApi (uncachedTexts st) sl tl ;;
         let merged := merge apiResults (uncachedIndices st)
                         (uncachedTexts st) 0 (results st, ∅) in
         _ <- storage_set key (snd merged ∪ cache) ;;
         ret (fst merged)) w
    end.

End Client.

End Background.

(* ===================================================================== *)
(** ** content.js: fragment selection and the page pass *)
(* ===================================================================== *)

Module Session.

Import Dom Content Background.

Definition TRANSLATED_ATTR : jsstring := lit "data-immersive-translated".
Definition TRANSLATE_CLASS : jsstring := lit "immersive-translate-result".
Definition TRANSLATE_WRAPPER_CLASS : jsstring := lit "immersive-translate-wrapper".

Definition TARGET_SELECTORS : list jsstring :=
  List.map lit ["p"; "h1"; "h2"; "h3"; "h4"; "h5"; "h6"; "li"; "td"; "th";
           "blockquote"; "caption"; "dd"; "dt"; "figcaption"; "summary"]%string.

Definition EXCLUDE_TAGS : list jsstring :=
  List.map lit ["code"; "pre"; "script"; "style"; "noscript"; "input";
           "textarea"; "select"; "button"; "nav"; "footer"; "header";
           "table"]%string.

Definition EXCLUDE_CLASSES : list jsstring :=
  [TRANSLATE_CLASS; TRANSLATE_WRAPPER_CLASS] ++ math_classes.

Definition attrs_of (n : node) : list (jsstring * jsstring) :=
  match n with
  | Elem _ attrs _ => attrs
  | _ => []
  end.

Definition tag_of (n : node) : jsstring :=
  match n with
  | Elem tag _ _ => tag
  | _ => []
  end.

Definition matches_target (n : node) : bool :=
  match n with
  | Elem tag _ _ => existsb (eqs tag) TARGET_SELECTORS
  | _ => false
  end.

(** [el.matches(EXCLUDE_SELECTORS)] *)
Definition matches_exclude (n : node) : bool :=
  match n with
  | Elem tag attrs _ =>
      existsb (eqs tag) EXCLUDE_TAGS
      || existsb (fun c => has_class c attrs) EXCLUDE_CLASSES
      || bool_decide (getAttribute (lit "contenteditable") attrs = Some (lit "true"))
      || bool_decide (getAttribute (lit "translate") attrs = Some (lit "no"))
  | _ => false
  end.

(** The nodes the extension puts right after an element. *)
Inductive sibling : Type :=
  | Loader                                          (* .immersive-translate-loading *)
  | Translation (tag : jsstring) (html : jsstring). (* .immersive-translate-result *)

(** One element of the page that [querySelectorAll(TARGET_SELECTORS)] can
    return, with what content.js can observe around it: whether one of its
    ancestors matches [EXCLUDE_SELECTORS], and the nodes the extension has
    inserted right after it, nearest first.  The page's own elements carry
    none of the extension's classes, and the listed elements do not contain
    one another. *)
Record fragment : Type := mkFragment {
  f_node : node;
  f_inside_excluded : bool;
  f_after : list sibling
}.

(** A target element somewhere in the subtree, the root included. *)
Fixpoint holds_target (n : node) : bool :=
  match n with
  | Elem _ _ ch => matches_target n || existsb holds_target ch
  | _ => false
  end.

(** The pages the list of fragments tells in full: no listed element holds
    an element that matches [TARGET_SELECTORS] (no [p] inside a [li] or a
    [blockquote], and so on), so that what the extension inserts after one
    element lies inside no other.  What is said about the page a pass
    leaves around the elements is said for these pages. *)
Definition no_nested_targets (page : list fragment) : bool :=
  forallb (fun f => negb (existsb holds_target (children_of (f_node f)))) page.

Definition hasAttribute (name : jsstring) (n : node) : bool :=
  match getAttribute name (attrs_of n) with
  | Some _ => true
  | None => false
  end.

Definition japanese (c : N) : bool :=
  ((12352 <=? c) && (c <=? 12447) || (12448 <=? c) && (c <=? 12543)
   || (19968 <=? c) && (c <=? 40959))%N.

(** [isMainlyJapanese]: [matches.length / text.length > 0.3].  With fewer
    than 2^49 code units the quotient of the two lengths, rounded to a
    double, exceeds the double 0.3 exactly when it exceeds 3/10. *)
Definition isMainlyJapanese (text : jsstring) : bool :=
  let matches := List.filter japanese text in
  match matches with
  | [] => false
  | _ => 3 * length text <? 10 * length matches
  end.

Definition eligible (f : fragment) : bool :=
  matches_target (f_node f)
  && negb (hasAttribute TRANSLATED_ATTR (f_node f))
  && negb (matches_exclude (f_node f) || f_inside_excluded f)
  && (let text := fst (getTranslatableText (f_node f)) in
      nonempty text && negb (length text <? 2) && negb (isMainlyJapanese text)).

(** [collectTargetElements]: the positions, in document order, of the
    elements kept. *)
Fixpoint collect_from (i : nat) (doc : list fragment) : list nat :=
  match doc with
  | [] => []
  | f :: rest =>
      if eligible f then i :: collect_from (S i) rest
      else collect_from (S i) rest
  end.

Definition collectTargetElements (doc : list fragment) : list nat :=
  collect_from 0 doc.

Definition map_attrs (g : list (jsstring * jsstring) -> list (jsstring * jsstring))
    (f : fragment) : fragment :=
  mkFragment
    (match f_node f with
     | Elem tag attrs ch => Elem tag (g attrs) ch
     | other => other
     end)
    (f_inside_excluded f) (f_after f).

(** [el.setAttribute(TRANSLATED_ATTR, value)] *)
Definition set_marker (value : jsstring) : fragment -> fragment :=
  map_attrs (setAttribute TRANSLATED_ATTR value).

(** [el.removeAttribute(TRANSLATED_ATTR)] *)
Definition clear_marker : fragment -> fragment :=
  map_attrs (removeAttribute TRANSLATED_ATTR).

Definition showLoadingIndicator (f : fragment) : fragment :=
  match f_after f with
  | Loader :: _ => f
  | after => mkFragment (f_node f) (f_inside_excluded f) (Loader :: after)
  end.

Definition removeLoadingIndicator (f : fragment) : fragment :=
  match f_after f with
  | Loader :: after => mkFragment (f_node f) (f_inside_excluded f) after
  | _ => f
  end.

(** [insertTranslation(el, content, true)] *)
Definition insertTranslation (content : jsstring) (f : fragment) : fragment :=
  let after :=
    match f_after f with
    | Translation _ _ :: rest => rest
    | other => other
    end in
  mkFragment (f_node f) (f_inside_excluded f)
             (Translation (tag_of (f_node f)) content :: after).

Definition is_translation (x : sibling) : bool :=
  match x with Translation _ _ => true | Loader => false end.

Definition is_loader (x : sibling) : bool :=
  match x with Loader => true | Translation _ _ => false end.

(** Removing the inserted nodes that carry a class. *)
Definition remove_siblings (which : sibling -> bool) (f : fragment) : fragment :=
  mkFragment (f_node f) (f_inside_excluded f)
             (List.filter (fun x => negb (which x)) (f_after f)).

(** The answer to [chrome.runtime.sendMessage]: the promise rejects (or
    resolves to [undefined]), or resolves to an object whose [error] and
    [translated] properties are read. *)
Inductive response : Type :=
  | Rejected
  | Response (error : jsval) (translated : jsval).

(** [error.message].  The texts of the engine's own errors vary; they are
    never empty. *)
Definition message_of (e : Background.error) : jsstring :=
  match e with
  | NetworkError message => message
  | HttpError status statusText =>
      lit "HTTP " ++ decimal (N.to_nat status) ++ lit ": " ++ statusText
  | JsonError => lit "Unexpected end of JSON input"
  | TypeError => lit "data.map is not a function"
  end.

(** [handleTranslateRequest] in the service worker: the answer to a
    TRANSLATE message has one of two shapes. *)
Definition handleTranslateRequest (getHash : jsstring -> jsstring)
    (backend : nat -> request -> fetch_outcome)
    (texts : list jsstring) (sourceLang targetLang : jsstring)
  : world -> response * world :=
  fun w =>
    match translateTexts getHash backend texts sourceLang targetLang w with
    | (Ok translated, w') => (Response Undef (Arr translated), w')
    | (Throw e, w') => (Response (Str (message_of e)) Undef, w')
    end.

(** [response.translated[index]]; [None] when the read throws. *)
Definition translated_at (translated : jsval) (index : nat) : option jsval :=
  match translated with
  | Undef | Null => None
  | Arr items => Some (default Undef (items !! index))
  | Str s => Some (match s !! index with Some c => Str [c] | None => Undef end)
  | Bool _ => Some Undef
  end.

Definition MARK_LOADING : jsstring := lit "loading".
Definition MARK_DONE : jsstring := lit "done".

(** The [forEach] that inserts the results; the flag tells whether it ran
    to its end ([true]) or threw. *)
Fixpoint insert_results (translated : jsval)
    (batch : list (nat * PlaceholderMap)) (index : nat)
    (doc : list fragment) : bool * list fragment :=
  match batch with
  | [] => (true, doc)
  | (el, placeholderMap) :: rest =>
      let doc1 := alter removeLoadingIndicator el doc in
      match translated_at translated index with
      | None => (false, doc1)
      | Some item =>
          if truthy item then
            match item with
            | Str s =>
                match restorePlaceholders s placeholderMap with
                | Some translatedHtml =>
                    insert_results translated rest (S index)
                      (alter (fun f => set_marker MARK_DONE
                                         (insertTranslation translatedHtml f))
                             el doc1)
                | None => (false, doc1)
                end
            | _ => (false, doc1)
            end
          else insert_results translated rest (S index) doc1
      end
  end.

(** The clean-up of both failure paths. *)
Definition revert_batch (batch : list nat) (doc : list fragment) : list fragment :=
  fold_left (fun d el => alter (fun f => clear_marker (removeLoadingIndicator f)) el d)
            batch doc.

Definition mark_loading (batch : list nat) (doc : list fragment) : list fragment :=
  fold_left (fun d el => alter (fun f => showLoadingIndicator (set_marker MARK_LOADING f)) el d)
            batch doc.

Definition node_at (doc : list fragment) (el : nat) : node :=
  match doc !! el with
  | Some f => f_node f
  | None => Text []
  end.

(** The session: the page and the two module-level flags.  [sent] counts
    the TRANSLATE messages; [history] lists the flags (isTranslated,
    isTranslating) after each assignment to one of them, oldest first. *)
Record session : Type := mkSession {
  doc : list fragment;
  isTranslated : bool;
  isTranslating : bool;
  sent : nat;
  history : list (bool * bool)
}.

Definition set_isTranslating (b : bool) (s : session) : session :=
  mkSession (doc s) (isTranslated s) b (sent s)
            (history s ++ [(isTranslated s, b)]).

Definition set_isTranslated (b : bool) (s : session) : session :=
  mkSession (doc s) b (isTranslating s) (sent s)
            (history s ++ [(b, isTranslating s)]).

Definition pageBatchSize : nat := 20.

Section Page.

(** The service worker's answer to the n-th TRANSLATE message. *)
Variable sendMessage : nat -> list jsstring -> response.

(** The body of the batch loop of [translatePage]. *)
Definition translate_batch (batch : list nat) (s : session) : session :=
  let batchData := List.map (fun el => getTranslatableText (node_at (doc s) el)) batch in
  let texts := List.map fst batchData in
  let doc1 := mark_loading batch (doc s) in
  let doc2 :=
    match sendMessage (sent s) texts with
    | Rejected => revert_batch batch doc1
    | Response error translated =>
        if truthy error then revert_batch batch doc1
        else
          match insert_results translated
                  (combine batch (List.map snd batchData)) 0 doc1 with
          | (true, doc') => doc'
          | (false, doc') => revert_batch batch doc'
          end
    end in
  mkSession doc2 (isTranslated s) (isTranslating s) (S (sent s)) (history s).

(** The batch loop; [fuel] bounds the iterations and [translatePage]
    passes enough. *)
Fixpoint batch_loop (fuel : nat) (targets : list nat) (i : nat)
    (s : session) : session :=
  match fuel with
  | O => s
  | S fuel' =>
      if i <? length targets then
        batch_loop fuel' targets (i + pageBatchSize)
          (translate_batch (slice i (i + pageBatchSize) targets) s)
      else s
  end.

(** [translatePage], run to completion.  The [finally] clause assigns
    [isTranslating] on every way out of the [try]. *)
Definition translatePage (s : session) : session :=
  if isTranslating s then s
  else
    let s1 := set_isTranslating true s in
    let targets := collectTargetElements (doc s1) in
    match targets with
    | [] => set_isTranslating false (set_isTranslating false s1)
    | _ =>
        let s2 := batch_loop (length targets) targets 0 s1 in
        set_isTranslating false (set_isTranslated true s2)
    end.

(** [removeAllTranslations]: the three [querySelectorAll(...).forEach]
    sweeps, then the flag. *)
Definition removeAllTranslations (s : session) : session :=
  let doc1 := List.map (remove_siblings is_translation) (doc s) in
  let doc2 := List.map (remove_siblings is_loader) doc1 in
  let doc3 := List.map clear_marker doc2 in
  set_isTranslated false
    (mkSession doc3 (isTranslated s) (isTranslating s) (sent s) (history s)).

Definition toggleTranslate (s : session) : session :=
  if isTranslated s then removeAllTranslations s else translatePage s.

End Page.

End Session.

(* ===================================================================== *)
(** ** Properties of the placeholder patterns *)
(* ===================================================================== *)

Module PatternFacts.

Import Regex Content.
Local Open Scope N_scope.

(** The characters of the tokens [getTranslatableText] makes: underscore,
    upper-case letters, digits. *)
Definition is_token_char (c : N) : bool :=
  (c =? c_underscore) || ((65 <=? c) && (c <=? 90)) || ((48 <=? c) && (c <=? 57)).

Definition valid_token (t : jsstring) : Prop :=
  t <> [] /\ forallb is_token_char t = true.

(** What the split and join make of the class [[_＿]]: the pieces
    [\s], [*], [_], [\s], [*], [＿], [\s], [*]. *)
Definition underscore_class : list citem :=
  [CSpace; CLit c_star; CLit c_underscore; CSpace; CLit c_star;
   CLit c_fullwidth_underscore; CSpace; CLit c_star].

Definition atom_of (c : N) : atom :=
  if c =? c_underscore then AClass underscore_class else ALit c.

(** The pattern of a token: one atom per character, [\s*] in between. *)
Fixpoint pattern_of (t : jsstring) : list term :=
  match t with
  | [] => []
  | [c] => [One (atom_of c)]
  | c :: t' => One (atom_of c) :: Star ASpace :: pattern_of t'
  end.

Definition sep : jsstring := [c_backslash; 115; c_star].

Definition block (c : N) : jsstring :=
  if c =? c_underscore
  then [c_lbracket; c_underscore; c_fullwidth_underscore; c_rbracket]
  else [c].

Lemma join_split_cons (c : N) (s : jsstring) :
  s <> [] -> join sep (split_chars (c :: s)) = c :: sep ++ join sep (split_chars s).
Proof. destruct s; [congruence | reflexivity]. Qed.

Lemma join_split_app (a b : jsstring) :
  a <> [] -> b <> [] ->
  join sep (split_chars (a ++ b))
  = join sep (split_chars a) ++ sep ++ join sep (split_chars b).
Proof.
  induction a as [|c a IH]; intros Ha Hb; [congruence|].
  destruct a as [|c' a].
  - cbn [app]. rewrite join_split_cons by assumption. reflexivity.
  - change ((c :: c' :: a) ++ b) with (c :: ((c' :: a) ++ b)).
    rewrite join_split_cons by discriminate.
    rewrite IH by (assumption || discriminate).
    rewrite (join_split_cons c (c' :: a)) by discriminate.
    cbn [app]. rewrite <- !app_assoc. reflexivity.
Qed.

Lemma escapedId_cons (c : N) (t : jsstring) :
  escapedId (c :: t) = block c ++ escapedId t.
Proof.
  unfold escapedId, replace_char, block. cbn [flat_map].
  destruct (c =? c_underscore); reflexivity.
Qed.

Lemma block_nonempty (c : N) : block c <> [].
Proof. unfold block. destruct (c =? c_underscore); discriminate. Qed.

Lemma escapedId_nonempty (t : jsstring) : t <> [] -> escapedId t <> [].
Proof.
  destruct t as [|c t]; [congruence|]. intros _. rewrite escapedId_cons.
  pose proof (block_nonempty c). destruct (block c); [congruence | discriminate].
Qed.

(** The source of one character's share of the pattern. *)
Definition block_source (c : N) : jsstring := join sep (split_chars (block c)).

Lemma pattern_source_cons (c : N) (t : jsstring) :
  t <> [] ->
  pattern_source (c :: t) = block_source c ++ sep ++ pattern_source t.
Proof.
  intros Ht. unfold pattern_source. rewrite escapedId_cons.
  apply join_split_app; [apply block_nonempty | now apply escapedId_nonempty].
Qed.

Lemma pattern_source_single (c : N) : pattern_source [c] = block_source c.
Proof.
  unfold pattern_source. rewrite escapedId_cons. cbn. now rewrite app_nil_r.
Qed.

Lemma pfold_app (st : pstate) (a b : jsstring) :
  pfold st (a ++ b) = match pfold st a with
                      | Some st' => pfold st' b
                      | None => None
                      end.
Proof.
  revert st. induction a as [|c a IH]; intros st; cbn; [reflexivity|].
  destruct (pstep st c); [apply IH | reflexivity].
Qed.

Lemma pstep_literal (done : list term) (c : N) :
  is_token_char c = true -> c <> c_underscore ->
  pstep (mkP done None PTop) c = Some (mkP done (Some (ALit c)) PTop).
Proof.
  unfold is_token_char, c_underscore. intros H Hc.
  assert (Hr : (65 <= c <= 90) \/ (48 <= c <= 57)).
  { apply orb_true_iff in H as [H|H].
    - apply orb_true_iff in H as [H|H].
      + apply N.eqb_eq in H. congruence.
      + apply andb_true_iff in H as [H1 H2].
        apply N.leb_le in H1, H2. lia.
    - apply andb_true_iff in H as [H1 H2]. apply N.leb_le in H1, H2. lia. }
  unfold pstep, syntax_char, modelled_literal, c_backslash, c_lbracket, c_star,
    c_fullwidth_underscore. cbn [p_mode existsb].
  repeat match goal with
  | |- context [N.eqb c ?k] =>
      replace (N.eqb c k) with false by (symmetry; apply N.eqb_neq; lia)
  end.
  replace (c <? 128) with true by (symmetry; apply N.ltb_lt; lia).
  reflexivity.
Qed.

Lemma pfold_block (done : list term) (c : N) :
  is_token_char c = true ->
  pfold (mkP done None PTop) (block_source c)
  = Some (mkP done (Some (atom_of c)) PTop).
Proof.
  intros H. unfold block_source, block, atom_of.
  destruct (c =? c_underscore) eqn:E.
  - reflexivity.
  - change (join sep (split_chars [c])) with [c]. cbn [pfold].
    rewrite pstep_literal; [reflexivity | assumption |].
    now apply N.eqb_neq.
Qed.

Lemma pfold_sep (done : list term) (a : atom) (rest : jsstring) :
  pfold (mkP done (Some a) PTop) (sep ++ rest)
  = pfold (mkP (done ++ [One a; Star ASpace]) None PTop) rest.
Proof. cbn. now rewrite <- app_assoc. Qed.

Lemma pfold_pattern_source (t : jsstring) :
  forallb is_token_char t = true -> t <> [] ->
  forall done,
    exists st, pfold (mkP done None PTop) (pattern_source t) = Some st
               /\ p_mode st = PTop
               /\ flush st = done ++ pattern_of t.
Proof.
  induction t as [|c t IH]; intros Hall Hne done; [congruence|].
  cbn [forallb] in Hall. apply andb_true_iff in Hall as [Hc Hall].
  destruct t as [|c' t].
  - rewrite pattern_source_single, pfold_block by assumption.
    eexists; repeat split.
  - rewrite pattern_source_cons by discriminate.
    rewrite pfold_app, pfold_block by assumption.
    rewrite pfold_sep.
    destruct (IH Hall ltac:(discriminate) (done ++ [One (atom_of c); Star ASpace]))
      as (st & Hst & Hm & Hf).
    exists st. repeat split; [assumption .. |].
    rewrite Hf, <- app_assoc. reflexivity.
Qed.

(** The pattern [restorePlaceholders] compiles for a token. *)
Lemma parse_pattern_source (t : jsstring) :
  forallb is_token_char t = true ->
  parse (pattern_source t) = Some (pattern_of t).
Proof.
  intros Hall. destruct t as [|c t]; [reflexivity|].
  destruct (pfold_pattern_source (c :: t) Hall ltac:(discriminate) [])
    as (st & Hst & Hm & Hf).
  unfold parse. rewrite Hst, Hm, Hf. reflexivity.
Qed.

(** *** Matching, declaratively *)

Inductive matches : list term -> jsstring -> Prop :=
  | m_nil : matches [] []
  | m_one a c ts s :
      atom_match a c = true -> matches ts s -> matches (One a :: ts) (c :: s)
  | m_star_stop a ts s :
      matches ts s -> matches (Star a :: ts) s
  | m_star_more a c ts s :
      atom_match a c = true -> matches (Star a :: ts) s ->
      matches (Star a :: ts) (c :: s).

Lemma exec_star_cons (a : atom) (ts : list term) (c : N) (s : jsstring) :
  exec (Star a :: ts) (c :: s)
  = if atom_match a c then
      match exec (Star a :: ts) s with
      | Some n => Some (S n)
      | None => exec ts (c :: s)
      end
    else exec ts (c :: s).
Proof. reflexivity. Qed.

Lemma exec_star_nil (a : atom) (ts : list term) :
  exec (Star a :: ts) [] = exec ts [].
Proof. reflexivity. Qed.

Lemma exec_star_stop (a : atom) (ts : list term) (s : jsstring) (n : nat) :
  exec ts s = Some n -> exists n', exec (Star a :: ts) s = Some n'.
Proof.
  intros H. destruct s as [|c s].
  - rewrite exec_star_nil. eauto.
  - rewrite exec_star_cons. destruct (atom_match a c); [|eauto].
    destruct (exec (Star a :: ts) s); eauto.
Qed.

(** The backtracking matcher finds a match wherever one exists. *)
Lemma exec_complete (ts : list term) (u : jsstring) :
  matches ts u -> forall rest, exists n, exec ts (u ++ rest) = Some n.
Proof.
  induction 1 as [|a c ts s Ha _ IH|a ts s _ IH|a c ts s Ha _ IH]; intros rest.
  - exists 0%nat. reflexivity.
  - destruct (IH rest) as [n Hn]. exists (S n).
    cbn [app exec]. rewrite Ha, Hn. reflexivity.
  - destruct (IH rest) as [n Hn]. eapply exec_star_stop, Hn.
  - destruct (IH rest) as [n Hn]. exists (S n).
    cbn [app]. rewrite exec_star_cons, Ha, Hn. reflexivity.
Qed.

(** What the matcher reports is a match, and lies within the string. *)
Lemma exec_sound (ts : list term) :
  forall s n, exec ts s = Some n ->
              (n <= length s)%nat /\ matches ts (take n s).
Proof.
  induction ts as [|[a|a] ts IH]; intros s n H.
  - cbn in H. injection H as <-. split; [lia | constructor].
  - destruct s as [|c s]; [discriminate|]. cbn [exec] in H.
    destruct (atom_match a c) eqn:Ha; [|discriminate].
    destruct (exec ts s) as [k|] eqn:Hk; [|discriminate].
    cbn in H. injection H as <-. destruct (IH _ _ Hk) as [Hl Hm].
    split; [cbn; lia | cbn [take]; now constructor].
  - revert n H. induction s as [|c s IHs]; intros n H.
    + rewrite exec_star_nil in H. destruct (IH _ _ H) as [Hl Hm].
      split; [assumption | now apply m_star_stop].
    + rewrite exec_star_cons in H. destruct (atom_match a c) eqn:Ha.
      * destruct (exec (Star a :: ts) s) as [k|] eqn:Hk.
        -- injection H as <-. destruct (IHs _ eq_refl) as [Hl Hm].
           split; [cbn; lia | cbn [take]; now apply m_star_more].
        -- destruct (IH _ _ H) as [Hl Hm].
           split; [assumption | now apply m_star_stop].
      * destruct (IH _ _ H) as [Hl Hm].
        split; [assumption | now apply m_star_stop].
Qed.

(** *** Drifted forms of a token *)

(** [drifted variant t d]: [d] is [t] with every character replaced by one
    of its variants and white space inserted between characters. *)
Inductive drifted (variant : N -> N -> Prop) : jsstring -> jsstring -> Prop :=
  | drifted_last c d :
      variant c d -> drifted variant [c] [d]
  | drifted_cons c d ws t u :
      variant c d -> forallb is_ws ws = true -> drifted variant t u ->
      drifted variant (c :: t) (d :: ws ++ u).

(** The tolerances the source comment names: an underscore may have become
    its full-width form; the other characters are unchanged. *)
Definition documented_variantb (c d : N) : bool :=
  if c =? c_underscore then (d =? c_underscore) || (d =? c_fullwidth_underscore)
  else d =? c.

Definition documented_variant (c d : N) : Prop := documented_variantb c d = true.

(** The wider drift: an underscore may also have become a star or a white
    space character, and an upper-case letter its lower-case form. *)
Definition permissive_variantb (c d : N) : bool :=
  if c =? c_underscore then
    (d =? c_underscore) || (d =? c_fullwidth_underscore) || (d =? c_star)
    || is_ws d
  else (d =? c) || ((65 <=? c) && (c <=? 90) && (d =? c + 32)).

Definition permissive_variant (c d : N) : Prop := permissive_variantb c d = true.

(** What the compiled pattern accepts for one character. *)
Definition accepted_variant (c d : N) : Prop :=
  atom_match (atom_of c) d = true.

Lemma canonicalize_caseless (k d : N) :
  (k < 65 \/ 122 < k) \/ (90 < k /\ k < 97) ->
  (canonicalize k =? canonicalize d) = (d =? k).
Proof.
  intros Hk. unfold canonicalize.
  destruct ((97 <=? k) && (k <=? 122)) eqn:Ek.
  { apply andb_true_iff in Ek as [E1 E2]. apply N.leb_le in E1, E2. lia. }
  destruct ((97 <=? d) && (d <=? 122)) eqn:Ed.
  - apply andb_true_iff in Ed as [E1 E2]. apply N.leb_le in E1, E2.
    destruct (N.eqb_spec k (d - 32)), (N.eqb_spec d k); try reflexivity; lia.
  - apply N.eqb_sym.
Qed.

Lemma atom_match_underscore (d : N) :
  atom_match (atom_of c_underscore) d
  = is_ws d || (d =? c_star) || (d =? c_underscore)
    || (d =? c_fullwidth_underscore).
Proof.
  change (atom_of c_underscore) with (AClass underscore_class).
  unfold atom_match, underscore_class, existsb, citem_match.
  rewrite !canonicalize_caseless
    by (unfold c_star, c_underscore, c_fullwidth_underscore; lia).
  destruct (is_ws d), (d =? c_star), (d =? c_underscore),
    (d =? c_fullwidth_underscore); reflexivity.
Qed.

Lemma documented_permissive (c d : N) :
  documented_variant c d -> permissive_variant c d.
Proof.
  unfold documented_variant, permissive_variant, documented_variantb,
    permissive_variantb.
  destruct (c =? c_underscore); intros H.
  - apply orb_true_iff in H as [-> | ->]; [reflexivity|].
    now rewrite orb_true_r.
  - now rewrite H.
Qed.

Lemma permissive_accepted (c d : N) :
  permissive_variant c d -> accepted_variant c d.
Proof.
  unfold permissive_variant, permissive_variantb, accepted_variant.
  destruct (c =? c_underscore) eqn:E.
  - apply N.eqb_eq in E. subst c. rewrite atom_match_underscore.
    destruct (is_ws d), (d =? c_star), (d =? c_underscore),
      (d =? c_fullwidth_underscore); cbn; congruence.
  - unfold atom_of. rewrite E. cbn [atom_match]. intros H.
    apply orb_true_iff in H as [H|H].
    + apply N.eqb_eq in H. subst d. apply N.eqb_refl.
    + apply andb_true_iff in H as [H Hd]. apply andb_true_iff in H as [H1 H2].
      apply N.leb_le in H1, H2. apply N.eqb_eq in Hd. subst d.
      apply N.eqb_eq. unfold canonicalize.
      replace ((97 <=? c) && (c <=? 122)) with false
        by (symmetry; apply andb_false_iff; left; apply N.leb_gt; lia).
      replace ((97 <=? c + 32) && (c + 32 <=? 122)) with true
        by (symmetry; apply andb_true_iff; split; apply N.leb_le; lia).
      lia.
Qed.

Lemma documented_accepted (c d : N) :
  documented_variant c d -> accepted_variant c d.
Proof. intros H. now apply permissive_accepted, documented_permissive. Qed.

Lemma drifted_mono (v1 v2 : N -> N -> Prop) (t d : jsstring) :
  (forall c x, v1 c x -> v2 c x) -> drifted v1 t d -> drifted v2 t d.
Proof.
  intros Hv. induction 1; [apply drifted_last | apply drifted_cons]; auto.
Qed.

Lemma drifted_nonempty (v : N -> N -> Prop) (t d : jsstring) :
  drifted v t d -> t <> [] /\ d <> [].
Proof. destruct 1; split; discriminate. Qed.

Lemma matches_star_ws (ts : list term) (ws u : jsstring) :
  forallb is_ws ws = true -> matches ts u -> matches (Star ASpace :: ts) (ws ++ u).
Proof.
  induction ws as [|c ws IH]; intros Hws Hm; cbn [app].
  - now apply m_star_stop.
  - cbn [forallb] in Hws. apply andb_true_iff in Hws as [Hc Hws].
    apply m_star_more; [exact Hc | now apply IH].
Qed.

(** A drifted form within the accepted variants matches the pattern. *)
Lemma drifted_matches (t d : jsstring) :
  drifted accepted_variant t d -> matches (pattern_of t) d.
Proof.
  induction 1 as [c d Hv | c d ws t u Hv Hws Hd IH].
  - cbn. apply m_one; [exact Hv | constructor].
  - destruct (drifted_nonempty _ _ _ Hd) as [Ht _].
    destruct t as [|c' t]; [congruence|].
    change (pattern_of (c :: c' :: t))
      with (One (atom_of c) :: Star ASpace :: pattern_of (c' :: t)).
    apply m_one; [exact Hv|]. now apply matches_star_ws.
Qed.

(** *** The global replacement *)

Definition dollar_free (s : jsstring) : bool :=
  forallb (fun c => negb (c =? c_dollar)) s.

Lemma GetSubstitution_dollar_free (repl matched before after : jsstring) :
  dollar_free repl = true ->
  GetSubstitution repl matched before after = repl.
Proof.
  induction repl as [|c r IH]; intros H; [reflexivity|].
  cbn [dollar_free forallb] in H. apply andb_true_iff in H as [Hc Hr].
  cbn [GetSubstitution]. apply negb_true_iff in Hc. rewrite Hc.
  f_equal. now apply IH.
Qed.

Lemma includes_prefix (needle rest : jsstring) : includes needle (needle ++ rest).
Proof. exists [], rest. reflexivity. Qed.

Lemma includes_cons (needle s : jsstring) (c : N) :
  includes needle s -> includes needle (c :: s).
Proof. intros (x & y & ->). exists (c :: x), y. reflexivity. Qed.

Lemma includes_app_l (needle s x : jsstring) :
  includes needle s -> includes needle (x ++ s).
Proof. intros (a & b & ->). exists (x ++ a), b. now rewrite <- app_assoc. Qed.

(** Wherever the pattern matches somewhere in the string, the result of
    the replacement holds the substitution made for some match. *)
Lemma replace_scan_substitutes (ts : list term) (repl : jsstring) :
  forall a before b n,
    exec ts b = Some n ->
    exists matched pre post,
      matches ts matched
      /\ includes (GetSubstitution repl matched pre post)
           (replace_scan ts repl before (a ++ b) 0).
Proof.
  intros a. induction a as [|c a IH]; intros before b n Hb.
  - cbn [app]. exists (take n b), (rev before), (drop n b).
    split; [eapply exec_sound, Hb|].
    destruct b as [|c b]; cbn [replace_scan]; rewrite Hb; apply includes_prefix.
  - cbn [app replace_scan].
    destruct (exec ts (c :: a ++ b)) as [k|] eqn:Ek.
    + exists (take k (c :: a ++ b)), (rev before), (drop k (c :: a ++ b)).
      split; [eapply exec_sound, Ek | apply includes_prefix].
    + destruct (IH (c :: before) b n Hb) as (m & pre & post & Hm & Hi).
      exists m, pre, post. split; [exact Hm | now apply includes_cons].
Qed.

(** *** Escaping leaves a drifted token alone *)

Definition html_special (c : N) : bool :=
  existsb (N.eqb c) [c_amp; c_lt; c_gt; c_quot; c_apos].

Definition html_safe (s : jsstring) : bool :=
  forallb (fun c => negb (html_special c)) s.

Lemma replace_char_app (c : N) (by_ a b : jsstring) :
  replace_char c by_ (a ++ b) = replace_char c by_ a ++ replace_char c by_ b.
Proof. unfold replace_char. apply flat_map_app. Qed.

Lemma replace_char_absent (c : N) (by_ s : jsstring) :
  forallb (fun x => negb (x =? c)) s = true -> replace_char c by_ s = s.
Proof.
  induction s as [|x s IH]; intros H; [reflexivity|].
  cbn [forallb] in H. apply andb_true_iff in H as [Hx Hs].
  unfold replace_char in *. cbn [flat_map]. apply negb_true_iff in Hx.
  rewrite Hx, IH by assumption. reflexivity.
Qed.

Lemma escapeHtml_app (a b : jsstring) :
  escapeHtml (a ++ b) = escapeHtml a ++ escapeHtml b.
Proof. unfold escapeHtml. now rewrite !replace_char_app. Qed.

Lemma html_safe_absent (s : jsstring) (k : N) :
  html_special k = true -> html_safe s = true ->
  forallb (fun x => negb (x =? k)) s = true.
Proof.
  intros Hk. induction s as [|x s IH]; intros H; [reflexivity|].
  cbn [html_safe forallb] in *. apply andb_true_iff in H as [Hx Hs].
  rewrite IH by assumption. rewrite andb_true_r.
  destruct (N.eqb_spec x k); [subst; now rewrite Hk in Hx | reflexivity].
Qed.

Lemma escapeHtml_safe (s : jsstring) : html_safe s = true -> escapeHtml s = s.
Proof.
  intros H. unfold escapeHtml.
  rewrite (replace_char_absent c_amp) by (apply html_safe_absent; [reflexivity | assumption]).
  rewrite (replace_char_absent c_lt) by (apply html_safe_absent; [reflexivity | assumption]).
  rewrite (replace_char_absent c_gt) by (apply html_safe_absent; [reflexivity | assumption]).
  rewrite (replace_char_absent c_quot) by (apply html_safe_absent; [reflexivity | assumption]).
  rewrite (replace_char_absent c_apos) by (apply html_safe_absent; [reflexivity | assumption]).
  reflexivity.
Qed.

Lemma ws_not_special (x : N) : is_ws x = true -> html_special x = false.
Proof.
  intros H. destruct (html_special x) eqn:E; [|reflexivity].
  unfold html_special, existsb, c_amp, c_lt, c_gt, c_quot, c_apos in E.
  repeat (apply orb_true_iff in E as [E|E]);
    try discriminate; apply N.eqb_eq in E; subst x; discriminate.
Qed.

Lemma canonicalize_token_char (c x : N) :
  is_token_char c = true -> c <> c_underscore ->
  canonicalize c = canonicalize x -> x = c \/ x = c + 32.
Proof.
  unfold is_token_char, c_underscore, canonicalize. intros H Hc.
  assert (Hr : (65 <= c <= 90) \/ (48 <= c <= 57)).
  { apply orb_true_iff in H as [H|H].
    - apply orb_true_iff in H as [H|H].
      + apply N.eqb_eq in H. congruence.
      + apply andb_true_iff in H as [H1 H2]. apply N.leb_le in H1, H2. lia.
    - apply andb_true_iff in H as [H1 H2]. apply N.leb_le in H1, H2. lia. }
  destruct ((97 <=? c) && (c <=? 122)) eqn:Ec.
  { apply andb_true_iff in Ec as [E1 E2]. apply N.leb_le in E1, E2. lia. }
  destruct ((97 <=? x) && (x <=? 122)) eqn:Ex.
  - apply andb_true_iff in Ex as [E1 E2]. apply N.leb_le in E1, E2. lia.
  - intros ->. now left.
Qed.

Lemma accepted_not_special (c x : N) :
  is_token_char c = true -> accepted_variant c x -> html_special x = false.
Proof.
  intros Hc. unfold accepted_variant.
  destruct (N.eqb_spec c c_underscore) as [->|Hne].
  - rewrite atom_match_underscore. intros H.
    destruct (is_ws x) eqn:Ews; [now apply ws_not_special|].
    cbn [orb] in H. repeat (apply orb_true_iff in H as [H|H]);
      apply N.eqb_eq in H; subst x; reflexivity.
  - unfold atom_of. rewrite (proj2 (N.eqb_neq _ _) Hne). cbn [atom_match].
    intros H. apply N.eqb_eq in H.
    destruct (canonicalize_token_char c x Hc Hne H) as [-> | ->].
    + clear H. destruct (html_special c) eqn:E; [|reflexivity].
      unfold html_special, existsb, c_amp, c_lt, c_gt, c_quot, c_apos in E.
      repeat (apply orb_true_iff in E as [E|E]);
        try discriminate; apply N.eqb_eq in E; subst c; discriminate.
    + clear H. unfold is_token_char, c_underscore in Hc.
      destruct (html_special (c + 32)) eqn:E; [|reflexivity].
      unfold html_special, existsb, c_amp, c_lt, c_gt, c_quot, c_apos in E.
      repeat (apply orb_true_iff in E as [E|E]); try discriminate;
        apply N.eqb_eq in E;
        assert (c < 32) by lia;
        repeat (apply orb_true_iff in Hc as [Hc|Hc]);
        try (apply N.eqb_eq in Hc; lia);
        apply andb_true_iff in Hc as [H1 H2]; apply N.leb_le in H1, H2; lia.
Qed.

Lemma html_safe_app (a b : jsstring) :
  html_safe (a ++ b) = html_safe a && html_safe b.
Proof. unfold html_safe. apply forallb_app. Qed.

Lemma ws_html_safe (ws : jsstring) : forallb is_ws ws = true -> html_safe ws = true.
Proof.
  induction ws as [|x ws IH]; intros H; [reflexivity|].
  cbn [forallb html_safe] in *. apply andb_true_iff in H as [Hx Hs].
  rewrite (ws_not_special _ Hx). cbn. now apply IH.
Qed.

Lemma drifted_html_safe (t d : jsstring) :
  forallb is_token_char t = true ->
  drifted accepted_variant t d -> html_safe d = true.
Proof.
  intros Ht Hd. induction Hd as [c d Hv | c d ws t u Hv Hws Hd IH];
    cbn [forallb] in Ht; apply andb_true_iff in Ht as [Hc Ht].
  - cbn [html_safe forallb]. now rewrite (accepted_not_special c d Hc Hv).
  - cbn [html_safe forallb]. rewrite (accepted_not_special c d Hc Hv).
    cbn [negb andb]. change (html_safe (ws ++ u) = true).
    rewrite html_safe_app, ws_html_safe, IH by assumption. reflexivity.
Qed.

Lemma dollar_free_wrapper (markup : jsstring) :
  dollar_free markup = true -> dollar_free (wrapper markup) = true.
Proof.
  intros H. unfold wrapper, dollar_free. rewrite !forallb_app.
  fold (dollar_free markup). rewrite H.
  change (forallb (fun c => negb (c =? c_dollar)) wrapper_open) with true.
  reflexivity.
Qed.

(** With a single entry, [restorePlaceholders] escapes and replaces once. *)
Lemma restorePlaceholders_single (text t markup : jsstring) :
  text <> [] -> forallb is_token_char t = true ->
  restorePlaceholders text [(t, markup)]
  = Some (replace_all (pattern_of t) (wrapper markup) (escapeHtml text)).
Proof.
  intros Hne Ht. unfold restorePlaceholders.
  destruct text; [congruence|]. cbn [nonempty negb restore_entries].
  now rewrite parse_pattern_source.
Qed.

(** Any accepted drifted form of the token, anywhere in the translated
    text, is replaced: the output holds the substitution made for a match
    of the token's pattern, which is the wrapped original markup when the
    markup holds no dollar sign. *)
Lemma restore_replaces_drifted (t markup d before after : jsstring) :
  forallb is_token_char t = true ->
  drifted accepted_variant t d ->
  exists out matched pre post,
    restorePlaceholders (before ++ d ++ after) [(t, markup)] = Some out
    /\ matches (pattern_of t) matched
    /\ includes (GetSubstitution (wrapper markup) matched pre post) out
    /\ (dollar_free markup = true -> includes (wrapper markup) out).
Proof.
  intros Ht Hd.
  destruct (drifted_nonempty _ _ _ Hd) as [_ Hdne].
  rewrite restorePlaceholders_single; [| | assumption].
  2:{ destruct before; [destruct d; [congruence | discriminate] | discriminate]. }
  rewrite !escapeHtml_app, (escapeHtml_safe d) by (eapply drifted_html_safe; eauto).
  destruct (exec_complete _ _ (drifted_matches _ _ Hd) (escapeHtml after)) as [n Hn].
  destruct (replace_scan_substitutes (pattern_of t) (wrapper markup)
              (escapeHtml before) [] _ n Hn) as (m & pre & post & Hm & Hi).
  exists (replace_all (pattern_of t) (wrapper markup)
            (escapeHtml before ++ d ++ escapeHtml after)), m, pre, post.
  split; [reflexivity|]. split; [exact Hm|]. split; [exact Hi|].
  intros Hdf. rewrite GetSubstitution_dollar_free in Hi; [exact Hi|].
  now apply dollar_free_wrapper.
Qed.

Lemma includes_wrapper (markup out : jsstring) :
  includes (wrapper markup) out -> includes markup out.
Proof.
  intros (a & b & ->). unfold wrapper.
  exists (a ++ wrapper_open), (wrapper_close ++ b).
  now rewrite <- !app_assoc.
Qed.

(** *** Executable containment *)

Lemma starts_with_spec (p s : jsstring) :
  starts_with p s = true <-> exists rest, s = p ++ rest.
Proof.
  revert s. induction p as [|a p IH]; intros s; cbn.
  - split; [eauto | reflexivity].
  - destruct s as [|b s].
    + split; [discriminate | intros [r Hr]; discriminate].
    + rewrite andb_true_iff, IH, N.eqb_eq. split.
      * intros [-> [r ->]]. eauto.
      * intros [r Hr]. injection Hr as -> ->. eauto.
Qed.

Lemma includesb_spec (needle haystack : jsstring) :
  includesb needle haystack = true <-> includes needle haystack.
Proof.
  induction haystack as [|c h IH]; cbn [includesb].
  - rewrite orb_false_r, starts_with_spec. split.
    + intros [r Hr]. exists [], r. exact Hr.
    + intros (a & b & H). destruct a; [eauto|discriminate].
  - rewrite orb_true_iff, starts_with_spec, IH. split.
    + intros [[r Hr] | (a & b & ->)].
      * exists [], r. exact Hr.
      * exists (c :: a), b. reflexivity.
    + intros (a & b & H). destruct a as [|x a].
      * left. eauto.
      * right. injection H as -> ->. exists a, b. reflexivity.
Qed.

(** *** The tokens of [getTranslatableText] *)

Lemma uint_digits_token_chars (u : Decimal.uint) :
  forallb is_token_char (uint_digits u) = true.
Proof. induction u; cbn [uint_digits forallb]; try rewrite IHu; reflexivity. Qed.

Lemma token_chars (kind : jsstring) (n : nat) :
  forallb is_token_char kind = true ->
  forallb is_token_char (token kind n) = true.
Proof.
  intros H. unfold token, decimal.
  rewrite !forallb_app, H, uint_digits_token_chars. reflexivity.
Qed.

Lemma drifted_same_length (v : N -> N -> Prop) (t d : jsstring) :
  t <> [] -> Forall2 v t d -> drifted v t d.
Proof.
  intros Hne H. induction H as [|c x t d Hv H IH]; [congruence|].
  destruct H as [|c' x' t d Hv' H].
  - now apply drifted_last.
  - apply (drifted_cons v c x []); [assumption | reflexivity |].
    apply IH. discriminate.
Qed.

(** The round trip, for markup without a dollar sign: a token drifted
    within the tolerances the source names is replaced by the original
    markup. *)
Lemma restore_roundtrip_dollar_free (t markup d before after : jsstring) :
  forallb is_token_char t = true ->
  drifted documented_variant t d ->
  dollar_free markup = true ->
  exists out,
    restorePlaceholders (before ++ d ++ after) [(t, markup)] = Some out
    /\ includes markup out.
Proof.
  intros Ht Hd Hm.
  destruct (restore_replaces_drifted t markup d before after Ht)
    as (out & m & pre & post & Ho & _ & _ & Hi);
    [eapply drifted_mono; [apply documented_accepted | exact Hd] |].
  exists out. split; [exact Ho | now apply includes_wrapper, Hi].
Qed.

(** *** The scan, match by match *)

(** Skipping the code units of a match leads to the scan of what follows. *)
Lemma replace_scan_skip (ts : list term) (repl : jsstring) :
  forall (k : nat) (s before : jsstring),
    (k <= length s)%nat ->
    replace_scan ts repl before s k
    = replace_scan ts repl (rev (take k s) ++ before) (drop k s) 0.
Proof.
  induction k as [|k IH]; intros s before Hk.
  - now rewrite take_0, drop_0.
  - destruct s as [|c s]; [cbn in Hk; lia|].
    cbn [replace_scan]. rewrite IH by (cbn in Hk; lia).
    cbn [take drop rev]. now rewrite <- app_assoc.
Qed.

(** Where the pattern matches at the start of [u], the scan of [a ++ u]
    replaces a match that holds the first code unit of [u]: the match
    begins at [u] or in [a], [a2] being the part of [a] it takes in. *)
Lemma replace_scan_covers (ts : list term) (repl u : jsstring) (n : nat) :
  exec ts u = Some n -> (0 < n)%nat ->
  forall (a before : jsstring) (skip : nat),
    (skip <= length a)%nat ->
    exists (a1 a2 : jsstring) (k : nat) (P : jsstring),
      a = a1 ++ a2
      /\ exec ts (a2 ++ u) = Some k
      /\ (length a2 < k)%nat
      /\ replace_scan ts repl before (a ++ u) skip
         = P ++ GetSubstitution repl (take k (a2 ++ u)) (rev before ++ a1)
                  (drop k (a2 ++ u))
             ++ replace_scan ts repl (rev (a1 ++ take k (a2 ++ u)) ++ before)
                  (drop k (a2 ++ u)) 0.
Proof.
  intros Hu Hn a. induction a as [|c a IH]; intros before skip Hs.
  - cbn in Hs. assert (skip = 0%nat) as -> by lia.
    exists [], [], n, []. cbn [app].
    split; [reflexivity|]. split; [exact Hu|]. split; [cbn; lia|].
    destruct (exec_sound _ _ _ Hu) as [Hl _].
    destruct u as [|c u]; [cbn in Hl; lia|]. destruct n as [|n']; [lia|].
    cbn [replace_scan]. rewrite Hu, app_nil_r. f_equal.
    rewrite replace_scan_skip by (cbn in Hl; lia).
    cbn [take drop rev]. now rewrite <- app_assoc.
  - destruct skip as [|j].
    + cbn [app replace_scan].
      destruct (exec ts (c :: a ++ u)) as [k|] eqn:Ek.
      * destruct (le_lt_dec k (length (c :: a))) as [Hle|Hgt].
        -- set (sub := GetSubstitution repl (take k (c :: a ++ u)) (rev before)
                         (drop k (c :: a ++ u))).
           assert (Hj : exists j, (j <= length a)%nat
                     /\ match k with
                        | O => c :: replace_scan ts repl (c :: before) (a ++ u) 0
                        | S k' => replace_scan ts repl (c :: before) (a ++ u) k'
                        end
                        = (match k with O => [c] | S _ => [] end)
                          ++ replace_scan ts repl (c :: before) (a ++ u) j).
           { destruct k as [|k']; [exists 0%nat | exists k'];
               (split; [cbn in Hle; lia | reflexivity]). }
           destruct Hj as (j & Hj & ->).
           destruct (IH (c :: before) j Hj)
             as (a1 & a2 & k0 & P & -> & Hk & Hlt & E).
           exists (c :: a1), a2, k0,
             (sub ++ (match k with O => [c] | S _ => [] end) ++ P).
           split; [reflexivity|]. split; [exact Hk|]. split; [exact Hlt|].
           rewrite E. cbn [rev app]. now rewrite <- !app_assoc.
        -- exists [], (c :: a), k, []. cbn [app].
           split; [reflexivity|]. split; [exact Ek|]. split; [exact Hgt|].
           destruct (exec_sound _ _ _ Ek) as [Hl _].
           destruct k as [|k']; [cbn in Hgt; lia|].
           rewrite app_nil_r. f_equal.
           rewrite replace_scan_skip by (cbn in Hl; lia).
           cbn [take drop rev]. now rewrite <- app_assoc.
      * destruct (IH (c :: before) 0%nat ltac:(lia))
          as (a1 & a2 & k0 & P & -> & Hk & Hlt & E).
        exists (c :: a1), a2, k0, (c :: P).
        split; [reflexivity|]. split; [exact Hk|]. split; [exact Hlt|].
        rewrite E. cbn [rev app]. now rewrite <- !app_assoc.
    + cbn [app replace_scan].
      destruct (IH (c :: before) j ltac:(cbn in Hs; lia))
        as (a1 & a2 & k0 & P & -> & Hk & Hlt & E).
      exists (c :: a1), a2, k0, P.
      split; [reflexivity|]. split; [exact Hk|]. split; [exact Hlt|].
      rewrite E. cbn [rev app]. now rewrite <- !app_assoc.
Qed.

(** A match of a token's pattern is not empty. *)
Lemma exec_pattern_pos (t s : jsstring) (n : nat) :
  t <> [] -> exec (pattern_of t) s = Some n -> (0 < n)%nat.
Proof.
  intros Ht H. destruct t as [|c t]; [congruence|].
  assert (E : exists ts, pattern_of (c :: t) = One (atom_of c) :: ts).
  { destruct t; eexists; reflexivity. }
  destruct E as [ts E]. rewrite E in H.
  destruct s as [|x s]; [discriminate|]. cbn [exec] in H.
  destruct (atom_match (atom_of c) x); [|discriminate].
  destruct (exec ts s); [|discriminate]. cbn in H. injection H as <-. lia.
Qed.

(** *** Drift that leaves no white space for a character *)

(** The wider drift without white space for an underscore: the characters
    of the token are then told apart from the white space between them. *)
Definition firm_variantb (c d : N) : bool :=
  permissive_variantb c d && negb (is_ws d).

Definition firm_variant (c d : N) : Prop := firm_variantb c d = true.

Lemma firm_permissive (c d : N) : firm_variant c d -> permissive_variant c d.
Proof.
  unfold firm_variant, firm_variantb. intros H.
  now apply andb_true_iff in H as [H _].
Qed.

Lemma firm_head (t d : jsstring) :
  drifted firm_variant t d -> exists x u, d = x :: u /\ is_ws x = false.
Proof.
  intros H. assert (Hv : exists c x u, d = x :: u /\ firm_variant c x).
  { destruct H as [c x Hv | c x ws t u Hv _ _]; eauto. }
  destruct Hv as (c & x & u & -> & Hv). exists x, u. split; [reflexivity|].
  unfold firm_variant, firm_variantb in Hv.
  apply andb_true_iff in Hv as [_ Hv]. now apply negb_true_iff in Hv.
Qed.

Lemma exec_star_ws (ts : list term) (ws : jsstring) (x : N) (u : jsstring) (n : nat) :
  forallb is_ws ws = true -> is_ws x = false ->
  exec ts (x :: u) = Some n ->
  exec (Star ASpace :: ts) (ws ++ x :: u) = Some (length ws + n)%nat.
Proof.
  intros Hws Hx Hn. induction ws as [|c ws IH]; cbn [app length Nat.add].
  - rewrite exec_star_cons. cbn [atom_match]. now rewrite Hx.
  - cbn [forallb] in Hws. apply andb_true_iff in Hws as [Hc Hws].
    rewrite exec_star_cons. cbn [atom_match]. now rewrite Hc, (IH Hws).
Qed.

Lemma exec_one_cons (a : atom) (ts : list term) (c : N) (s : jsstring) :
  exec (One a :: ts) (c :: s) = if atom_match a c then S <$> exec ts s else None.
Proof. reflexivity. Qed.

(** Such a form is matched exactly, whatever follows it. *)
Lemma exec_firm (t d : jsstring) :
  drifted firm_variant t d ->
  forall rest, exec (pattern_of t) (d ++ rest) = Some (length d).
Proof.
  induction 1 as [c d Hv | c d ws t u Hv Hws Hd IH]; intros rest.
  - cbn [pattern_of app exec length].
    now rewrite (permissive_accepted _ _ (firm_permissive _ _ Hv)).
  - destruct (drifted_nonempty _ _ _ Hd) as [Ht _].
    destruct t as [|c' t]; [congruence|].
    change (pattern_of (c :: c' :: t))
      with (One (atom_of c) :: Star ASpace :: pattern_of (c' :: t)).
    destruct (firm_head _ _ Hd) as (x & u' & -> & Hx).
    specialize (IH rest). cbn [app] in IH.
    change ((d :: ws ++ x :: u') ++ rest) with (d :: (ws ++ x :: u') ++ rest).
    rewrite <- app_assoc. cbn [app]. rewrite exec_one_cons.
    rewrite (permissive_accepted _ _ (firm_permissive _ _ Hv)).
    rewrite (exec_star_ws _ ws x (u' ++ rest) _ Hws Hx IH).
    cbn [length]. rewrite length_app. cbn [length]. reflexivity.
Qed.

(** *** The loop over the entries *)

(** The replacement string the source's template literal makes of an
    entry's markup. *)
Definition placeholder_span (markup : jsstring) : jsstring :=
  lit "<span class=" ++ [c_quot] ++ lit "immersive-translate-placeholder"
  ++ [c_quot] ++ lit ">" ++ markup ++ lit "</span>".

(** One turn of the loop: every match of the entry's pattern is replaced. *)
Definition replace_entry (html : jsstring) (entry : jsstring * jsstring)
  : jsstring :=
  replace_all (pattern_of (fst entry)) (placeholder_span (snd entry)) html.

Lemma wrapper_span (markup : jsstring) : wrapper markup = placeholder_span markup.
Proof. reflexivity. Qed.

Lemma restore_entries_fold (m : PlaceholderMap) :
  Forall (fun entry => forallb is_token_char (fst entry) = true) m ->
  forall html, restore_entries m html = Some (fold_left replace_entry m html).
Proof.
  induction 1 as [|[t markup] m Ht _ IH]; intros html; [reflexivity|].
  cbn [restore_entries fold_left]. cbn [fst] in Ht.
  rewrite parse_pattern_source by exact Ht. rewrite IH.
  unfold replace_entry at 2. cbn [fst snd]. now rewrite wrapper_span.
Qed.

Lemma restorePlaceholders_fold (text : jsstring) (m : PlaceholderMap) :
  text <> [] ->
  Forall (fun entry => forallb is_token_char (fst entry) = true) m ->
  restorePlaceholders text m = Some (fold_left replace_entry m (escapeHtml text)).
Proof.
  intros Hne Hm. unfold restorePlaceholders.
  destruct text; [congruence|]. cbn [nonempty negb].
  now apply restore_entries_fold.
Qed.

(** The turn of an entry whose token occurs, drifted, in the html. *)
Lemma replace_entry_drifted (t d markup a b : jsstring) :
  drifted accepted_variant t d ->
  exists (a1 a2 : jsstring) (k : nat) (P : jsstring),
    a = a1 ++ a2
    /\ exec (pattern_of t) (a2 ++ d ++ b) = Some k
    /\ (length a2 < k)%nat
    /\ replace_entry (a ++ d ++ b) (t, markup)
       = P ++ GetSubstitution (placeholder_span markup)
                (take k (a2 ++ d ++ b)) a1 (drop k (a2 ++ d ++ b))
           ++ replace_scan (pattern_of t) (placeholder_span markup)
                (rev (a1 ++ take k (a2 ++ d ++ b))) (drop k (a2 ++ d ++ b)) 0.
Proof.
  intros Hd. destruct (drifted_nonempty _ _ _ Hd) as [Ht _].
  destruct (exec_complete _ _ (drifted_matches _ _ Hd) b) as [n Hn].
  destruct (replace_scan_covers (pattern_of t) (placeholder_span markup)
              (d ++ b) n Hn (exec_pattern_pos _ _ _ Ht Hn) a [] 0%nat
              ltac:(lia))
    as (a1 & a2 & k & P & Ha & Hk & Hlt & E).
  exists a1, a2, k, P. split; [exact Ha|]. split; [exact Hk|].
  split; [exact Hlt|]. unfold replace_entry, replace_all. cbn [fst snd].
  rewrite E. cbn [rev app]. now rewrite app_nil_r.
Qed.

End PatternFacts.

(* ===================================================================== *)
(** ** The codec: escaping, restoring, round trip *)
(* ===================================================================== *)

Module CodecProofs.

Import Regex Dom Content PatternFacts.
Local Open Scope N_scope.

Definition quoted (s : jsstring) : jsstring := [c_quot] ++ s ++ [c_quot].

(** A paragraph with one display formula between dollar delimiters. *)
Definition energy_math : node :=
  Elem (lit "span") [(lit "class", lit "math")] [Text (lit "$$E$$")].

Definition energy_fragment : node :=
  Elem (lit "p") [] [Text (lit "Energy "); energy_math].

(** C1, at the failing input.  The paragraph [<p>Energy <span
    class="math">$$E$$</span></p>] has exactly one math node; extraction
    yields the text [Energy __MATH_0__] and the map from [__MATH_0__] to the
    node's outer markup.  Restoring the unchanged text does not give that
    markup back: [String.prototype.replace] reads each [$$] of the
    replacement string as one dollar sign, so the output holds
    [<span class="math">$E$</span>] and the original markup occurs nowhere
    in it. *)
Theorem roundtrip_loses_dollar_markup :
  getTranslatableText energy_fragment
    = (lit "Energy __MATH_0__", [(token MATH 0, outerHTML energy_math)])
  /\ outerHTML energy_math
     = lit "<span class=" ++ quoted (lit "math") ++ lit ">$$E$$</span>"
  /\ restorePlaceholders (lit "Energy __MATH_0__")
       [(token MATH 0, outerHTML energy_math)]
     = Some (lit "Energy "
             ++ wrapper (lit "<span class=" ++ quoted (lit "math")
                         ++ lit ">$E$</span>"))
  /\ ~ includes (outerHTML energy_math)
        (lit "Energy "
         ++ wrapper (lit "<span class=" ++ quoted (lit "math")
                     ++ lit ">$E$</span>")).
Proof.
  split; [vm_compute; reflexivity|].
  split; [vm_compute; reflexivity|].
  split; [vm_compute; reflexivity|].
  intros Hin. apply includesb_spec in Hin. vm_compute in Hin. discriminate.
Qed.

(** C4, counterexample: restoring the escaped form of [a&b] with the empty
    map escapes it a second time. *)
Lemma restore_escaped_twice :
  restorePlaceholders (escapeHtml (lit "a&b")) [] = Some (lit "a&amp;amp;b")
  /\ restorePlaceholders (escapeHtml (lit "a&b")) []
     <> Some (escapeHtml (lit "a&b")).
Proof. split; vm_compute; [reflexivity | discriminate]. Qed.

(** C4, amended: with the empty placeholder map, [restorePlaceholders]
    returns the HTML-escaped form of its argument; applied to an already
    escaped text it returns that text escaped once more. *)
Theorem restore_empty_map (text : jsstring) :
  restorePlaceholders text [] = Some (escapeHtml text)
  /\ restorePlaceholders (escapeHtml text) []
     = Some (escapeHtml (escapeHtml text)).
Proof.
  assert (H : forall s, restorePlaceholders s [] = Some (escapeHtml s)).
  { intros [|c s]; reflexivity. }
  split; apply H.
Qed.

(** Where the text holds none of the five special characters, escaping
    changes nothing, and so does restoring with the empty map. *)
Lemma restore_empty_map_safe (text : jsstring) :
  html_safe text = true -> restorePlaceholders (escapeHtml text) [] = Some text.
Proof.
  intros H. rewrite (escapeHtml_safe text H).
  destruct text; [reflexivity|]. unfold restorePlaceholders.
  cbn [nonempty negb restore_entries]. now rewrite escapeHtml_safe.
Qed.

(** C10, counterexample: with the entries [__MATH_0__] and [__MATH_1__] and
    the text [__MATH_0_  _MATH_1__], where the last underscore of the first
    token and the first underscore of the second have become spaces, the
    match for the first entry takes the two spaces and the underscore that
    follows them.  What is left of the second token matches nothing at its
    entry's turn, and the second markup appears nowhere in the output. *)
Lemma adjacent_drift_loses_second_entry :
  let m := [(token MATH 0, lit "<i>a</i>"); (token MATH 1, lit "<b>b</b>")] in
  let d0 := lit "__MATH_0_ " in
  let d1 := lit " _MATH_1__" in
  drifted permissive_variant (token MATH 0) d0
  /\ drifted permissive_variant (token MATH 1) d1
  /\ restorePlaceholders (d0 ++ d1) m
     = Some (placeholder_span (lit "<i>a</i>") ++ lit "MATH_1__")
  /\ ~ includes (lit "<b>b</b>")
         (placeholder_span (lit "<i>a</i>") ++ lit "MATH_1__").
Proof.
  cbv zeta.
  split.
  { apply drifted_same_length; [discriminate|].
    let t := eval vm_compute in (token MATH 0) in change (token MATH 0) with t.
    repeat first [apply List.Forall2_nil | apply List.Forall2_cons; [exact eq_refl|]]. }
  split.
  { apply drifted_same_length; [discriminate|].
    let t := eval vm_compute in (token MATH 1) in change (token MATH 1) with t.
    repeat first [apply List.Forall2_nil | apply List.Forall2_cons; [exact eq_refl|]]. }
  split; [vm_compute; reflexivity|].
  intros Hin. apply includesb_spec in Hin. vm_compute in Hin. discriminate.
Qed.

(** C10, amended: the pattern compiled for a token accepts more than the
    drift the source comment names, one map entry at a time.  For a token
    [t] of underscores, upper-case letters and digits, the source split per
    code unit and joined with [\s*] parses to [pattern_of t], whose class
    for an underscore matches white space, [*], [_] and [＿], and which is
    matched without regard to case.  For a non-empty text and a map with
    such keys, [restorePlaceholders] escapes the text and handles the
    entries in map order, each on the html the earlier entries left,
    replacing every match the scan for the entry's pattern finds by
    [<span class="immersive-translate-placeholder">], the entry's markup and
    [</span>], read as a replacement string.  Take any form [d] of [t] in
    which an underscore may have become a full-width underscore, a star or
    a white space character, an upper-case letter may have become lower
    case, and white space may stand between characters.  When the turn of
    an entry with token [t] comes and the html then reads [a ++ d ++ b], the
    scan replaces a match that holds the first character of [d]: the match
    begins at [d] or before it ([a2] is the part of [a] it takes in), the
    scan goes on behind it, and the remaining entries work on the result;
    when the match begins at [d] and no underscore of [d] has become white
    space, the match is [d] itself.  With this one entry and markup without
    a dollar sign, the output for a text that holds [d] anywhere holds the
    wrapped original markup. *)
Theorem restore_accepts_permissive_drift (t d : jsstring) :
  forallb is_token_char t = true ->
  drifted permissive_variant t d ->
  parse (pattern_source t) = Some (pattern_of t)
  /\ (forall c, atom_match (atom_of c_underscore) c
                = is_ws c || (c =? c_star) || (c =? c_underscore)
                  || (c =? c_fullwidth_underscore))
  /\ (forall (text : jsstring) (m : PlaceholderMap),
        text <> [] ->
        Forall (fun entry => forallb is_token_char (fst entry) = true) m ->
        restorePlaceholders text m
        = Some (fold_left replace_entry m (escapeHtml text)))
  /\ (forall (text : jsstring) (m1 m2 : PlaceholderMap) (markup a b : jsstring),
        text <> [] ->
        Forall (fun entry => forallb is_token_char (fst entry) = true)
          (m1 ++ (t, markup) :: m2) ->
        fold_left replace_entry m1 (escapeHtml text) = a ++ d ++ b ->
        exists (a1 a2 : jsstring) (k : nat) (P : jsstring),
          a = a1 ++ a2
          /\ exec (pattern_of t) (a2 ++ d ++ b) = Some k
          /\ (length a2 < k)%nat
          /\ (drifted firm_variant t d -> a2 = [] -> k = length d)
          /\ restorePlaceholders text (m1 ++ (t, markup) :: m2)
             = Some (fold_left replace_entry m2
                 (P ++ GetSubstitution (placeholder_span markup)
                         (take k (a2 ++ d ++ b)) a1 (drop k (a2 ++ d ++ b))
                    ++ replace_scan (pattern_of t) (placeholder_span markup)
                         (rev (a1 ++ take k (a2 ++ d ++ b)))
                         (drop k (a2 ++ d ++ b)) 0)))
  /\ (forall markup before after : jsstring,
        dollar_free markup = true ->
        exists out,
          restorePlaceholders (before ++ d ++ after) [(t, markup)] = Some out
          /\ includes (placeholder_span markup) out).
Proof.
  intros Ht Hd.
  assert (Ha : drifted accepted_variant t d)
    by (eapply drifted_mono; [apply permissive_accepted | exact Hd]).
  split; [now apply parse_pattern_source|].
  split; [apply atom_match_underscore|].
  split; [apply restorePlaceholders_fold|].
  split.
  - intros text m1 m2 markup a b Hne Hm Hhtml.
    destruct (replace_entry_drifted t d markup a b Ha)
      as (a1 & a2 & k & P & Ea & Hk & Hlt & E).
    exists a1, a2, k, P. split; [exact Ea|]. split; [exact Hk|].
    split; [exact Hlt|]. split.
    + intros Hf ->. cbn [app] in Hk. rewrite (exec_firm _ _ Hf) in Hk.
      now injection Hk as <-.
    + rewrite restorePlaceholders_fold by assumption.
      rewrite fold_left_app. cbn [fold_left]. now rewrite Hhtml, E.
  - intros markup before after Hdf.
    destruct (restore_replaces_drifted t markup d before after Ht Ha)
      as (out & _ & _ & _ & Ho & _ & _ & Hi).
    exists out. split; [exact Ho|]. rewrite <- wrapper_span. now apply Hi.
Qed.

(** The drifted form [* math*0＿ ] of [__MATH_0__]: stars and spaces for
    underscores, lower-case letters. *)
Definition drifted_example : jsstring :=
  lit "* math*0" ++ [c_fullwidth_underscore; c_space].

Lemma drifted_example_permissive :
  drifted permissive_variant (token MATH 0) drifted_example.
Proof.
  apply drifted_same_length; [discriminate|].
  let t := eval vm_compute in (token MATH 0) in change (token MATH 0) with t.
  let d := eval vm_compute in drifted_example in change drifted_example with d.
  repeat first [apply List.Forall2_nil | apply List.Forall2_cons; [exact eq_refl|]].
Defined.

Lemma restore_accepts_permissive_drift_witness :
  forallb is_token_char (token MATH 0) = true
  /\ drifted permissive_variant (token MATH 0) drifted_example
  /\ forall (text : jsstring) (m : PlaceholderMap),
       text <> [] ->
       Forall (fun entry => forallb is_token_char (fst entry) = true) m ->
       restorePlaceholders text m
       = Some (fold_left replace_entry m (escapeHtml text)).
Proof.
  split; [reflexivity|].
  split; [exact drifted_example_permissive|].
  apply (restore_accepts_permissive_drift (token MATH 0) drifted_example);
    [reflexivity | exact drifted_example_permissive].
Defined.

(** Two entries, each token drifted and apart from the other: both markups
    are put back. *)
Example two_entries_restored :
  restorePlaceholders (lit "see *_math_0_* and __Math_1__ .")
    [(token MATH 0, lit "<i>a</i>"); (token MATH 1, lit "<b>b</b>")]
  = Some (lit "see " ++ placeholder_span (lit "<i>a</i>") ++ lit " and "
          ++ placeholder_span (lit "<b>b</b>") ++ lit " .").
Proof. vm_compute. reflexivity. Qed.

(** What the restoring makes of the example.  The match starts at the
    space before the drifted form and ends at the space after it: the class
    for an underscore takes white space too. *)
Example drifted_example_restored :
  restorePlaceholders (lit "a < b " ++ drifted_example ++ lit " c")
    [(token MATH 0, lit "<i>x</i>")]
  = Some (lit "a &lt; b" ++ wrapper (lit "<i>x</i>") ++ lit "c").
Proof. vm_compute. reflexivity. Qed.

(** The example is outside the documented tolerances. *)
Lemma drifted_example_not_documented :
  ~ drifted documented_variant (token MATH 0) drifted_example.
Proof.
  intros H. inversion H as [|c d ws t u Hv]; subst. discriminate Hv.
Qed.

End CodecProofs.

(* ===================================================================== *)
(** ** The translation client: retries, failure, cache *)
(* ===================================================================== *)

Module ClientProofs.

Import Background.

(** The world after [n] more fetches and the events [evs]. *)
Definition after (w : world) (n : nat) (evs : list event) : world :=
  mkWorld (storage w) (n + fetches w) (timeline w ++ evs).

Lemma after_zero (w : world) : after w 0 [] = w.
Proof. destruct w. unfold after. cbn. now rewrite app_nil_r. Qed.

Lemma after_after (w : world) (n m : nat) (e1 e2 : list event) :
  after (after w n e1) m e2 = after w (m + n) (e1 ++ e2).
Proof.
  unfold after. cbn. f_equal; [lia | now rewrite app_assoc].
Qed.

Lemma attempt_after backend texts sl tl w :
  attempt backend texts sl tl w
  = (outcome_result texts (backend (fetches w) (mkRequest sl tl texts)),
     after w 1 [EvFetch (mkRequest sl tl texts)]).
Proof. reflexivity. Qed.

Lemma delay_after ms w : delay ms w = (Ok tt, after w 0 [EvDelay ms]).
Proof. reflexivity. Qed.

(** C6, counterexample: against a backend that always answers 503, one
    chunk costs three fetches and two waits, of 500 and 1000 ms; the error
    is raised right after the third failure and no wait of 2000 ms ever
    happens. *)
Lemma no_wait_after_last_attempt :
  let backend := fun (_ : nat) (_ : request) => FetchResponse 503 (lit "Service Unavailable") None in
  let req := mkRequest (lit "en") (lit "ja") [lit "hello"] in
  let r := translateBatch backend [lit "hello"] (lit "en") (lit "ja")
             (mkWorld ∅ 0 []) in
  fst r = Throw (HttpError 503 (lit "Service Unavailable"))
  /\ timeline (snd r)
     = [EvFetch req; EvDelay 500; EvFetch req; EvDelay 1000; EvFetch req]
  /\ ~ In (EvDelay 2000) (timeline (snd r)).
Proof.
  split; [reflexivity|]. split; [reflexivity|].
  cbn. intros [H|[H|[H|[H|[H|[]]]]]]; discriminate.
Qed.

(** The three attempts of [translateBatch], spelled out. *)
Lemma translateBatch_cases backend (texts : list jsstring) sl tl (w : world) :
  let req := mkRequest sl tl texts in
  let r n := outcome_result texts (backend (n + fetches w) req) in
  translateBatch backend texts sl tl w
  = match r 0 with
    | Ok l => (Ok (Arr l), after w 1 [EvFetch req])
    | Throw _ =>
        match r 1 with
        | Ok l => (Ok (Arr l), after w 2 [EvFetch req; EvDelay 500; EvFetch req])
        | Throw _ =>
            match r 2 with
            | Ok l =>
                (Ok (Arr l),
                 after w 3 [EvFetch req; EvDelay 500; EvFetch req;
                            EvDelay 1000; EvFetch req])
            | Throw e =>
                (Throw e,
                 after w 3 [EvFetch req; EvDelay 500; EvFetch req;
                            EvDelay 1000; EvFetch req])
            end
        end
    end.
Proof.
  intros req r. subst r. cbn beta.
  change (0 + fetches w) with (fetches w).
  change (1 + fetches w) with (S (fetches w)).
  change (2 + fetches w) with (S (S (fetches w))).
  unfold translateBatch, maxRetries, retry, bind, delay, attempt, fetch, ret, after.
  cbn [Nat.sub Nat.ltb Nat.leb Nat.add fetches timeline storage].
  fold req.
  destruct (outcome_result texts (backend (fetches w) req)) as [l|e0];
    [reflexivity|].
  destruct (outcome_result texts (backend (S (fetches w)) req)) as [l|e1];
    [now rewrite <- !app_assoc|].
  destruct (outcome_result texts (backend (S (S (fetches w))) req)) as [l|e2];
    now rewrite <- !app_assoc.
Qed.

(** C6, amended: for each chunk (at most 10 texts) [translateBatch] makes
    up to three attempts.  It returns at the first attempt that succeeds;
    after the first failed attempt it waits 500 ms, after the second
    1000 ms, and after the third it raises that attempt's error at once,
    without a further wait. *)
Theorem translateBatch_retries backend (texts : list jsstring) sl tl (w : world) i :
  let chunk := slice i (i + batchSize) texts in
  let req := mkRequest sl tl chunk in
  let r n := outcome_result chunk (backend (n + fetches w) req) in
  length chunk <= 10
  /\ translateBatch backend chunk sl tl w
     = match r 0 with
       | Ok l => (Ok (Arr l), after w 1 [EvFetch req])
       | Throw _ =>
           match r 1 with
           | Ok l => (Ok (Arr l), after w 2 [EvFetch req; EvDelay 500; EvFetch req])
           | Throw _ =>
               match r 2 with
               | Ok l =>
                   (Ok (Arr l),
                    after w 3 [EvFetch req; EvDelay 500; EvFetch req;
                               EvDelay 1000; EvFetch req])
               | Throw e =>
                   (Throw e,
                    after w 3 [EvFetch req; EvDelay 500; EvFetch req;
                               EvDelay 1000; EvFetch req])
               end
           end
       end.
Proof.
  intros chunk req r. split.
  - unfold chunk, slice, batchSize. rewrite length_take. lia.
  - apply translateBatch_cases.
Qed.

(** *** Failure of the fetch *)

Lemma translateBatch_storage backend texts sl tl w :
  storage (snd (translateBatch backend texts sl tl w)) = storage w.
Proof.
  rewrite translateBatch_cases. cbn zeta.
  repeat match goal with
         | |- context [match ?x with Ok _ => _ | Throw _ => _ end] => destruct x
         end; reflexivity.
Qed.

Lemma fetch_loop_storage backend fuel texts sl tl :
  forall i acc w,
    storage (snd (fetch_loop backend fuel texts sl tl i acc w)) = storage w.
Proof.
  induction fuel as [|fuel IH]; intros i acc w; [reflexivity|].
  cbn [fetch_loop]. destruct (i <? length texts); [|reflexivity].
  unfold bind at 1.
  pose proof (translateBatch_storage backend
                (slice i (i + batchSize) texts) sl tl w) as Hs.
  destruct (translateBatch backend (slice i (i + batchSize) texts) sl tl w)
    as [[v|e] w1]; cbn [snd] in Hs; [|exact Hs].
  unfold bind at 1.
  destruct (i + batchSize <? length texts).
  - rewrite delay_after. rewrite IH. exact Hs.
  - cbn [ret]. rewrite IH. exact Hs.
Qed.

Lemma bind_ext {A B} (m : M A) (k1 k2 : A -> M B) (w : world) :
  (forall a w', k1 a w' = k2 a w') -> bind m k1 w = bind m k2 w.
Proof. intros H. unfold bind. destruct (m w) as [[a|e] w']; [apply H | reflexivity]. Qed.

(** The fuel [fetchTranslationsFromApi] passes is enough: once the loop
    has fuel for the chunks that remain, more fuel changes nothing. *)
Lemma fetch_loop_enough_fuel backend (texts : list jsstring) sl tl fuel :
  forall i acc w,
    length texts <= i + batchSize * fuel ->
    fetch_loop backend (S fuel) texts sl tl i acc w
    = fetch_loop backend fuel texts sl tl i acc w.
Proof.
  induction fuel as [|fuel IH]; intros i acc w Hl.
  - cbn [fetch_loop]. destruct (Nat.ltb_spec i (length texts)); [lia | reflexivity].
  - change (fetch_loop backend (S (S fuel)) texts sl tl i acc w)
      with ((if i <? length texts then
               batchResults <- translateBatch backend
                                 (slice i (i + batchSize) texts) sl tl ;;
               let results' :=
                 match batchResults with
                 | Arr items => acc ++ items
                 | other => acc ++ [other]
                 end in
               _ <- (if i + batchSize <? length texts
                     then delay 200%N else ret tt) ;;
               fetch_loop backend (S fuel) texts sl tl (i + batchSize) results'
             else ret acc) w).
    cbn [fetch_loop]. destruct (i <? length texts); [|reflexivity].
    apply bind_ext. intros v w1. apply bind_ext. intros _ w2.
    apply IH. unfold batchSize in *. lia.
Qed.

Corollary fetchTranslationsFromApi_fuel backend (texts : list jsstring) sl tl w extra :
  fetch_loop backend (length texts + extra) texts sl tl 0 [] w
  = fetchTranslationsFromApi backend texts sl tl w.
Proof.
  unfold fetchTranslationsFromApi. induction extra as [|extra IH].
  - now rewrite Nat.add_0_r.
  - rewrite Nat.add_succ_r, fetch_loop_enough_fuel; [exact IH|].
    unfold batchSize. lia.
Qed.

(** The state of the cache check of [translateTexts] in world [w]. *)
Definition lookup_of getHash (texts : list jsstring) sl tl (w : world)
  : lookup_state :=
  check_cache getHash (default ∅ (storage w !! cacheKey sl tl)) texts 0
    (mkLookup (replicate (length texts) Null) [] []).

(** C5: when the fetch for the uncached texts fails, [translateTexts] fails
    with the same error, in the same world; no result list comes back, the
    entries found in the cache included, and the stored cache is as
    before. *)
Theorem translateTexts_fail_closed getHash backend (texts : list jsstring)
    sl tl (w w' : world) (e : error) :
  fetchTranslationsFromApi backend
    (uncachedTexts (lookup_of getHash texts sl tl w)) sl tl w = (Throw e, w') ->
  translateTexts getHash backend texts sl tl w = (Throw e, w')
  /\ storage w' = storage w.
Proof.
  intros H. split.
  - unfold translateTexts. fold (lookup_of getHash texts sl tl w).
    destruct (uncachedTexts (lookup_of getHash texts sl tl w)) as [|u us] eqn:E.
    + discriminate H.
    + unfold bind at 1. now rewrite H.
  - pose proof (fetch_loop_storage backend
                  (length (uncachedTexts (lookup_of getHash texts sl tl w)))
                  (uncachedTexts (lookup_of getHash texts sl tl w)) sl tl 0 [] w) as Hs.
    unfold fetchTranslationsFromApi in H. rewrite H in Hs. exact Hs.
Qed.

(** A cache that knows [A] but not [B], and a backend that is down. *)
Definition down : nat -> request -> fetch_outcome :=
  fun _ _ => FetchResponse 500 (lit "Internal Server Error") None.

Definition warm_world : world :=
  mkWorld {[ cacheKey (lit "en") (lit "ja") := {[ lit "A" := Str [12354%N] ]} ]} 0 [].

Lemma translateTexts_fail_closed_witness :
  let texts := [lit "A"; lit "B"] in
  let getHash := fun s : jsstring => s in
  let failed := fetchTranslationsFromApi down [lit "B"] (lit "en") (lit "ja") warm_world in
  uncachedTexts (lookup_of getHash texts (lit "en") (lit "ja") warm_world) = [lit "B"]
  /\ fst failed = Throw (HttpError 500 (lit "Internal Server Error"))
  /\ translateTexts getHash down texts (lit "en") (lit "ja") warm_world
     = (Throw (HttpError 500 (lit "Internal Server Error")), snd failed)
  /\ storage (snd failed) = storage warm_world.
Proof.
  intros texts getHash failed.
  split; [vm_compute; reflexivity|].
  split; [vm_compute; reflexivity|].
  apply (translateTexts_fail_closed getHash down texts (lit "en") (lit "ja")
           warm_world (snd failed) (HttpError 500 (lit "Internal Server Error"))).
  vm_compute. reflexivity.
Defined.

(** *** The cache *)

(** C3, counterexample: a backend that answers with the empty string.  The
    first call stores it under the text's hash; the second call finds the
    hash in the namespace, but the stored value is falsy, so it fetches
    again: two network calls for the same text. *)
Lemma empty_translation_fetched_twice :
  let getHash := fun s : jsstring => s in
  let backend := fun (_ : nat) (_ : request) =>
                   FetchResponse 200 (lit "OK") (Some (Arr [Str []])) in
  let w0 := mkWorld ∅ 0 [] in
  let r1 := translateTexts getHash backend [lit "hello"] (lit "en") (lit "ja") w0 in
  let r2 := translateTexts getHash backend [lit "hello"] (lit "en") (lit "ja") (snd r1) in
  fst r1 = Ok [Str []] /\ fst r2 = Ok [Str []]
  /\ (storage (snd r1) !! cacheKey (lit "en") (lit "ja"))
       ≫= (fun cache => cache !! getHash (lit "hello")) = Some (Str [])
  /\ fetches (snd r1) = 1 /\ fetches (snd r2) = 2.
Proof. vm_compute. repeat split. Qed.

Lemma fetch_single backend (text : jsstring) sl tl (w : world)
    status statusText data v :
  backend (fetches w) (mkRequest sl tl [text])
    = FetchResponse status statusText (Some data) ->
  response_ok status = true ->
  normalize [text] data = Ok [v] ->
  fetchTranslationsFromApi backend [text] sl tl w
  = (Ok [v], after w 1 [EvFetch (mkRequest sl tl [text])]).
Proof.
  intros Hb Hok Hn.
  unfold fetchTranslationsFromApi. cbn [length fetch_loop Nat.ltb Nat.leb].
  change (slice 0 (0 + batchSize) [text]) with [text].
  unfold bind at 1. rewrite translateBatch_cases. cbn zeta.
  cbn [Nat.add]. unfold outcome_result at 1. rewrite Hb, Hok, Hn.
  reflexivity.
Qed.

(** C3, amended: for a fixed language pair, take a text whose hash has no
    truthy entry in the cache namespace and a backend whose next answer is
    a success that normalizes to a truthy value [v] (a non-empty string).
    The first call of [translateTexts] on the text makes exactly one
    network call and returns [v]; the second call finds [v] under the
    text's hash, returns the same output and leaves the world as it is: no
    network call, so one in total. *)
Theorem translateTexts_second_call_cached getHash backend (text : jsstring)
    sl tl (w : world) status statusText data v :
  truthy (cache_get (default ∅ (storage w !! cacheKey sl tl)) (getHash text)) = false ->
  backend (fetches w) (mkRequest sl tl [text])
    = FetchResponse status statusText (Some data) ->
  response_ok status = true ->
  normalize [text] data = Ok [v] ->
  truthy v = true ->
  exists w1,
    translateTexts getHash backend [text] sl tl w = (Ok [v], w1)
    /\ fetches w1 = S (fetches w)
    /\ translateTexts getHash backend [text] sl tl w1 = (Ok [v], w1).
Proof.
  intros Hmiss Hb Hok Hn Hv.
  set (key := cacheKey sl tl) in *.
  set (cache := default ∅ (storage w !! key)) in *.
  set (w1 := mkWorld (<[key := <[getHash text := v]> ∅ ∪ cache]> (storage w))
                     (S (fetches w))
                     (timeline w ++ [EvFetch (mkRequest sl tl [text])])).
  exists w1. split; [|split; [reflexivity|]].
  - unfold translateTexts. fold key. fold cache.
    cbn [length replicate check_cache]. rewrite Hmiss.
    cbn [uncachedTexts uncachedIndices results app].
    unfold bind at 1. rewrite (fetch_single _ _ _ _ _ _ _ _ _ Hb Hok Hn).
    reflexivity.
  - unfold translateTexts. fold key.
    assert (Hc : default ∅ (storage w1 !! key) = <[getHash text := v]> ∅ ∪ cache).
    { unfold w1. cbn [storage]. now rewrite lookup_insert_eq. }
    rewrite Hc. cbn [length replicate check_cache].
    assert (Hg : cache_get (<[getHash text := v]> ∅ ∪ cache) (getHash text) = v).
    { unfold cache_get.
      rewrite (lookup_union_Some_l _ cache (getHash text) v); [reflexivity|].
      apply lookup_insert_eq. }
    rewrite Hg, Hv. reflexivity.
Qed.

Lemma translateTexts_second_call_cached_witness :
  let getHash := fun s : jsstring => s in
  let backend := fun (_ : nat) (_ : request) =>
                   FetchResponse 200 (lit "OK") (Some (Arr [Arr [Str [12371%N]]])) in
  let w0 := mkWorld ∅ 0 [] in
  exists w1,
    translateTexts getHash backend [lit "hello"] (lit "en") (lit "ja") w0
      = (Ok [Str [12371%N]], w1)
    /\ fetches w1 = S (fetches w0)
    /\ translateTexts getHash backend [lit "hello"] (lit "en") (lit "ja") w1
       = (Ok [Str [12371%N]], w1).
Proof.
  intros getHash backend w0.
  apply (translateTexts_second_call_cached getHash backend (lit "hello")
           (lit "en") (lit "ja") w0 200%N (lit "OK")
           (Arr [Arr [Str [12371%N]]]) (Str [12371%N]));
    reflexivity.
Defined.

(** *** The positional contract *)

(** One item of a response: the translated string itself (flat list) or a
    single-element list holding it. *)
Definition item_shape (translated : jsstring) (item : jsval) : Prop :=
  item = Str translated \/ item = Arr [Str translated].

(** A backend that keeps the contract: every request is answered with a
    success whose body lists, in either shape, one translated string per
    text; [answer n req] names those strings. *)
Definition follows_contract (backend : nat -> request -> fetch_outcome)
    (answer : nat -> request -> list jsstring) : Prop :=
  forall n req,
    length (answer n req) = length (r_q req)
    /\ exists status statusText items,
         backend n req = FetchResponse status statusText (Some (Arr items))
         /\ response_ok status = true
         /\ Forall2 item_shape (answer n req) items.

(** The texts of a list, ten at a time. *)
Fixpoint chunks_from (fuel : nat) (l : list jsstring) : list (list jsstring) :=
  match fuel with
  | O => []
  | S fuel' =>
      match l with
      | [] => []
      | _ => take batchSize l :: chunks_from fuel' (drop batchSize l)
      end
  end.

Definition chunks (l : list jsstring) : list (list jsstring) :=
  chunks_from (length l) l.

(** The backend's answers to the successive chunk requests, from its
    [n]-th call on, in the order received. *)
Fixpoint answers_from (answer : nat -> request -> list jsstring)
    (sl tl : jsstring) (n : nat) (cs : list (list jsstring)) : list jsstring :=
  match cs with
  | [] => []
  | c :: cs' => answer n (mkRequest sl tl c) ++ answers_from answer sl tl (S n) cs'
  end.

(** The positional contract, in the specification's words: walk the inputs
    in order; an input found in the cache takes its cached value, any other
    takes the next fetched result. *)
Fixpoint place (getHash : jsstring -> jsstring) (cache : gmap jsstring jsval)
    (texts : list jsstring) (fetched : list jsval) : list jsval :=
  match texts with
  | [] => []
  | text :: rest =>
      if truthy (cache_get cache (getHash text)) then
        cache_get cache (getHash text) :: place getHash cache rest fetched
      else
        match fetched with
        | v :: fetched' => v :: place getHash cache rest fetched'
        | [] => Undef :: place getHash cache rest []
        end
  end.

Definition uncached (getHash : jsstring -> jsstring)
    (cache : gmap jsstring jsval) (texts : list jsstring) : list jsstring :=
  List.filter (fun text => negb (truthy (cache_get cache (getHash text)))) texts.

Lemma chunks_from_concat (fuel : nat) :
  forall l, length l <= fuel -> concat (chunks_from fuel l) = l.
Proof.
  induction fuel as [|fuel IH]; intros l Hl.
  - destruct l; [reflexivity | cbn in Hl; lia].
  - destruct l as [|x l]; [reflexivity|].
    cbn [chunks_from concat]. rewrite IH.
    + apply take_drop.
    + rewrite length_drop. cbn [length] in *. unfold batchSize. lia.
Qed.

Lemma chunks_concat (l : list jsstring) : concat (chunks l) = l.
Proof. now apply chunks_from_concat. Qed.

Lemma normalize_contract (q answers : list jsstring) (items : list jsval) :
  length answers = length q ->
  Forall2 item_shape answers items ->
  normalize q (Arr items) = Ok (List.map Str answers).
Proof.
  intros Hlen Hs. unfold normalize.
  destruct (Nat.eqb (length q) 1) eqn:E.
  - apply Nat.eqb_eq in E. rewrite E in Hlen.
    destruct Hs as [|a it answers items Ha Hs]; [discriminate|].
    destruct Hs; [|discriminate]. cbn [first List.map].
    destruct Ha as [-> | ->]; reflexivity.
  - f_equal. clear Hlen E. induction Hs as [|a it answers items Ha Hs IH];
      [reflexivity|].
    cbn [List.map]. rewrite IH. destruct Ha as [-> | ->]; reflexivity.
Qed.

Lemma translateBatch_contract backend answer (texts : list jsstring) sl tl w :
  follows_contract backend answer ->
  translateBatch backend texts sl tl w
  = (Ok (Arr (List.map Str (answer (fetches w) (mkRequest sl tl texts)))),
     after w 1 [EvFetch (mkRequest sl tl texts)]).
Proof.
  intros Hc. rewrite translateBatch_cases. cbn zeta. cbn [Nat.add].
  destruct (Hc (fetches w) (mkRequest sl tl texts))
    as (Hlen & status & statusText & items & Hb & Hok & Hs).
  unfold outcome_result at 1. rewrite Hb, Hok.
  now rewrite (normalize_contract texts _ items Hlen Hs).
Qed.

Lemma slice_take_drop (i : nat) (l : list jsstring) :
  slice i (i + batchSize) l = take batchSize (drop i l).
Proof. unfold slice. f_equal. lia. Qed.

(** With a backend that keeps the contract, the loop of
    [fetchTranslationsFromApi] returns the answers to its chunks, in
    order. *)
Lemma fetch_loop_contract backend answer sl tl (texts : list jsstring) :
  follows_contract backend answer ->
  forall fuel i acc w,
    exists w',
      fetch_loop backend fuel texts sl tl i acc w
      = (Ok (acc ++ List.map Str
                      (answers_from answer sl tl (fetches w)
                         (chunks_from fuel (drop i texts)))), w').
Proof.
  intros Hc fuel. induction fuel as [|fuel IH]; intros i acc w.
  - exists w. cbn. now rewrite app_nil_r.
  - cbn [fetch_loop chunks_from].
    destruct (Nat.ltb_spec i (length texts)) as [Hi|Hi].
    + destruct (drop i texts) as [|x rest] eqn:Ed.
      { apply (f_equal length) in Ed. rewrite length_drop in Ed. cbn in Ed. lia. }
      rewrite <- Ed. unfold bind at 1.
      rewrite (translateBatch_contract backend answer) by assumption.
      rewrite slice_take_drop.
      set (req := mkRequest sl tl (take batchSize (drop i texts))).
      set (w1 := after w 1 [EvFetch req]).
      unfold bind at 1.
      assert (Hd : exists w2, fetches w2 = S (fetches w) /\
                (if i + batchSize <? length texts then delay 200%N else ret tt) w1
                = (Ok tt, w2)).
      { destruct (i + batchSize <? length texts); eexists;
          (split; [|reflexivity]); reflexivity. }
      destruct Hd as (w2 & Hf & ->).
      destruct (IH (i + batchSize)
                   (acc ++ List.map Str (answer (fetches w) req)) w2) as [w' Hw'].
      exists w'. rewrite Hw'. rewrite Hf.
      rewrite drop_drop. cbn [answers_from]. fold req.
      now rewrite List.map_app, <- app_assoc.
    + exists w. rewrite drop_ge by lia. cbn. now rewrite app_nil_r.
Qed.

Lemma fetchTranslationsFromApi_contract backend answer sl tl
    (texts : list jsstring) w :
  follows_contract backend answer ->
  exists w',
    fetchTranslationsFromApi backend texts sl tl w
    = (Ok (List.map Str (answers_from answer sl tl (fetches w) (chunks texts))), w').
Proof.
  intros Hc. unfold fetchTranslationsFromApi, chunks.
  destruct (fetch_loop_contract backend answer sl tl texts Hc
              (length texts) 0 [] w) as [w' Hw'].
  exists w'. now rewrite Hw'.
Qed.

Lemma answers_from_length answer sl tl (cs : list (list jsstring)) :
  (forall n req, length (answer n req) = length (r_q req)) ->
  forall n, length (answers_from answer sl tl n cs) = length (concat cs).
Proof.
  intros Hlen. induction cs as [|c cs IH]; intros n; [reflexivity|].
  cbn [answers_from concat]. rewrite !length_app, IH, Hlen. reflexivity.
Qed.

Section Placement.

Variable getHash : jsstring -> jsstring.
Variable cache : gmap jsstring jsval.

Lemma check_cache_app (a b : list jsstring) :
  forall i st,
    check_cache getHash cache (a ++ b) i st
    = check_cache getHash cache b (i + length a) (check_cache getHash cache a i st).
Proof.
  induction a as [|t a IH]; intros i st; cbn [app check_cache length].
  - now rewrite Nat.add_0_r.
  - rewrite IH. f_equal. lia.
Qed.

Lemma merge_snoc (api : list jsval) (Is : list nat) (U : list jsstring) (t : jsstring) :
  forall i acc,
    merge getHash api Is (U ++ [t]) i acc
    = (match Is !! (i + length U) with
       | Some originalIndex =>
           <[originalIndex := at_index api (i + length U)]>
             (fst (merge getHash api Is U i acc))
       | None => fst (merge getHash api Is U i acc)
       end,
       <[getHash t := at_index api (i + length U)]>
         (snd (merge getHash api Is U i acc))).
Proof.
  induction U as [|u U IH]; intros i acc; cbn [app merge length].
  - now rewrite Nat.add_0_r.
  - rewrite IH. now replace (S i + length U) with (i + S (length U)) by lia.
Qed.

Lemma merge_indices_app (api : list jsval) (Is X : list nat) (U : list jsstring) :
  forall i acc,
    i + length U <= length Is ->
    merge getHash api (Is ++ X) U i acc = merge getHash api Is U i acc.
Proof.
  induction U as [|u U IH]; intros i acc Hl; cbn [merge length] in *;
    [reflexivity|].
  rewrite lookup_app_l by lia. apply IH. lia.
Qed.

Lemma merge_insert_commute (api : list jsval) (Is : list nat) (j : nat) (x : jsval)
    (U : list jsstring) :
  Forall (fun originalIndex => originalIndex <> j) Is ->
  forall i R m,
    fst (merge getHash api Is U i (<[j := x]> R, m))
    = <[j := x]> (fst (merge getHash api Is U i (R, m))).
Proof.
  intros Hne. induction U as [|u U IH]; intros i R m; cbn [merge fst snd];
    [reflexivity|].
  destruct (Is !! i) as [oi|] eqn:E; [|apply IH].
  rewrite list_insert_insert_ne; [apply IH|].
  eapply Forall_lookup_1 in Hne; eauto.
Qed.

Lemma length_place (texts : list jsstring) :
  forall fetched, length (place getHash cache texts fetched) = length texts.
Proof.
  induction texts as [|t texts IH]; intros fetched; cbn [place length];
    [reflexivity|].
  destruct (truthy (cache_get cache (getHash t))); [cbn; now rewrite IH|].
  destruct fetched; cbn; now rewrite IH.
Qed.

Lemma place_snoc (texts : list jsstring) (t : jsstring) :
  forall fetched,
    place getHash cache (texts ++ [t]) fetched
    = place getHash cache texts fetched
      ++ [if truthy (cache_get cache (getHash t))
          then cache_get cache (getHash t)
          else at_index fetched (length (uncached getHash cache texts))].
Proof.
  induction texts as [|p texts IH]; intros fetched; cbn [app place uncached List.filter].
  - destruct (truthy (cache_get cache (getHash t))); [reflexivity|].
    destruct fetched; reflexivity.
  - destruct (truthy (cache_get cache (getHash p))) eqn:Ep; cbn [negb].
    + rewrite IH. reflexivity.
    + destruct fetched as [|v fetched]; rewrite IH; cbn [app length];
        destruct (truthy (cache_get cache (getHash t))); reflexivity.
Qed.

Lemma uncached_app (a b : list jsstring) :
  uncached getHash cache (a ++ b) = uncached getHash cache a ++ uncached getHash cache b.
Proof. unfold uncached. apply List.filter_app. Qed.

(** The cache check followed by the merge is the positional placement;
    the positions not yet visited still hold [null]. *)
Lemma check_then_merge (n : nat) (api : list jsval) (m0 : gmap jsstring jsval)
    (texts : list jsstring) :
  length texts <= n ->
  let st := check_cache getHash cache texts 0 (mkLookup (replicate n Null) [] []) in
  fst (merge getHash api (uncachedIndices st) (uncachedTexts st) 0 (results st, m0))
    = place getHash cache texts api ++ replicate (n - length texts) Null
  /\ length (uncachedIndices st) = length (uncachedTexts st)
  /\ Forall (fun j => j < length texts) (uncachedIndices st)
  /\ uncachedTexts st = uncached getHash cache texts.
Proof.
  induction texts as [|t texts IH] using rev_ind; intros Hn.
  - cbn. rewrite Nat.sub_0_r. repeat split; constructor.
  - rewrite length_app in Hn. cbn [length] in Hn.
    destruct (IH ltac:(lia)) as (Hm & Hl & Hf & Hu). clear IH.
    cbn zeta. rewrite check_cache_app. cbn [check_cache Nat.add].
    set (st := check_cache getHash cache texts 0 (mkLookup (replicate n Null) [] [])) in *.
    rewrite place_snoc, uncached_app, length_app. cbn [length].
    assert (Hrep : replicate (n - length texts) Null
                   = Null :: replicate (n - (length texts + 1)) Null).
    { replace (n - length texts) with (S (n - (length texts + 1))) by lia.
      reflexivity. }
    assert (Hins : forall x,
               <[length texts := x]>
                 (place getHash cache texts api ++ replicate (n - length texts) Null)
               = (place getHash cache texts api ++ [x])
                 ++ replicate (n - (length texts + 1)) Null).
    { intros x. rewrite Hrep, <- app_assoc. cbn [app].
      rewrite <- (length_place texts api) at 1.
      rewrite <- (Nat.add_0_r (length (place getHash cache texts api))).
      now rewrite insert_app_r. }
    destruct (truthy (cache_get cache (getHash t))) eqn:Et;
      cbn [uncachedIndices uncachedTexts results uncached List.filter].
    + rewrite Et. cbn [negb]. rewrite app_nil_r.
      repeat split; try assumption.
      * rewrite merge_insert_commute.
        -- rewrite Hm. apply Hins.
        -- eapply Forall_impl; [exact Hf|]. cbn. intros; lia.
      * eapply Forall_impl; [exact Hf|]. cbn. intros; lia.
    + rewrite Et. cbn [negb].
      repeat split.
      * rewrite merge_snoc. cbn [Nat.add].
        rewrite <- Hl, lookup_app_r, Nat.sub_diag by lia. cbn [lookup list_lookup fst].
        rewrite merge_indices_app by (cbn; lia).
        rewrite Hm, Hl, Hu. apply Hins.
      * rewrite !length_app. cbn. lia.
      * apply Forall_app. split.
        -- eapply Forall_impl; [exact Hf|]. cbn. intros; lia.
        -- constructor; [lia | constructor].
      * now rewrite Hu.
Qed.

End Placement.

(** C2: with a backend that keeps the contract, [translateTexts] returns
    one result per input, at the input's own position: walking the inputs
    in order, an input found in the cache has its cached value, and every
    other input has the backend's answer for it, the answers being taken in
    the order the inputs were sent, chunk after chunk, whichever of the two
    shapes the response had. *)
Theorem translateTexts_positional getHash backend answer
    (texts : list jsstring) sl tl (w : world) :
  follows_contract backend answer ->
  let cache := default ∅ (storage w !! cacheKey sl tl) in
  let fetched := answers_from answer sl tl (fetches w)
                   (chunks (uncached getHash cache texts)) in
  length fetched = length (uncached getHash cache texts)
  /\ length (place getHash cache texts (List.map Str fetched)) = length texts
  /\ exists w',
       translateTexts getHash backend texts sl tl w
       = (Ok (place getHash cache texts (List.map Str fetched)), w').
Proof.
  intros Hc cache fetched. split; [|split].
  - unfold fetched. rewrite answers_from_length, chunks_concat;
      [reflexivity | apply Hc].
  - apply length_place.
  - unfold translateTexts. fold cache.
    destruct (check_then_merge getHash cache (length texts)
                (List.map Str fetched) ∅ texts (le_n _)) as (Hm & _ & _ & Hu).
    cbn zeta in Hm, Hu. rewrite Nat.sub_diag, app_nil_r in Hm.
    set (st := check_cache getHash cache texts 0
                 (mkLookup (replicate (length texts) Null) [] [])) in *.
    destruct (uncachedTexts st) as [|u us] eqn:Eu.
    + exists w. cbn [merge fst] in Hm. now rewrite Hm.
    + rewrite <- Eu in Hm, Hu |- *. unfold bind at 1.
      destruct (fetchTranslationsFromApi_contract backend answer sl tl
                  (uncachedTexts st) w Hc) as [w1 Hw1].
      rewrite Hw1. rewrite Hu. fold fetched.
      unfold bind, storage_set, ret. eexists.
      rewrite <- Hu. rewrite Hm. reflexivity.
Qed.

(** A backend that translates each text on its own, by [tr], answering
    its even calls with a flat list and its odd calls with a list of
    single-element lists. *)
Definition per_text_backend (tr : jsstring -> jsstring)
  : nat -> request -> fetch_outcome :=
  fun n req =>
    FetchResponse 200 (lit "OK")
      (Some (Arr (List.map (fun text => if Nat.even n then Str (tr text)
                                        else Arr [Str (tr text)])
                           (r_q req)))).

Definition per_text_answer (tr : jsstring -> jsstring)
  : nat -> request -> list jsstring :=
  fun _ req => List.map tr (r_q req).

Lemma per_text_follows_contract (tr : jsstring -> jsstring) :
  follows_contract (per_text_backend tr) (per_text_answer tr).
Proof.
  intros n req. split; [apply List.length_map|].
  exists 200%N, (lit "OK"). eexists. split; [reflexivity|]. split; [reflexivity|].
  unfold per_text_answer. induction (r_q req) as [|t q IH]; cbn [List.map].
  - apply List.Forall2_nil.
  - apply List.Forall2_cons; [|exact IH].
    unfold item_shape. destruct (Nat.even n); [now left | now right].
Defined.

Lemma answers_from_per_text (tr : jsstring -> jsstring) sl tl
    (cs : list (list jsstring)) :
  forall n, answers_from (per_text_answer tr) sl tl n cs = List.map tr (concat cs).
Proof.
  induction cs as [|c cs IH]; intros n; [reflexivity|].
  cbn [answers_from concat]. now rewrite IH, List.map_app.
Qed.

Lemma place_per_text getHash cache (tr : jsstring -> jsstring)
    (texts : list jsstring) :
  place getHash cache texts
    (List.map Str (List.map tr (uncached getHash cache texts)))
  = List.map (fun text => if truthy (cache_get cache (getHash text))
                          then cache_get cache (getHash text)
                          else Str (tr text)) texts.
Proof.
  induction texts as [|t texts IH]; [reflexivity|].
  cbn [place uncached List.filter List.map].
  destruct (truthy (cache_get cache (getHash t))); cbn [negb List.map];
    now rewrite <- IH.
Qed.

(** With such a backend every output is the cached value or the
    translation of the input at the same position. *)
Corollary translateTexts_per_text getHash (tr : jsstring -> jsstring)
    (texts : list jsstring) sl tl (w : world) :
  let cache := default ∅ (storage w !! cacheKey sl tl) in
  exists w',
    translateTexts getHash (per_text_backend tr) texts sl tl w
    = (Ok (List.map (fun text => if truthy (cache_get cache (getHash text))
                                 then cache_get cache (getHash text)
                                 else Str (tr text)) texts), w').
Proof.
  intros cache.
  destruct (check_then_merge getHash cache (length texts)
              (List.map Str (List.map tr (uncached getHash cache texts))) ∅
              texts (le_n _)) as (Hm & _ & _ & Hu).
  cbn zeta in Hm, Hu. rewrite Nat.sub_diag, app_nil_r in Hm.
  unfold translateTexts. fold cache.
  set (st := check_cache getHash cache texts 0
               (mkLookup (replicate (length texts) Null) [] [])) in *.
  rewrite place_per_text in Hm.
  destruct (uncachedTexts st) as [|u us] eqn:Eu.
  - exists w. cbn [merge fst] in Hm. now rewrite Hm.
  - rewrite <- Eu in Hm, Hu |- *. unfold bind at 1.
    destruct (fetchTranslationsFromApi_contract (per_text_backend tr)
                (per_text_answer tr) sl tl (uncachedTexts st) w
                (per_text_follows_contract tr)) as [w1 Hw1].
    rewrite Hw1, answers_from_per_text, chunks_concat, Hu.
    unfold bind, storage_set, ret. eexists.
    rewrite <- Hu at 2. rewrite Hm. reflexivity.
Qed.

(** Twelve texts, the third of them cached: the fetch takes two chunks. *)
Definition twelve : list jsstring :=
  List.map lit ["t0"; "t1"; "A"; "t3"; "t4"; "t5"; "t6"; "t7"; "t8"; "t9";
           "t10"; "t11"]%string.

Definition shout (text : jsstring) : jsstring := text ++ lit "!".

Lemma translateTexts_positional_witness :
  let getHash := fun s : jsstring => s in
  let cache := default ∅ (storage warm_world !! cacheKey (lit "en") (lit "ja")) in
  let fetched := answers_from (per_text_answer shout) (lit "en") (lit "ja")
                   (fetches warm_world) (chunks (uncached getHash cache twelve)) in
  follows_contract (per_text_backend shout) (per_text_answer shout)
  /\ length fetched = length (uncached getHash cache twelve)
  /\ length (place getHash cache twelve (List.map Str fetched)) = length twelve
  /\ exists w',
       translateTexts getHash (per_text_backend shout) twelve (lit "en") (lit "ja")
         warm_world
       = (Ok (place getHash cache twelve (List.map Str fetched)), w').
Proof.
  intros getHash cache fetched.
  split; [apply per_text_follows_contract|].
  apply (translateTexts_positional getHash (per_text_backend shout)
           (per_text_answer shout) twelve (lit "en") (lit "ja") warm_world
           (per_text_follows_contract shout)).
Defined.

(** The run on the twelve texts: every output sits at its input's
    position, the cached one included; two fetches, 200 ms apart. *)
Example twelve_texts_run :
  let r := translateTexts (fun s => s) (per_text_backend shout) twelve
             (lit "en") (lit "ja") warm_world in
  fst r = Ok (List.map (fun text => if bool_decide (text = lit "A")
                                    then Str [12354%N] else Str (shout text))
                       twelve)
  /\ fetches (snd r) = 2
  /\ timeline (snd r)
     = [EvFetch (mkRequest (lit "en") (lit "ja")
                   (List.map lit ["t0"; "t1"; "t3"; "t4"; "t5"; "t6"; "t7"; "t8";
                             "t9"; "t10"]%string));
        EvDelay 200;
        EvFetch (mkRequest (lit "en") (lit "ja") [lit "t11"])].
Proof. vm_compute. repeat split. Qed.

End ClientProofs.

(* ===================================================================== *)
(** ** The session flags *)
(* ===================================================================== *)

Module SessionProofs.

Import Dom Content Background Session.

(** The three states of the session, read off the two flags. *)
Inductive state : Type := Idle | Translating | Translated.

Definition state_of (flags : bool * bool) : state :=
  let (translated, translating) := flags in
  if translating then Translating
  else if translated then Translated else Idle.

Definition state_of_session (s : session) : state :=
  state_of (isTranslated s, isTranslating s).

(** Some element of the page is followed by an inserted translation. *)
Definition has_translation (s : session) : bool :=
  existsb (fun f => existsb is_translation (f_after f)) (doc s).


Definition paragraph (text : jsstring) : node := Elem (lit "p") [] [Text text].

(** A page with nothing to translate: a Japanese paragraph, a one-letter
    paragraph, a paragraph inside a [nav]. *)
Definition quiet_page : list fragment :=
  [mkFragment (paragraph [12371; 12428; 12399; 12486; 12473; 12488]%N) false [];
   mkFragment (paragraph (lit "a")) false [];
   mkFragment (paragraph (lit "Home and contact")) true []].


(** The two scenarios of the language test. *)
Example isMainlyJapanese_yes :
  isMainlyJapanese [12371; 12428; 12399; 12486; 12473; 12488; 12391; 12377]%N = true.
Proof. reflexivity. Qed.

Example isMainlyJapanese_no : isMainlyJapanese (lit "This is a test") = false.
Proof. reflexivity. Qed.

(** The fuel [translatePage] passes to its batch loop is enough. *)
Lemma batch_loop_enough_fuel sendMessage (targets : list nat) fuel :
  forall i s,
    length targets <= i + pageBatchSize * fuel ->
    batch_loop sendMessage (S fuel) targets i s
    = batch_loop sendMessage fuel targets i s.
Proof.
  induction fuel as [|fuel IH]; intros i s Hl.
  - cbn [batch_loop]. destruct (Nat.ltb_spec i (length targets)); [lia | reflexivity].
  - change (batch_loop sendMessage (S (S fuel)) targets i s)
      with (if i <? length targets then
              batch_loop sendMessage (S fuel) targets (i + pageBatchSize)
                (translate_batch sendMessage
                   (slice i (i + pageBatchSize) targets) s)
            else s).
    cbn [batch_loop]. destruct (i <? length targets); [|reflexivity].
    apply IH. unfold pageBatchSize in *. lia.
Qed.

(** *** The flag and the inserted markup *)

Definition hello_page : list fragment :=
  [mkFragment (paragraph (lit "Hello world")) false []].

(** C7, counterexample: one eligible paragraph and a service worker that
    answers with an error.  The batch is reverted, no translation node is
    inserted, and the pass still ends with [isTranslated] set. *)
Lemma failed_pass_sets_isTranslated :
  let sendMessage := fun (_ : nat) (_ : list jsstring) =>
                       Response (Str (lit "HTTP 503: Service Unavailable")) Undef in
  let s' := translatePage sendMessage (mkSession hello_page false false 0 []) in
  doc s' = hello_page
  /\ has_translation s' = false
  /\ isTranslating s' = false
  /\ isTranslated s' = true
  /\ ~ (isTranslated s' = true <-> has_translation s' = true).
Proof.
  split; [vm_compute; reflexivity|].
  split; [vm_compute; reflexivity|].
  split; [vm_compute; reflexivity|].
  split; [vm_compute; reflexivity|].
  vm_compute. intros [H _]. discriminate (H eq_refl).
Qed.

(** The sessions between operations: the fresh page, and what
    [translatePage], [removeAllTranslations] and [toggleTranslate] leave
    when run to completion. *)
Inductive quiescent : session -> Prop :=
  | q_init page :
      forallb (fun f => match f_after f with [] => true | _ => false end) page = true ->
      quiescent (mkSession page false false 0 [])
  | q_translatePage sendMessage s :
      quiescent s -> quiescent (translatePage sendMessage s)
  | q_removeAllTranslations s :
      quiescent s -> quiescent (removeAllTranslations s)
  | q_toggleTranslate sendMessage s :
      quiescent s -> quiescent (toggleTranslate sendMessage s).

Lemma translatePage_flags sendMessage (s : session) :
  isTranslating s = false ->
  isTranslating (translatePage sendMessage s) = false
  /\ (isTranslated (translatePage sendMessage s) = true
      \/ (doc (translatePage sendMessage s) = doc s
          /\ isTranslated (translatePage sendMessage s) = isTranslated s)).
Proof.
  intros Hg. unfold translatePage. rewrite Hg.
  destruct (collectTargetElements (doc (set_isTranslating true s))).
  - split; [reflexivity|]. right. split; reflexivity.
  - split; [reflexivity|]. left. reflexivity.
Qed.

Lemma removeAllTranslations_clean (s : session) :
  isTranslated (removeAllTranslations s) = false
  /\ has_translation (removeAllTranslations s) = false
  /\ isTranslating (removeAllTranslations s) = isTranslating s.
Proof.
  split; [reflexivity|]. split; [|reflexivity].
  unfold has_translation, removeAllTranslations. cbn [set_isTranslated doc].
  induction (doc s) as [|f page IH]; [reflexivity|].
  cbn [List.map existsb]. rewrite IH, orb_false_r.
  unfold clear_marker, map_attrs, remove_siblings. cbn [f_after].
  induction (f_after f) as [|x after IHa]; [reflexivity|].
  destruct x; cbn; [exact IHa|exact IHa].
Qed.

(** C7, amended: at every quiescent state [isTranslating] is false, and
    where some element carries an inserted translation [isTranslated] is
    true; after [removeAllTranslations] the flag is false and no element
    carries a translation.  The converse does not hold: a pass that
    collected an element sets [isTranslated], whatever became of its
    batches. *)
Theorem isTranslated_where_translation (s : session) :
  quiescent s ->
  isTranslating s = false
  /\ (has_translation s = true -> isTranslated s = true)
  /\ isTranslated (removeAllTranslations s) = false
  /\ has_translation (removeAllTranslations s) = false
  /\ (forall sendMessage,
        collectTargetElements (doc s) <> [] ->
        isTranslated (translatePage sendMessage s) = true).
Proof.
  intros Hq.
  assert (H : isTranslating s = false
              /\ (has_translation s = true -> isTranslated s = true)).
  { induction Hq as [page Hp | sendMessage s _ [Hg Hi] | s _ [Hg Hi]
                    | sendMessage s _ [Hg Hi]].
    - split; [reflexivity|]. unfold has_translation. cbn [doc].
      intros H. exfalso. induction page as [|f page IH]; [discriminate|].
      cbn [forallb existsb] in *. apply andb_true_iff in Hp as [Hf Hp].
      destruct (f_after f); [|discriminate]. cbn in H. auto.
    - destruct (translatePage_flags sendMessage s Hg) as [Hg' [Ht | [Hd Ht]]].
      + split; [exact Hg' | intros _; exact Ht].
      + split; [exact Hg'|]. unfold has_translation. rewrite Hd, Ht. exact Hi.
    - destruct (removeAllTranslations_clean s) as (_ & Hh & Hg').
      split; [now rewrite Hg' | rewrite Hh; discriminate].
    - unfold toggleTranslate. destruct (isTranslated s) eqn:Et.
      + destruct (removeAllTranslations_clean s) as (_ & Hh & Hg').
        split; [now rewrite Hg' | rewrite Hh; discriminate].
      + destruct (translatePage_flags sendMessage s Hg) as [Hg' [Ht | [Hd Ht']]].
        * split; [exact Hg' | intros _; exact Ht].
        * split; [exact Hg'|]. unfold has_translation. rewrite Hd, Ht', Et.
          exact Hi. }
  destruct H as [Hg Hi]. destruct (removeAllTranslations_clean s) as (Ht & Hh & _).
  repeat split; try assumption.
  intros sendMessage Hne. unfold translatePage. rewrite Hg.
  cbn [set_isTranslating doc].
  destruct (collectTargetElements (doc s)); [congruence | reflexivity].
Qed.

(** A service worker that answers every text with the text and an
    exclamation mark. *)
Definition shouting : nat -> list jsstring -> response :=
  fun _ texts => Response Undef (Arr (List.map (fun t => Str (t ++ lit "!")) texts)).

Lemma isTranslated_where_translation_witness :
  let s := translatePage shouting (mkSession hello_page false false 0 []) in
  quiescent s
  /\ has_translation s = true
  /\ isTranslating s = false
  /\ (has_translation s = true -> isTranslated s = true)
  /\ isTranslated (removeAllTranslations s) = false
  /\ has_translation (removeAllTranslations s) = false
  /\ (forall sendMessage,
        collectTargetElements (doc s) <> [] ->
        isTranslated (translatePage sendMessage s) = true).
Proof.
  intros s.
  assert (Hq : quiescent s).
  { apply q_translatePage, q_init. reflexivity. }
  split; [exact Hq|]. split; [vm_compute; reflexivity|].
  apply (isTranslated_where_translation s Hq).
Defined.

End SessionProofs.

(* ===================================================================== *)
(** ** Shielding: which node gets which token *)
(* ===================================================================== *)

Module ShieldProofs.

Import Dom Content.
Local Open Scope N_scope.

(** Induction over the document tree. *)
Lemma node_ind' (P : node -> Prop) :
  (forall d, P (Text d)) ->
  (forall d, P (Comment d)) ->
  (forall tag attrs ch, Forall P ch -> P (Elem tag attrs ch)) ->
  forall n, P n.
Proof.
  intros HT HC HE. fix IH 1. intros [d|d|tag attrs ch];
    [apply HT | apply HC | apply HE].
  induction ch as [|c ch IHch]; constructor; [apply IH | exact IHch].
Qed.

Section Selected.

Variable kind : jsstring.
Variable selected : node -> bool.

(** The selected nodes of a subtree in tree order, the root included: the
    list [querySelectorAll] hands to [forEach]. *)
Fixpoint select (n : node) : list node :=
  match n with
  | Elem _ _ ch => (if selected n then [n] else []) ++ flat_map select ch
  | _ => []
  end.

Definition select_list (l : list node) : list node := flat_map select l.

(** The entries of the nodes of a list: the [i]-th node gets the token
    numbered [index + i] and maps it to its outer markup. *)
Fixpoint entries_of (index : nat) (nodes : list node) : PlaceholderMap :=
  match nodes with
  | [] => []
  | n :: rest => (token kind index, outerHTML n) :: entries_of (S index) rest
  end.

(** The tree with the content of every outermost selected node replaced by
    its padded token; [index] is the number of the first selected node of
    the subtree. *)
Fixpoint shielded (index : nat) (n : node) : node :=
  match n with
  | Elem tag attrs ch =>
      if selected n then
        Elem tag attrs [Text ([c_space] ++ token kind index ++ [c_space])]
      else
        Elem tag attrs
          ((fix go (i : nat) (l : list node) : list node :=
              match l with
              | [] => []
              | c :: l' => shielded i c :: go (i + length (select c))%nat l'
              end) index ch)
  | _ => n
  end.

Fixpoint shielded_list (index : nat) (l : list node) : list node :=
  match l with
  | [] => []
  | c :: l' => shielded index c :: shielded_list (index + length (select c)) l'
  end.

Lemma shielded_Elem (index : nat) tag attrs ch :
  shielded index (Elem tag attrs ch)
  = if selected (Elem tag attrs ch) then
      Elem tag attrs [Text ([c_space] ++ token kind index ++ [c_space])]
    else Elem tag attrs (shielded_list index ch).
Proof.
  cbn [shielded]. destruct (selected (Elem tag attrs ch)); reflexivity.
Qed.

Lemma shield_Elem (st : shield_state) tag attrs ch :
  shield kind selected (Elem tag attrs ch) st
  = if selected (Elem tag attrs ch) then
      (Elem tag attrs [Text ([c_space] ++ token kind (fst st) ++ [c_space])],
       register kind selected (Elem tag attrs ch) st)
    else
      (Elem tag attrs (fst (shield_list kind selected ch st)),
       snd (shield_list kind selected ch st)).
Proof.
  cbn [shield]. destruct (selected (Elem tag attrs ch)); reflexivity.
Qed.

Lemma entries_of_app (index : nat) (a b : list node) :
  entries_of index (a ++ b)
  = entries_of index a ++ entries_of (index + length a) b.
Proof.
  revert index. induction a as [|n a IH]; intros index; cbn [app entries_of length].
  - now rewrite Nat.add_0_r.
  - rewrite IH. do 3 f_equal. lia.
Qed.

End Selected.

(** *** Tokens are pairwise distinct *)

Lemma uint_digits_inj (u v : Decimal.uint) :
  uint_digits u = uint_digits v -> u = v.
Proof.
  revert v. induction u; intros v H; destruct v; try discriminate H;
    try reflexivity; cbn [uint_digits] in H; injection H as H;
    f_equal; now apply IHu.
Qed.

Lemma token_inj (kind : jsstring) (i j : nat) :
  token kind i = token kind j -> i = j.
Proof.
  unfold token, decimal. intros H.
  apply app_inv_head in H. apply app_inv_head in H. apply app_inv_head in H.
  apply app_inv_tail in H.
  apply DecimalNat.Unsigned.to_uint_inj. now apply uint_digits_inj.
Qed.

Lemma token_MATH_CODE (i j : nat) : token MATH i <> token CODE j.
Proof. unfold token. cbn. discriminate. Qed.

(** No key of the map is a token of [kind] numbered [index] or more. *)
Definition fresh_from (kind : jsstring) (index : nat) (m : PlaceholderMap) : Prop :=
  Forall (fun kv => forall j, (index <= j)%nat -> fst kv <> token kind j) m.

Lemma obj_set_fresh (id value : jsstring) (m : PlaceholderMap) :
  Forall (fun kv => fst kv <> id) m -> obj_set id value m = m ++ [(id, value)].
Proof.
  induction 1 as [|[k v] m Hk _ IH]; [reflexivity|].
  cbn [obj_set app]. cbn [fst] in Hk. unfold eqs.
  rewrite bool_decide_eq_false_2 by exact Hk. now rewrite IH.
Qed.

Lemma record_entry_fresh kind (n : node) (index : nat) (m : PlaceholderMap) :
  fresh_from kind index m ->
  record_entry kind n (index, m) = (S index, m ++ [(token kind index, outerHTML n)])
  /\ fresh_from kind (S index) (m ++ [(token kind index, outerHTML n)]).
Proof.
  intros Hf. split.
  - unfold record_entry. cbn [fst snd]. rewrite obj_set_fresh; [reflexivity|].
    eapply Forall_impl; [exact Hf|]. cbn. intros kv H. apply H. lia.
  - apply Forall_app. split.
    + eapply Forall_impl; [exact Hf|]. cbn. intros kv H j Hj. apply H. lia.
    + constructor; [|constructor]. cbn [fst]. intros j Hj E.
      apply token_inj in E. lia.
Qed.

Section Passes.

Variable kind : jsstring.
Variable selected : node -> bool.

(** What a pass leaves in its state, from a map without the tokens it is
    about to make. *)
Definition pass_state (index : nat) (m : PlaceholderMap) (nodes : list node)
  : shield_state :=
  ((index + length nodes)%nat, m ++ entries_of kind index nodes).

Lemma pass_state_nil index m : pass_state index m [] = (index, m).
Proof. unfold pass_state. cbn. now rewrite Nat.add_0_r, app_nil_r. Qed.

Lemma pass_state_app index m (a b : list node) :
  pass_state (index + length a) (m ++ entries_of kind index a) b
  = pass_state index m (a ++ b).
Proof.
  unfold pass_state. rewrite entries_of_app, length_app, <- app_assoc.
  f_equal. lia.
Qed.

Lemma register_list_spec (ch : list node) :
  Forall (fun n => forall index m,
            fresh_from kind index m ->
            register kind selected n (index, m)
              = pass_state index m (select selected n)
            /\ fresh_from kind (index + length (select selected n))
                 (m ++ entries_of kind index (select selected n))) ch ->
  forall index m,
    fresh_from kind index m ->
    fold_left (fun st' c => register kind selected c st') ch (index, m)
      = pass_state index m (select_list selected ch)
    /\ fresh_from kind (index + length (select_list selected ch))
         (m ++ entries_of kind index (select_list selected ch)).
Proof.
  induction 1 as [|c ch Hc _ IH]; intros index m Hf.
  - cbn [fold_left select_list flat_map]. rewrite pass_state_nil.
    cbn. now rewrite Nat.add_0_r, app_nil_r.
  - cbn [fold_left select_list flat_map].
    destruct (Hc index m Hf) as [-> Hf1].
    destruct (IH _ _ Hf1) as [E Hf2].
    unfold pass_state at 1. rewrite E, pass_state_app.
    split; [reflexivity|].
    rewrite entries_of_app, length_app, app_assoc, Nat.add_assoc. exact Hf2.
Qed.

Lemma register_spec (n : node) :
  forall index m,
    fresh_from kind index m ->
    register kind selected n (index, m) = pass_state index m (select selected n)
    /\ fresh_from kind (index + length (select selected n))
         (m ++ entries_of kind index (select selected n)).
Proof.
  induction n as [d|d|tag attrs ch IH] using node_ind'; intros index m Hf.
  - cbn [register select]. rewrite pass_state_nil. cbn.
    now rewrite Nat.add_0_r, app_nil_r.
  - cbn [register select]. rewrite pass_state_nil. cbn.
    now rewrite Nat.add_0_r, app_nil_r.
  - cbn [register select].
    destruct (selected (Elem tag attrs ch)).
    + destruct (record_entry_fresh kind (Elem tag attrs ch) index m Hf) as [-> Hf1].
      destruct (register_list_spec ch IH _ _ Hf1) as [-> Hf2].
      fold (select_list selected ch). split.
      * unfold pass_state. cbn [app length entries_of].
        rewrite <- app_assoc. cbn [app]. f_equal. lia.
      * cbn [app length entries_of].
        rewrite <- app_assoc in Hf2. cbn [app] in Hf2.
        now replace (index + S (length (select_list selected ch)))%nat
          with (S index + length (select_list selected ch))%nat by lia.
    + cbn [app]. apply (register_list_spec ch IH _ _ Hf).
Qed.

Lemma shield_list_spec (ch : list node) :
  Forall (fun n => forall index m,
            fresh_from kind index m ->
            shield kind selected n (index, m)
              = (shielded kind selected index n,
                 pass_state index m (select selected n))
            /\ fresh_from kind (index + length (select selected n))
                 (m ++ entries_of kind index (select selected n))) ch ->
  forall index m,
    fresh_from kind index m ->
    shield_list kind selected ch (index, m)
      = (shielded_list kind selected index ch,
         pass_state index m (select_list selected ch))
    /\ fresh_from kind (index + length (select_list selected ch))
         (m ++ entries_of kind index (select_list selected ch)).
Proof.
  induction 1 as [|c ch Hc _ IH]; intros index m Hf.
  - cbn [shield_list shielded_list select_list flat_map].
    rewrite pass_state_nil. cbn. now rewrite Nat.add_0_r, app_nil_r.
  - cbn [shield_list shielded_list select_list flat_map].
    destruct (Hc index m Hf) as [-> Hf1]. cbn [fst snd].
    destruct (IH _ _ Hf1) as [E Hf2].
    unfold pass_state at 1 2. rewrite E. cbn [fst snd]. rewrite pass_state_app.
    split; [reflexivity|].
    rewrite entries_of_app, length_app, app_assoc, Nat.add_assoc. exact Hf2.
Qed.

Lemma shield_spec (n : node) :
  forall index m,
    fresh_from kind index m ->
    shield kind selected n (index, m)
      = (shielded kind selected index n, pass_state index m (select selected n))
    /\ fresh_from kind (index + length (select selected n))
         (m ++ entries_of kind index (select selected n)).
Proof.
  induction n as [d|d|tag attrs ch IH] using node_ind'; intros index m Hf.
  - cbn [shield shielded select]. rewrite pass_state_nil. cbn.
    now rewrite Nat.add_0_r, app_nil_r.
  - cbn [shield shielded select]. rewrite pass_state_nil. cbn.
    now rewrite Nat.add_0_r, app_nil_r.
  - rewrite shield_Elem, shielded_Elem.
    destruct (selected (Elem tag attrs ch)) eqn:Es.
    + cbn [fst]. destruct (register_spec (Elem tag attrs ch) index m Hf) as [-> Hf1].
      split; [reflexivity | exact Hf1].
    + destruct (shield_list_spec ch IH index m Hf) as [-> Hf1]. cbn [fst snd].
      cbn [select]. rewrite Es. cbn [app]. fold (select_list selected ch).
      split; [reflexivity | exact Hf1].
Qed.

Lemma shield_list_pass (ch : list node) (index : nat) (m : PlaceholderMap) :
  fresh_from kind index m ->
  shield_list kind selected ch (index, m)
  = (shielded_list kind selected index ch,
     pass_state index m (select_list selected ch)).
Proof.
  intros Hf. apply shield_list_spec; [|exact Hf].
  apply Forall_forall. intros n _. apply shield_spec.
Qed.

End Passes.

Lemma entries_of_keys kind (nodes : list node) :
  forall index,
    Forall (fun kv => exists i, fst kv = token kind i) (entries_of kind index nodes).
Proof.
  induction nodes as [|n nodes IH]; intros index; constructor; eauto.
Qed.

(** A paragraph whose code comes before its formula. *)
Definition code_then_math : node :=
  Elem (lit "p") []
    [Elem (lit "code") [] [Text (lit "x")]; Text (lit " and ");
     Elem (lit "span") [(lit "class", lit "math")] [Text (lit "y")]].

(** C9, counterexample: in [<p><code>x</code> and <span class="math">y
    </span></p>] the code node is the first embedded node in document
    order, yet it gets [__CODE_1__]: the formula, which comes after it, was
    numbered first.  Numbering in document order, with one counter or one
    per kind, would start the text with [__CODE_0__]. *)
Lemma code_before_math_numbering :
  getTranslatableText code_then_math
  = (lit "__CODE_1__ and __MATH_0__",
     [(token MATH 0, lit "<span class=" ++ [c_quot] ++ lit "math" ++ [c_quot]
                     ++ lit ">y</span>");
      (token CODE 1, lit "<code>x</code>")])
  /\ fst (getTranslatableText code_then_math) <> lit "__CODE_0__ and __MATH_1__"
  /\ fst (getTranslatableText code_then_math) <> lit "__CODE_0__ and __MATH_0__".
Proof. vm_compute. repeat split; discriminate. Qed.

(** The paragraph of the scenario: [<p>Hello <b>world</b><code>x=1</code></p>]. *)
Definition hello_code : node :=
  Elem (lit "p") []
    [Text (lit "Hello "); Elem (lit "b") [] [Text (lit "world")];
     Elem (lit "code") [] [Text (lit "x=1")]].

(** The two passes of [getTranslatableText], for any element: the math
    nodes are numbered from 0, the code nodes of the tree the math pass
    leaves are numbered from where the math nodes ended. *)
Lemma getTranslatableText_passes (element : node) :
  let maths := select_list matches_math (children_of element) in
  let after_math := shielded_list MATH matches_math 0 (children_of element) in
  let codes := select_list matches_code after_math in
  let after_code := shielded_list CODE matches_code (length maths) after_math in
  getTranslatableText element
  = (trim (collapse_ws false (textContent (with_children element after_code))),
     entries_of MATH 0 maths ++ entries_of CODE (length maths) codes).
Proof.
  intros maths after_math codes after_code.
  unfold getTranslatableText.
  rewrite (shield_list_pass MATH matches_math) by constructor.
  cbn [fst snd]. unfold pass_state. cbn [app Nat.add].
  rewrite (shield_list_pass CODE matches_code).
  - reflexivity.
  - eapply Forall_impl; [apply entries_of_keys|]. cbn.
    intros kv [i ->] j _. apply token_MATH_CODE.
Qed.

(** *** Fragments whose embedded nodes do not lie inside one another *)

Definition embedded (n : node) : bool := matches_math n || matches_code n.

(** No embedded node in the subtree. *)
Fixpoint plain (n : node) : bool :=
  match n with
  | Elem _ _ ch => negb (embedded n) && forallb plain ch
  | _ => true
  end.

(** Every embedded node of the subtree is of one kind only and holds no
    embedded node. *)
Fixpoint separated (n : node) : bool :=
  match n with
  | Elem _ _ ch =>
      if embedded n then
        negb (matches_math n && matches_code n) && forallb plain ch
      else forallb separated ch
  | _ => true
  end.

Lemma matches_code_tag tag attrs ch attrs' ch' :
  matches_code (Elem tag attrs ch) = matches_code (Elem tag attrs' ch').
Proof. reflexivity. Qed.

Lemma plain_untouched (kind : jsstring) (selected : node -> bool) (n : node) :
  (forall m, selected m = true -> embedded m = true) ->
  plain n = true ->
  select selected n = [] /\ forall index, shielded kind selected index n = n.
Proof.
  intros Hsel. induction n as [d|d|tag attrs ch IH] using node_ind'; intros Hp;
    try (split; reflexivity).
  cbn [plain] in Hp. apply andb_true_iff in Hp as [He Hch].
  apply negb_true_iff in He.
  assert (Hs : selected (Elem tag attrs ch) = false).
  { destruct (selected (Elem tag attrs ch)) eqn:E; [|reflexivity].
    apply Hsel in E. congruence. }
  assert (Hl : flat_map (select selected) ch = []
               /\ forall index, shielded_list kind selected index ch = ch).
  { clear He Hs. induction IH as [|c ch Hc _ IHch]; [split; reflexivity|].
    cbn [forallb] in Hch. apply andb_true_iff in Hch as [Hpc Hch].
    destruct (Hc Hpc) as [Hc1 Hc2]. destruct (IHch Hch) as [Hl1 Hl2].
    split.
    - cbn [flat_map]. now rewrite Hc1, Hl1.
    - intros index. cbn [shielded_list]. now rewrite Hc2, Hl2. }
  destruct Hl as [Hl1 Hl2]. split.
  - cbn [select]. now rewrite Hs, Hl1.
  - intros index. rewrite shielded_Elem, Hs. now rewrite Hl2.
Qed.

Lemma math_embedded (m : node) : matches_math m = true -> embedded m = true.
Proof. unfold embedded. now intros ->. Qed.

Lemma code_embedded (m : node) : matches_code m = true -> embedded m = true.
Proof. unfold embedded. intros ->. apply orb_true_r. Qed.

Lemma plain_list_untouched (kind : jsstring) (selected : node -> bool)
    (ch : list node) :
  (forall m, selected m = true -> embedded m = true) ->
  forallb plain ch = true ->
  select_list selected ch = []
  /\ forall index, shielded_list kind selected index ch = ch.
Proof.
  intros Hsel. induction ch as [|c ch IH]; intros Hp; [split; reflexivity|].
  cbn [forallb] in Hp. apply andb_true_iff in Hp as [Hc Hch].
  destruct (plain_untouched kind selected c Hsel Hc) as [Hc1 Hc2].
  destruct (IH Hch) as [Hl1 Hl2]. split.
  - cbn [select_list flat_map]. fold (select_list selected ch).
    now rewrite Hc1, Hl1.
  - intros index. cbn [shielded_list]. now rewrite Hc2, Hl2.
Qed.

(** In a separated fragment the math pass leaves the code nodes as they
    were. *)
Lemma separated_codes_kept (n : node) :
  separated n = true ->
  forall index,
    select matches_code (shielded MATH matches_math index n)
    = select matches_code n.
Proof.
  induction n as [d|d|tag attrs ch IH] using node_ind'; intros Hs index;
    try reflexivity.
  cbn [separated] in Hs. rewrite shielded_Elem.
  destruct (matches_math (Elem tag attrs ch)) eqn:Em.
  - unfold embedded in Hs. rewrite Em in Hs. cbn [orb andb] in Hs.
    apply andb_true_iff in Hs as [Hc Hp]. apply negb_true_iff in Hc.
    destruct (plain_list_untouched CODE matches_code ch code_embedded Hp) as [Hn _].
    cbn [select]. rewrite (matches_code_tag tag attrs _ attrs ch), Hc.
    cbn [app flat_map]. fold (select_list matches_code ch). now rewrite Hn.
  - unfold embedded in Hs. rewrite Em in Hs. cbn [orb] in Hs.
    destruct (matches_code (Elem tag attrs ch)) eqn:Ec.
    + cbn [andb negb] in Hs.
      destruct (plain_list_untouched MATH matches_math ch math_embedded Hs) as [_ Hk].
      now rewrite Hk.
    + cbn [select]. rewrite (matches_code_tag tag attrs _ attrs ch), Ec.
      cbn [app]. clear Em Ec. revert index.
      induction IH as [|c ch Hc _ IHch]; intros index; [reflexivity|].
      cbn [forallb] in Hs. apply andb_true_iff in Hs as [Hsc Hs].
      cbn [shielded_list flat_map]. now rewrite Hc, IHch.
Qed.

Lemma separated_list_codes_kept (ch : list node) :
  forallb separated ch = true ->
  forall index,
    select_list matches_code (shielded_list MATH matches_math index ch)
    = select_list matches_code ch.
Proof.
  induction ch as [|c ch IH]; intros Hs index; [reflexivity|].
  cbn [forallb] in Hs. apply andb_true_iff in Hs as [Hc Hs].
  cbn [shielded_list select_list flat_map].
  fold (select_list matches_code ch).
  fold (select_list matches_code
          (shielded_list MATH matches_math
             (index + length (select matches_math c)) ch)).
  now rewrite separated_codes_kept, IH.
Qed.

(** A paragraph whose only embedded node matches both kinds of selector:
    [<p>See <code class="math">x</code></p>]. *)
Definition math_in_code_tag : node :=
  Elem (lit "p") []
    [Text (lit "See ");
     Elem (lit "code") [(lit "class", lit "math")] [Text (lit "x")]].

(** The node is numbered twice, once in each pass: its math token keeps the
    original markup, its code token is mapped to the markup the math pass
    left, and the text holds the code token only. *)
Example math_in_code_tag_tokens :
  getTranslatableText math_in_code_tag
  = (lit "See __CODE_1__",
     [(token MATH 0, lit "<code class=" ++ [c_quot] ++ lit "math" ++ [c_quot]
                     ++ lit ">x</code>");
      (token CODE 1, lit "<code class=" ++ [c_quot] ++ lit "math" ++ [c_quot]
                     ++ lit "> __MATH_0__ </code>")]).
Proof. vm_compute. reflexivity. Qed.

(** C9, amended: [getTranslatableText] works in two passes over a copy of
    the element, with one counter running through both.  The first pass
    gives every node that matches the math selectors, in document order and
    those inside another math node included, the next token [__MATH_0__],
    [__MATH_1__], ...; the token is mapped to the node's original outer
    markup and the content of every math node that is not inside another
    one becomes its token padded by single spaces.  The second pass gives
    every node that matches the code selectors and is still in the copy (so
    not one inside a math node), in document order, the next token
    [__CODE_k__], [__CODE_k+1__], ..., where [k] is the number of math nodes;
    the token is mapped to the node's outer markup as the first pass left
    it, and the content of every such node that is not inside another one
    becomes its padded token.  The text returned is the flattened text of
    the copy, white space runs collapsed and the ends trimmed.  When no
    embedded node lies inside another and none matches both kinds of
    selector, the code nodes of the second pass are the code nodes of the
    element and every token is mapped to its node's original outer markup.
    For [Hello <b>world</b>] followed by [<code>x=1</code>] the text is
    [Hello world __CODE_0__] and the map is
    {[__CODE_0__]: [<code>x=1</code>]}. *)
Theorem getTranslatableText_tokens (element : node) :
  let maths := select_list matches_math (children_of element) in
  let after_math := shielded_list MATH matches_math 0 (children_of element) in
  let codes := select_list matches_code after_math in
  let k := length maths in
  let after_code := shielded_list CODE matches_code k after_math in
  getTranslatableText element
  = (trim (collapse_ws false (textContent (with_children element after_code))),
     entries_of MATH 0 maths ++ entries_of CODE k codes)
  /\ (forallb separated (children_of element) = true ->
      codes = select_list matches_code (children_of element))
  /\ getTranslatableText hello_code
     = (lit "Hello world __CODE_0__", [(lit "__CODE_0__", lit "<code>x=1</code>")]).
Proof.
  intros maths after_math codes k after_code.
  split; [apply getTranslatableText_passes|].
  split; [|vm_compute; reflexivity].
  intros Hs. now apply separated_list_codes_kept.
Qed.

Lemma getTranslatableText_tokens_witness :
  forallb separated (children_of code_then_math) = true
  /\ select_list matches_code
       (shielded_list MATH matches_math 0 (children_of code_then_math))
     = select_list matches_code (children_of code_then_math).
Proof.
  split; [reflexivity|].
  apply (getTranslatableText_tokens code_then_math). reflexivity.
Defined.

End ShieldProofs.

(* ===================================================================== *)
(** ** More on the codec: escaping *)
(* ===================================================================== *)

Module EscapeFacts.

Import Regex Dom Content PatternFacts.
Local Open Scope N_scope.

(** What [escapeHtml] makes of one code unit. *)
Definition escape_unit (x : N) : jsstring :=
  if x =? c_amp then lit "&amp;"
  else if x =? c_lt then lit "&lt;"
  else if x =? c_gt then lit "&gt;"
  else if x =? c_quot then lit "&quot;"
  else if x =? c_apos then lit "&#039;"
  else [x].

Lemma escapeHtml_unit (x : N) : escapeHtml [x] = escape_unit x.
Proof.
  unfold escape_unit.
  destruct (N.eqb_spec x c_amp) as [->|H1]; [reflexivity|].
  destruct (N.eqb_spec x c_lt) as [->|H2]; [reflexivity|].
  destruct (N.eqb_spec x c_gt) as [->|H3]; [reflexivity|].
  destruct (N.eqb_spec x c_quot) as [->|H4]; [reflexivity|].
  destruct (N.eqb_spec x c_apos) as [->|H5]; [reflexivity|].
  apply escapeHtml_safe. unfold html_safe, html_special. cbn [forallb existsb].
  rewrite (proj2 (N.eqb_neq _ _) H1), (proj2 (N.eqb_neq _ _) H2),
    (proj2 (N.eqb_neq _ _) H3), (proj2 (N.eqb_neq _ _) H4),
    (proj2 (N.eqb_neq _ _) H5). reflexivity.
Qed.

(** The five replacements in a row amount to one pass that escapes each
    code unit on its own: the entities put in by the earlier replacements
    hold nothing the later ones look for. *)
Lemma escapeHtml_flat_map (text : jsstring) :
  escapeHtml text = flat_map escape_unit text.
Proof.
  induction text as [|x text IH]; [reflexivity|].
  change (x :: text) with ([x] ++ text).
  rewrite escapeHtml_app, escapeHtml_unit, IH. reflexivity.
Qed.

(** The characters that open or close markup or an attribute value. *)
Definition markup_char (c : N) : bool :=
  (c =? c_lt) || (c =? c_gt) || (c =? c_quot) || (c =? c_apos).

Lemma escape_unit_no_markup (x : N) :
  forallb (fun c => negb (markup_char c)) (escape_unit x) = true.
Proof.
  unfold escape_unit.
  destruct (N.eqb_spec x c_amp); [reflexivity|].
  destruct (N.eqb_spec x c_lt); [reflexivity|].
  destruct (N.eqb_spec x c_gt); [reflexivity|].
  destruct (N.eqb_spec x c_quot); [reflexivity|].
  destruct (N.eqb_spec x c_apos); [reflexivity|].
  cbn [forallb]. unfold markup_char.
  rewrite !(proj2 (N.eqb_neq _ _)) by assumption. reflexivity.
Qed.

(** X1: whatever the text, its escaped form holds no [<], [>], double
    quote or apostrophe, and it is the text itself when the text holds none
    of the five special characters. *)
Theorem escapeHtml_no_markup (text : jsstring) :
  forallb (fun c => negb (markup_char c)) (escapeHtml text) = true
  /\ (html_safe text = true -> escapeHtml text = text)
  /\ (length text <= length (escapeHtml text))%nat.
Proof.
  split; [|split; [apply escapeHtml_safe|]].
  - rewrite escapeHtml_flat_map. induction text as [|x text IH]; [reflexivity|].
    cbn [flat_map]. rewrite forallb_app, escape_unit_no_markup, IH. reflexivity.
  - rewrite escapeHtml_flat_map. induction text as [|x text IH]; [reflexivity|].
    cbn [flat_map length]. rewrite length_app.
    assert (1 <= length (escape_unit x))%nat; [|lia].
    unfold escape_unit.
    repeat match goal with
           | |- context [if ?b then _ else _] => destruct b
           end; cbn; lia.
Qed.

Lemma escapeHtml_no_markup_witness :
  html_safe (lit "plain text") = true
  /\ forallb (fun c => negb (markup_char c)) (escapeHtml (lit "plain text")) = true
  /\ (html_safe (lit "plain text") = true
      -> escapeHtml (lit "plain text") = lit "plain text")
  /\ (length (lit "plain text") <= length (escapeHtml (lit "plain text")))%nat.
Proof.
  split; [reflexivity|]. apply (escapeHtml_no_markup (lit "plain text")).
Defined.

Lemma escape_unit_inj (x y : N) (u v : jsstring) :
  escape_unit x ++ u = escape_unit y ++ v -> x = y /\ u = v.
Proof.
  unfold escape_unit.
  destruct (N.eqb_spec x c_amp) as [->|X1];
    [|destruct (N.eqb_spec x c_lt) as [->|X2];
      [|destruct (N.eqb_spec x c_gt) as [->|X3];
        [|destruct (N.eqb_spec x c_quot) as [->|X4];
          [|destruct (N.eqb_spec x c_apos) as [->|X5]]]]];
  (destruct (N.eqb_spec y c_amp) as [->|Y1];
    [|destruct (N.eqb_spec y c_lt) as [->|Y2];
      [|destruct (N.eqb_spec y c_gt) as [->|Y3];
        [|destruct (N.eqb_spec y c_quot) as [->|Y4];
          [|destruct (N.eqb_spec y c_apos) as [->|Y5]]]]]);
  repeat match goal with
         | |- context [lit ?s] =>
             let v := eval vm_compute in (lit s) in change (lit s) with v
         end;
  unfold c_amp, c_lt, c_gt, c_quot, c_apos in *; cbn [app]; intros H;
  try discriminate H;
  try (injection H as H; split; [reflexivity | exact H]);
  try (injection H as E H; subst; solve [congruence | split; [reflexivity|assumption]]).
  injection H as -> ->. split; reflexivity.
Qed.

(** X2: escaping loses nothing: texts with the same escaped form are the
    same text. *)
Theorem escapeHtml_injective (a b : jsstring) :
  escapeHtml a = escapeHtml b -> a = b.
Proof.
  rewrite !escapeHtml_flat_map. revert b.
  induction a as [|x a IH]; intros [|y b] H; cbn [flat_map] in H.
  - reflexivity.
  - exfalso. unfold escape_unit in H.
    repeat match type of H with
           | context [if ?c then _ else _] => destruct c
           end; discriminate H.
  - exfalso. unfold escape_unit in H.
    repeat match type of H with
           | context [if ?c then _ else _] => destruct c
           end; discriminate H.
  - apply escape_unit_inj in H as [-> H]. f_equal. now apply IH.
Qed.

Lemma escapeHtml_injective_witness :
  escapeHtml (lit "a<b") = escapeHtml (lit "a<b") /\ lit "a<b" = lit "a<b".
Proof.
  split; [reflexivity|].
  apply (escapeHtml_injective (lit "a<b") (lit "a<b")). reflexivity.
Defined.

End EscapeFacts.

(* ===================================================================== *)
(** ** More on the codec: what restoring leaves alone, what shielding
       records *)
(* ===================================================================== *)

Module CodecExtras.

Import Regex Dom Content PatternFacts ShieldProofs.
Local Open Scope N_scope.

Lemma matches_one_in (ts : list term) (u : jsstring) :
  matches ts u ->
  forall a, In (One a) ts -> exists c, In c u /\ atom_match a c = true.
Proof.
  induction 1 as [|a c ts s Ha _ IH|a ts s _ IH|a c ts s Ha _ IH]; intros b Hb.
  - destruct Hb.
  - destruct Hb as [E|Hb].
    + injection E as ->. exists c. split; [now left | exact Ha].
    + destruct (IH b Hb) as (x & Hx & Hm). exists x. split; [now right | exact Hm].
  - destruct Hb as [E|Hb]; [discriminate|]. now apply IH.
  - destruct (IH b Hb) as (x & Hx & Hm). exists x. split; [now right | exact Hm].
Qed.

(** A pattern one of whose atoms matches no code unit of the string
    matches nowhere in it. *)
Lemma exec_none_absent (ts : list term) (a : atom) (s : jsstring) :
  In (One a) ts ->
  forallb (fun x => negb (atom_match a x)) s = true ->
  exec ts s = None.
Proof.
  intros Ha Hs. destruct (exec ts s) as [n|] eqn:E; [|reflexivity].
  exfalso. destruct (exec_sound ts s n E) as [_ Hm].
  destruct (matches_one_in _ _ Hm a Ha) as (c & Hc & Hmc).
  assert (Hin : In c s).
  { rewrite <- (take_drop n s). apply in_or_app. now left. }
  rewrite forallb_forall in Hs. specialize (Hs c Hin).
  rewrite Hmc in Hs. discriminate.
Qed.

Lemma replace_scan_absent (ts : list term) (a : atom) (repl : jsstring) :
  In (One a) ts ->
  forall s before,
    forallb (fun x => negb (atom_match a x)) s = true ->
    replace_scan ts repl before s 0 = s.
Proof.
  intros Ha s. induction s as [|c s IH]; intros before Hs.
  - cbn [replace_scan]. now rewrite (exec_none_absent ts a []).
  - cbn [replace_scan]. rewrite (exec_none_absent ts a (c :: s)) by assumption.
    cbn [forallb] in Hs. apply andb_true_iff in Hs as [_ Hs].
    now rewrite IH.
Qed.

Lemma pattern_of_atoms (t : jsstring) (c : N) :
  In c t -> In (One (atom_of c)) (pattern_of t).
Proof.
  induction t as [|x t IH]; intros Hc; [destruct Hc|].
  destruct t as [|y t].
  - destruct Hc as [->|[]]. now left.
  - change (pattern_of (x :: y :: t))
      with (One (atom_of x) :: Star ASpace :: pattern_of (y :: t)).
    destruct Hc as [->|Hc]; [now left|]. right. right. now apply IH.
Qed.

(** Some character of the token has no counterpart anywhere in [s]: no code
    unit of [s] is accepted in its place. *)
Definition absent (t s : jsstring) : bool :=
  existsb (fun c => forallb (fun x => negb (atom_match (atom_of c) x)) s) t.

Lemma replace_all_absent (t repl s : jsstring) :
  absent t s = true -> replace_all (pattern_of t) repl s = s.
Proof.
  unfold absent. rewrite existsb_exists. intros (c & Hc & Hs).
  unfold replace_all. eapply replace_scan_absent; [|exact Hs].
  now apply pattern_of_atoms.
Qed.

(** X3: a placeholder the translation dropped is no error.  If, for every
    entry of the map, some character of its token has no counterpart in the
    escaped text, [restorePlaceholders] returns the escaped text and
    nothing else. *)
Theorem restore_unmatched (text : jsstring) (placeholderMap : PlaceholderMap) :
  Forall (fun entry => forallb is_token_char (fst entry) = true
                       /\ absent (fst entry) (escapeHtml text) = true)
         placeholderMap ->
  restorePlaceholders text placeholderMap = Some (escapeHtml text).
Proof.
  intros H. unfold restorePlaceholders.
  destruct text as [|x text]; [reflexivity|]. cbn [nonempty negb].
  induction H as [|[t markup] m [Ht Ha] _ IH]; [reflexivity|].
  cbn [restore_entries fst] in *.
  now rewrite parse_pattern_source, replace_all_absent.
Qed.

Lemma restore_unmatched_witness :
  let m := [(token MATH 0, lit "<i>x</i>"); (token CODE 1, lit "<code>y</code>")] in
  Forall (fun entry => forallb is_token_char (fst entry) = true
                       /\ absent (fst entry) (escapeHtml (lit "Tom & Jerry")) = true) m
  /\ restorePlaceholders (lit "Tom & Jerry") m = Some (lit "Tom &amp; Jerry").
Proof.
  intros m.
  assert (H : Forall (fun entry => forallb is_token_char (fst entry) = true
                       /\ absent (fst entry) (escapeHtml (lit "Tom & Jerry")) = true) m).
  { repeat constructor. }
  split; [exact H|].
  apply (restore_unmatched (lit "Tom & Jerry") m H).
Defined.

(** *** The map [getTranslatableText] returns *)

Lemma entries_of_fst kind (nodes : list node) :
  forall index,
    List.map fst (entries_of kind index nodes)
    = List.map (token kind) (seq index (length nodes)).
Proof.
  induction nodes as [|n nodes IH]; intros index; [reflexivity|].
  cbn [entries_of List.map length seq fst]. now rewrite IH.
Qed.

Lemma tokens_NoDup kind (index len : nat) :
  List.NoDup (List.map (token kind) (seq index len)).
Proof.
  apply Finite.Injective_map_NoDup; [|apply List.seq_NoDup].
  intros i j. apply token_inj.
Qed.

Lemma MATH_chars : forallb is_token_char MATH = true.
Proof. reflexivity. Qed.

Lemma CODE_chars : forallb is_token_char CODE = true.
Proof. reflexivity. Qed.

Lemma extracted_keys (element : node) :
  let maths := select_list matches_math (children_of element) in
  let codes := select_list matches_code
                 (shielded_list MATH matches_math 0 (children_of element)) in
  List.map fst (snd (getTranslatableText element))
  = List.map (token MATH) (seq 0 (length maths))
    ++ List.map (token CODE) (seq (length maths) (length codes)).
Proof.
  intros maths codes. rewrite getTranslatableText_passes. cbn [snd].
  fold maths. fold codes. now rewrite List.map_app, !entries_of_fst.
Qed.

Lemma extracted_key_chars (element : node) :
  Forall (fun entry => forallb is_token_char (fst entry) = true)
         (snd (getTranslatableText element)).
Proof.
  apply Forall_forall. intros [k v] Hin. cbn [fst].
  assert (Hkin : In k (List.map fst (snd (getTranslatableText element)))).
  { apply List.in_map_iff. exists (k, v). split; [reflexivity|].
    now apply list_elem_of_In. }
  rewrite extracted_keys in Hkin. apply in_app_or in Hkin as [Hin'|Hin'];
    apply List.in_map_iff in Hin' as (i & <- & _); apply token_chars;
    reflexivity.
Qed.

(** X4: in the map of any element the tokens are pairwise distinct, each is
    made of underscores, upper-case letters and digits, and there is one
    entry per math node and one per code node visited. *)
Theorem getTranslatableText_keys (element : node) :
  let m := snd (getTranslatableText element) in
  let maths := select_list matches_math (children_of element) in
  let codes := select_list matches_code
                 (shielded_list MATH matches_math 0 (children_of element)) in
  List.NoDup (List.map fst m)
  /\ Forall (fun entry => forallb is_token_char (fst entry) = true) m
  /\ List.map fst m
     = List.map (token MATH) (seq 0 (length maths))
       ++ List.map (token CODE) (seq (length maths) (length codes)).
Proof.
  intros m maths codes. subst m.
  split; [|split; [apply extracted_key_chars | apply extracted_keys]].
  rewrite extracted_keys.
  apply List.NoDup_app; [apply tokens_NoDup | apply tokens_NoDup |].
  intros k Hm Hc. apply List.in_map_iff in Hm as (i & <- & _).
  apply List.in_map_iff in Hc as (j & E & _).
  symmetry in E. now apply token_MATH_CODE in E.
Qed.

Lemma restore_entries_total (m : PlaceholderMap) :
  Forall (fun entry => forallb is_token_char (fst entry) = true) m ->
  forall html, exists out, restore_entries m html = Some out.
Proof.
  induction 1 as [|[t markup] m Ht _ IH]; intros html; [now exists html|].
  cbn [restore_entries fst] in *. rewrite parse_pattern_source by assumption.
  apply IH.
Qed.

(** X5: the regular expressions [restorePlaceholders] builds from the map
    of [getTranslatableText] are always well formed: whatever the element
    and the translated text, restoring returns a result. *)
Theorem restore_after_extract_total (element : node) (translatedText : jsstring) :
  exists out,
    restorePlaceholders translatedText (snd (getTranslatableText element)) = Some out.
Proof.
  unfold restorePlaceholders.
  destruct (negb (nonempty translatedText)); [now exists []|].
  apply restore_entries_total, extracted_key_chars.
Qed.

End CodecExtras.

(* ===================================================================== *)
(** ** More on the codec: the flattened text *)
(* ===================================================================== *)

Module NormalizeFacts.

Import Regex Dom Content PatternFacts ShieldProofs.
Local Open Scope N_scope.

(** [.replace(/\s+/g, ' ').trim()] *)
Definition normalize_ws (s : jsstring) : jsstring := trim (collapse_ws false s).

Definition starts_clean (s : jsstring) : bool :=
  match s with
  | [] => true
  | a :: _ => negb (is_ws a)
  end.

(** Every white space character is a space; [strict] asks that a code unit
    other than white space follows it, otherwise it may also come last. *)
Fixpoint spaced (strict : bool) (s : jsstring) : bool :=
  match s with
  | [] => true
  | a :: t =>
      implb (is_ws a)
            ((a =? c_space)
             && match t with
                | b :: _ => negb (is_ws b)
                | [] => negb strict
                end)
      && spaced strict t
  end.

(** The shape of a normalized text: single spaces only, and only between
    other characters. *)
Definition normal (s : jsstring) : bool := starts_clean s && spaced true s.

Lemma collapse_spaced (s : jsstring) :
  forall in_run,
    spaced false (collapse_ws in_run s) = true
    /\ (in_run = true -> starts_clean (collapse_ws in_run s) = true).
Proof.
  induction s as [|c s IH]; intros in_run; [split; reflexivity|].
  cbn [collapse_ws]. destruct (is_ws c) eqn:Ec.
  - destruct (IH true) as [Hs Hc]. specialize (Hc eq_refl).
    destruct in_run.
    + split; [exact Hs | intros _; exact Hc].
    + split; [|discriminate]. cbn [spaced]. rewrite Hs, andb_true_r.
      change (is_ws c_space) with true. cbn [implb]. rewrite N.eqb_refl.
      cbn [andb]. destruct (collapse_ws true s); [reflexivity | exact Hc].
  - destruct (IH false) as [Hs _]. split.
    + cbn [spaced]. rewrite Ec, Hs. reflexivity.
    + intros _. cbn [starts_clean]. now rewrite Ec.
Qed.

Lemma spaced_app_l (strict : bool) (a b : jsstring) :
  spaced strict (a ++ b) = true -> spaced false a = true.
Proof.
  induction a as [|x a IH]; intros H; [reflexivity|].
  cbn [app spaced] in *. apply andb_true_iff in H as [Hx Ha].
  rewrite (IH Ha), andb_true_r.
  destruct (is_ws x); [|reflexivity]. cbn [implb] in *.
  apply andb_true_iff in Hx as [Hx1 Hx2]. rewrite Hx1. cbn [andb].
  destruct a as [|y a]; [reflexivity|]. exact Hx2.
Qed.

Lemma spaced_app_r (strict : bool) (a b : jsstring) :
  spaced strict (a ++ b) = true -> spaced strict b = true.
Proof.
  induction a as [|x a IH]; intros H; [exact H|].
  cbn [app spaced] in H. apply andb_true_iff in H as [_ Ha]. now apply IH.
Qed.

Lemma trim_start_split (s : jsstring) :
  exists w, s = w ++ trim_start s /\ forallb is_ws w = true
            /\ starts_clean (trim_start s) = true.
Proof.
  induction s as [|c s (w & Hw & Hws & Hc)]; [exists []; repeat split|].
  cbn [trim_start]. destruct (is_ws c) eqn:Ec.
  - exists (c :: w). cbn [app forallb]. rewrite Ec, Hws. repeat split; [|exact Hc].
    now f_equal.
  - exists []. repeat split. cbn. now rewrite Ec.
Qed.

(** [trim] takes white space off both ends and nothing else. *)
Lemma trim_split (s : jsstring) :
  exists w1 w2,
    s = w1 ++ trim s ++ w2
    /\ forallb is_ws w1 = true /\ forallb is_ws w2 = true
    /\ starts_clean (trim s) = true /\ starts_clean (rev (trim s)) = true.
Proof.
  unfold trim. destruct (trim_start_split s) as (w1 & H1 & Hw1 & Hc1).
  destruct (trim_start_split (rev (trim_start s))) as (w2 & H2 & Hw2 & Hc2).
  exists w1, (rev w2). repeat split.
  - rewrite H1 at 1. f_equal. rewrite <- (rev_involutive (trim_start s)) at 1.
    rewrite H2 at 1. now rewrite rev_app_distr.
  - exact Hw1.
  - rewrite forallb_forall in *. intros x Hx. apply Hw2. now apply in_rev.
  - set (r := trim_start (rev (trim_start s))) in *.
    assert (E : trim_start s = rev r ++ rev w2).
    { rewrite <- (rev_involutive (trim_start s)), H2. apply rev_app_distr. }
    destruct (rev r) as [|x rr] eqn:Er; [reflexivity|].
    rewrite E in Hc1. exact Hc1.
  - rewrite rev_involutive. exact Hc2.
Qed.

Lemma spaced_strict (s : jsstring) :
  spaced false s = true -> starts_clean (rev s) = true -> spaced true s = true.
Proof.
  induction s as [|a s IH]; intros Hs Hr; [reflexivity|].
  cbn [spaced] in *. apply andb_true_iff in Hs as [Ha Hs].
  destruct s as [|b s].
  - cbn [rev app starts_clean] in Hr. apply negb_true_iff in Hr.
    rewrite Hr. reflexivity.
  - rewrite IH; [rewrite andb_true_r; exact Ha | exact Hs |].
    cbn [rev] in *. destruct (rev s ++ [b]) eqn:E; [now destruct (rev s)|].
    exact Hr.
Qed.

Lemma normalize_ws_normal (s : jsstring) : normal (normalize_ws s) = true.
Proof.
  unfold normal, normalize_ws.
  destruct (trim_split (collapse_ws false s)) as (w1 & w2 & E & _ & _ & Hc & Hr).
  rewrite Hc. cbn [andb]. apply spaced_strict; [|exact Hr].
  destruct (collapse_spaced s false) as [Hs _]. rewrite E in Hs.
  apply spaced_app_r in Hs. now apply spaced_app_l in Hs.
Qed.

(** X6: the text [getTranslatableText] returns never starts or ends with
    white space, and its only white space characters are single spaces
    standing between two other characters. *)
Theorem getTranslatableText_normal (element : node) :
  normal (fst (getTranslatableText element)) = true.
Proof. apply normalize_ws_normal. Qed.

Lemma collapse_normal (s : jsstring) :
  spaced false s = true ->
  forall in_run, (in_run = true -> starts_clean s = true) ->
                 collapse_ws in_run s = s.
Proof.
  induction s as [|c s IH]; intros Hs in_run Hc; [reflexivity|].
  cbn [spaced collapse_ws] in *. apply andb_true_iff in Hs as [Hx Hs].
  destruct (is_ws c) eqn:Ec.
  - cbn [implb] in Hx. apply andb_true_iff in Hx as [Hx1 Hx2].
    apply N.eqb_eq in Hx1. destruct in_run.
    + specialize (Hc eq_refl). cbn in Hc. rewrite Ec in Hc. discriminate.
    + subst c. f_equal. apply IH; [exact Hs|]. intros _.
      destruct s; [reflexivity | exact Hx2].
  - f_equal. apply IH; [exact Hs | discriminate].
Qed.

Lemma trim_start_clean (s : jsstring) :
  starts_clean s = true -> trim_start s = s.
Proof.
  destruct s as [|c s]; [reflexivity|]. cbn. intros H.
  apply negb_true_iff in H. now rewrite H.
Qed.

Lemma spaced_true_false (s : jsstring) : spaced true s = true -> spaced false s = true.
Proof.
  induction s as [|a s IH]; intros H; [reflexivity|].
  cbn [spaced] in *. apply andb_true_iff in H as [Ha Hs].
  rewrite (IH Hs), andb_true_r. destruct (is_ws a); [|reflexivity].
  cbn [implb] in *. apply andb_true_iff in Ha as [H1 H2]. rewrite H1.
  destruct s; [discriminate H2 | exact H2].
Qed.

Lemma spaced_true_end (s : jsstring) :
  spaced true s = true -> starts_clean (rev s) = true.
Proof.
  induction s as [|a s IH]; intros H; [reflexivity|].
  cbn [spaced] in H. apply andb_true_iff in H as [Ha Hs].
  specialize (IH Hs). cbn [rev]. destruct s as [|b s].
  - cbn. destruct (is_ws a); [|reflexivity]. cbn in Ha.
    rewrite andb_false_r in Ha. discriminate.
  - cbn [rev] in *. destruct (rev s ++ [b]) eqn:E; [now destruct (rev s)|].
    exact IH.
Qed.

(** X7: a text of that shape is left as it is by the normalization, so
    normalizing twice is normalizing once. *)
Theorem normalize_ws_idempotent (s : jsstring) :
  (normal s = true -> normalize_ws s = s)
  /\ normalize_ws (normalize_ws s) = normalize_ws s.
Proof.
  assert (H : forall u, normal u = true -> normalize_ws u = u).
  { intros u Hu. unfold normal in Hu. apply andb_true_iff in Hu as [Hc Hs].
    unfold normalize_ws, trim.
    rewrite (collapse_normal u (spaced_true_false u Hs) false) by discriminate.
    rewrite (trim_start_clean u Hc).
    rewrite (trim_start_clean (rev u) (spaced_true_end u Hs)).
    apply rev_involutive. }
  split; [apply H | apply H, normalize_ws_normal].
Qed.

Lemma normalize_ws_idempotent_witness :
  normal (lit "Hello world __CODE_0__") = true
  /\ (normal (lit "Hello world __CODE_0__") = true
      -> normalize_ws (lit "Hello world __CODE_0__") = lit "Hello world __CODE_0__")
  /\ normalize_ws (normalize_ws (lit "Hello world __CODE_0__"))
     = normalize_ws (lit "Hello world __CODE_0__").
Proof.
  split; [reflexivity|].
  apply (normalize_ws_idempotent (lit "Hello world __CODE_0__")).
Defined.

End NormalizeFacts.

(* ===================================================================== *)
(** ** Extraction followed by restoration *)
(* ===================================================================== *)

Module RoundTrip.

Import Regex Dom Content PatternFacts ShieldProofs NormalizeFacts.
Local Open Scope N_scope.

Lemma token_char_not_ws (c : N) : is_token_char c = true -> is_ws c = false.
Proof.
  intros H.
  assert (Hr : 48 <= c <= 95).
  { unfold is_token_char, c_underscore in H.
    destruct (N.eqb_spec c 95); [lia|].
    destruct (N.leb_spec 65 c), (N.leb_spec c 90), (N.leb_spec 48 c),
      (N.leb_spec c 57); cbn in H; try discriminate H; lia. }
  unfold is_ws.
  repeat match goal with
         | |- context [?a =? ?b] => rewrite (proj2 (N.eqb_neq a b)) by lia
         | |- context [?a <=? ?b] =>
             first [ rewrite (proj2 (N.leb_le a b)) by lia
                   | rewrite (proj2 (N.leb_gt a b)) by lia ]
         end.
  reflexivity.
Qed.

Lemma includes_app_r (needle s x : jsstring) :
  includes needle s -> includes needle (s ++ x).
Proof. intros (a & b & ->). exists a, (b ++ x). now rewrite <- !app_assoc. Qed.

Lemma includes_rev (needle s : jsstring) :
  includes needle s -> includes (rev needle) (rev s).
Proof.
  intros (a & b & ->). exists (rev b), (rev a).
  now rewrite !rev_app_distr, app_assoc.
Qed.

(** *** The token of a selected node is in the flattened text *)

Section OnePass.

Variable kind : jsstring.
Variable selected : node -> bool.

Lemma shielded_list_token (ch : list node) :
  Forall (fun n => forall i, select selected n <> [] ->
                   includes (token kind i)
                            (textContent (shielded kind selected i n))) ch ->
  forall i, select_list selected ch <> [] ->
            includes (token kind i)
                     (flat_map textContent (shielded_list kind selected i ch)).
Proof.
  induction 1 as [|c ch Hc _ IH]; intros i Hne; [now contradiction Hne|].
  cbn [shielded_list flat_map]. unfold select_list in Hne. cbn [flat_map] in Hne.
  destruct (select selected c) as [|x l] eqn:E.
  - cbn [length]. rewrite Nat.add_0_r. apply includes_app_l, IH. exact Hne.
  - apply includes_app_r. apply Hc. discriminate.
Qed.

Lemma shielded_token (n : node) :
  forall i, select selected n <> [] ->
            includes (token kind i) (textContent (shielded kind selected i n)).
Proof.
  induction n as [d|d|tag attrs ch IH] using node_ind'; intros i Hne;
    try now contradiction Hne.
  rewrite shielded_Elem. cbn [select] in Hne.
  destruct (selected (Elem tag attrs ch)).
  - cbn [textContent flat_map]. exists [c_space], [c_space].
    now rewrite app_nil_r.
  - cbn [textContent]. apply shielded_list_token; assumption.
Qed.

Lemma unselected_untouched (n : node) :
  select selected n = [] -> forall i, shielded kind selected i n = n.
Proof.
  induction n as [d|d|tag attrs ch IH] using node_ind'; intros Hs i;
    try reflexivity.
  rewrite shielded_Elem. cbn [select] in Hs.
  destruct (selected (Elem tag attrs ch)); [discriminate Hs|].
  cbn [app] in Hs. f_equal. revert i.
  induction IH as [|c ch Hc _ IHch]; intros i; [reflexivity|].
  cbn [flat_map] in Hs. apply app_eq_nil in Hs as [Hs1 Hs2].
  cbn [shielded_list]. now rewrite Hc, IHch.
Qed.

Lemma unselected_list_untouched (ch : list node) :
  select_list selected ch = [] ->
  forall i, shielded_list kind selected i ch = ch.
Proof.
  induction ch as [|c ch IH]; intros Hs i; [reflexivity|].
  unfold select_list in Hs. cbn [flat_map] in Hs.
  apply app_eq_nil in Hs as [Hs1 Hs2].
  cbn [shielded_list]. now rewrite unselected_untouched, IH.
Qed.

End OnePass.

(** The math pass makes no code node. *)
Lemma math_pass_no_code (n : node) :
  select matches_code n = [] ->
  forall i, select matches_code (shielded MATH matches_math i n) = [].
Proof.
  induction n as [d|d|tag attrs ch IH] using node_ind'; intros Hs i;
    try reflexivity.
  rewrite shielded_Elem. cbn [select] in Hs.
  destruct (matches_code (Elem tag attrs ch)) eqn:Ec; [discriminate Hs|].
  cbn [app] in Hs.
  destruct (matches_math (Elem tag attrs ch)).
  - cbn [select]. rewrite (matches_code_tag tag attrs _ attrs ch), Ec. reflexivity.
  - cbn [select]. rewrite (matches_code_tag tag attrs _ attrs ch), Ec.
    cbn [app]. revert i.
    induction IH as [|c ch Hc _ IHch]; intros i; [reflexivity|].
    cbn [flat_map] in Hs. apply app_eq_nil in Hs as [Hs1 Hs2].
    cbn [shielded_list flat_map]. now rewrite Hc, IHch.
Qed.

Lemma math_pass_list_no_code (ch : list node) :
  select_list matches_code ch = [] ->
  forall i, select_list matches_code (shielded_list MATH matches_math i ch) = [].
Proof.
  induction ch as [|c ch IH]; intros Hs i; [reflexivity|].
  unfold select_list in *. cbn [flat_map] in Hs.
  apply app_eq_nil in Hs as [Hs1 Hs2].
  cbn [shielded_list flat_map]. now rewrite math_pass_no_code, IH.
Qed.

(** *** The normalization keeps a word *)

Definition clean (t : jsstring) : bool := forallb (fun c => negb (is_ws c)) t.

Lemma collapse_app_clean (a : jsstring) :
  forall in_run x r,
    is_ws x = false ->
    collapse_ws in_run (a ++ x :: r)
    = collapse_ws in_run a ++ x :: collapse_ws false r.
Proof.
  induction a as [|c a IH]; intros in_run x r Hx; cbn [app collapse_ws].
  - now rewrite Hx.
  - destruct (is_ws c); [destruct in_run|]; cbn [app]; now rewrite IH.
Qed.

Lemma collapse_clean_prefix (t r : jsstring) :
  clean t = true -> collapse_ws false (t ++ r) = t ++ collapse_ws false r.
Proof.
  induction t as [|c t IH]; intros H; [reflexivity|].
  cbn [clean forallb] in H. apply andb_true_iff in H as [Hc Ht].
  apply negb_true_iff in Hc. cbn [app collapse_ws]. rewrite Hc.
  f_equal. now apply IH.
Qed.

Lemma trim_start_includes (x : N) (t s : jsstring) :
  is_ws x = false -> includes (x :: t) s -> includes (x :: t) (trim_start s).
Proof.
  intros Hx (a & b & ->). induction a as [|c a IH]; cbn [app trim_start].
  - rewrite Hx. exists [], b. reflexivity.
  - destruct (is_ws c); [exact IH | exists (c :: a), b; reflexivity].
Qed.

Lemma normalize_ws_includes (t s : jsstring) :
  t <> [] -> clean t = true -> includes t s -> includes t (normalize_ws s).
Proof.
  intros Hne Hc Hi. unfold normalize_ws, trim.
  destruct t as [|x t]; [congruence|].
  assert (Hx : is_ws x = false).
  { cbn [clean forallb] in Hc. apply andb_true_iff in Hc as [Hc _].
    now apply negb_true_iff in Hc. }
  assert (H1 : includes (x :: t) (trim_start (collapse_ws false s))).
  { apply trim_start_includes; [exact Hx|].
    destruct Hi as (a & b & ->). cbn [app].
    rewrite collapse_app_clean by exact Hx.
    rewrite collapse_clean_prefix.
    - eexists _, _. cbn [app]. reflexivity.
    - cbn [clean forallb] in Hc. now apply andb_true_iff in Hc as [_ Hc]. }
  rewrite <- (rev_involutive (x :: t)). apply includes_rev.
  apply includes_rev in H1.
  destruct (rev (x :: t)) as [|y u] eqn:E.
  - apply (f_equal (@length N)) in E. rewrite length_rev in E. discriminate E.
  - apply trim_start_includes; [|exact H1].
    assert (Hy : In y (x :: t)) by (apply in_rev; rewrite E; now left).
    unfold clean in Hc. rewrite forallb_forall in Hc.
    apply Hc in Hy. now apply negb_true_iff in Hy.
Qed.

Lemma documented_refl (t : jsstring) : Forall2 documented_variant t t.
Proof.
  induction t as [|c t IH]; [apply List.Forall2_nil|].
  apply List.Forall2_cons; [|exact IH].
  unfold documented_variant, documented_variantb.
  destruct (c =? c_underscore) eqn:E; [|apply N.eqb_refl].
  reflexivity.
Qed.

Lemma token_nonempty (kind : jsstring) (i : nat) : token kind i <> [].
Proof. unfold token. discriminate. Qed.

Lemma token_clean (kind : jsstring) (i : nat) :
  forallb is_token_char kind = true -> clean (token kind i) = true.
Proof.
  intros Hk. pose proof (token_chars kind i Hk) as H.
  unfold clean. rewrite forallb_forall in *. intros c Hc.
  apply negb_true_iff, token_char_not_ws, H, Hc.
Qed.

(** The text of an element with one selected node, after the pass that
    selects it, holds the node's token. *)
Lemma one_node_text (kind : jsstring) (selected : node -> bool)
    (ch : list node) (i : nat) :
  forallb is_token_char kind = true ->
  select_list selected ch <> [] ->
  includes (token kind i)
    (normalize_ws (flat_map textContent (shielded_list kind selected i ch))).
Proof.
  intros Hk Hs. apply normalize_ws_includes.
  - apply token_nonempty.
  - now apply token_clean.
  - apply shielded_list_token; [|exact Hs].
    apply Forall_forall. intros n _. apply shielded_token.
Qed.

(** A node that matches both kinds of selector is outside X8: for
    [<p>See <code class="math">x</code></p>] the restored text holds the
    math token where the content was, and the original markup nowhere. *)
Example both_kinds_markup_lost :
  restorePlaceholders (fst (getTranslatableText math_in_code_tag))
                      (snd (getTranslatableText math_in_code_tag))
  = Some (lit "See "
          ++ wrapper (lit "<code class=" ++ [c_quot] ++ lit "math" ++ [c_quot]
                      ++ lit "> __MATH_0__ </code>"))
  /\ ~ includes (outerHTML (Elem (lit "code") [(lit "class", lit "math")]
                              [Text (lit "x")]))
         (lit "See "
          ++ wrapper (lit "<code class=" ++ [c_quot] ++ lit "math" ++ [c_quot]
                      ++ lit "> __MATH_0__ </code>")).
Proof.
  split; [vm_compute; reflexivity|].
  intros Hin. apply includesb_spec in Hin. vm_compute in Hin. discriminate.
Qed.

(** X8: extraction followed by restoration, when the translator hands the
    text back as it got it.  Take an element in which exactly one node [m]
    matches the math or the code selectors, and [m] matches one kind only:
    either [m] is the only node matching the math selectors and no node
    matches the code selectors, or the other way round.  If the markup of
    [m] holds no dollar sign, [restorePlaceholders] applied to the text and
    the map of [getTranslatableText] succeeds and its result holds the
    original markup of [m] inside the protecting wrapper.  (A node matching
    both kinds of selector is not covered: see [both_kinds_markup_lost].) *)
Theorem extract_then_restore (element m : node) :
  (select_list matches_math (children_of element) = [m]
   /\ select_list matches_code (children_of element) = [])
  \/ (select_list matches_math (children_of element) = []
      /\ select_list matches_code (children_of element) = [m]) ->
  dollar_free (outerHTML m) = true ->
  exists out,
    restorePlaceholders (fst (getTranslatableText element))
                        (snd (getTranslatableText element)) = Some out
    /\ includes (wrapper (outerHTML m)) out.
Proof.
  intros Hone Hdf. rewrite getTranslatableText_passes. cbn zeta. cbn [fst snd].
  destruct element as [d|d|tag attrs ch];
    try (destruct Hone as [[H _]|[_ H]]; discriminate H).
  cbn [children_of with_children textContent] in *.
  assert (Hgo : forall kind text,
             forallb is_token_char kind = true ->
             includes (token kind 0) text ->
             exists out,
               restorePlaceholders text [(token kind 0, outerHTML m)] = Some out
               /\ includes (wrapper (outerHTML m)) out).
  { intros kind text Hk (a & b & ->).
    destruct (restore_replaces_drifted (token kind 0) (outerHTML m)
                (token kind 0) a b (token_chars kind 0 Hk))
      as (out & _ & _ & _ & Ho & _ & _ & Hi).
    - eapply drifted_mono; [apply documented_accepted|].
      apply drifted_same_length; [apply token_nonempty | apply documented_refl].
    - exists out. split; [exact Ho | now apply Hi]. }
  destruct Hone as [[Hm Hc]|[Hm Hc]].
  - rewrite (math_pass_list_no_code ch Hc), Hm. cbn [length entries_of app].
    rewrite (unselected_list_untouched CODE matches_code)
      by now apply math_pass_list_no_code.
    apply Hgo; [apply CodecExtras.MATH_chars|].
    apply (one_node_text MATH matches_math ch 0 CodecExtras.MATH_chars). now rewrite Hm.
  - rewrite (unselected_list_untouched MATH matches_math ch Hm), Hm, Hc.
    cbn [length entries_of app].
    apply Hgo; [apply CodecExtras.CODE_chars|].
    apply (one_node_text CODE matches_code ch 0 CodecExtras.CODE_chars). now rewrite Hc.
Qed.

Lemma extract_then_restore_witness :
  exists out,
    restorePlaceholders (fst (getTranslatableText hello_code))
                        (snd (getTranslatableText hello_code)) = Some out
    /\ includes (wrapper (outerHTML (Elem (lit "code") [] [Text (lit "x=1")]))) out.
Proof.
  apply (extract_then_restore hello_code (Elem (lit "code") [] [Text (lit "x=1")])).
  - right. split; reflexivity.
  - reflexivity.
Defined.

End RoundTrip.

(* ===================================================================== *)
(** ** More on the page pass *)
(* ===================================================================== *)

Module PageExtras.

Import Dom Content Background Session SessionProofs.

(** *** What [collectTargetElements] returns *)

Lemma collect_from_spec (page : list fragment) :
  forall i k,
    In k (collect_from i page)
    <-> i <= k /\ exists f, page !! (k - i) = Some f /\ eligible f = true.
Proof.
  induction page as [|f page IH]; intros i k.
  - cbn. split; [tauto | intros (_ & g & H & _); discriminate H].
  - assert (Hrest : In k (collect_from (S i) page)
                    <-> i < k /\ exists g, (f :: page) !! (k - i) = Some g
                                           /\ eligible g = true).
    { rewrite IH. split.
      - intros (Hk & g & Hg & He). split; [lia|]. exists g.
        replace (k - i) with (S (k - S i)) by lia. now split.
      - intros (Hk & g & Hg & He). split; [lia|]. exists g.
        replace (k - i) with (S (k - S i)) in Hg by lia. now split. }
    cbn [collect_from]. destruct (eligible f) eqn:Ef.
    + cbn [In]. rewrite Hrest. split.
      * intros [<- | (Hk & H)]; [|split; [lia | exact H]].
        split; [lia|]. exists f. rewrite Nat.sub_diag. now split.
      * intros (Hk & g & Hg & He).
        destruct (Nat.eq_dec i k) as [->|Hne]; [now left|].
        right. split; [lia|]. now exists g.
    + rewrite Hrest. split.
      * intros (Hk & H). split; [lia | exact H].
      * intros (Hk & g & Hg & He).
        destruct (Nat.eq_dec i k) as [->|Hne]; [|split; [lia | now exists g]].
        rewrite Nat.sub_diag in Hg. cbn in Hg. injection Hg as <-. congruence.
Qed.

Lemma collect_from_sorted (page : list fragment) :
  forall i, StronglySorted lt (collect_from i page).
Proof.
  induction page as [|f page IH]; intros i; [constructor|].
  cbn [collect_from]. destruct (eligible f); [|apply IH].
  constructor; [apply IH|]. apply List.Forall_forall. intros k Hk.
  apply collect_from_spec in Hk. lia.
Qed.

(** The tests of the loop, one by one. *)
Lemma matches_target_spec (n : node) :
  matches_target n = true
  <-> exists tag attrs ch, n = Elem tag attrs ch /\ In tag TARGET_SELECTORS.
Proof.
  destruct n as [d|d|tag attrs ch]; cbn [matches_target].
  - split; [discriminate | intros (? & ? & ? & H & _); discriminate H].
  - split; [discriminate | intros (? & ? & ? & H & _); discriminate H].
  - rewrite existsb_exists. split.
    + intros (x & Hx & E). apply bool_decide_eq_true in E. subst x.
      now exists tag, attrs, ch.
    + intros (tag' & attrs' & ch' & E & Hin). injection E as <- <- <-.
      exists tag. split; [exact Hin | now apply bool_decide_eq_true].
Qed.

Lemma hasAttribute_false (name : jsstring) (n : node) :
  hasAttribute name n = false <-> getAttribute name (attrs_of n) = None.
Proof.
  unfold hasAttribute. destruct (getAttribute name (attrs_of n));
    split; congruence.
Qed.

Lemma text_test_spec (text : jsstring) :
  nonempty text && negb (length text <? 2) && negb (isMainlyJapanese text) = true
  <-> 2 <= length text
      /\ 10 * length (List.filter japanese text) <= 3 * length text.
Proof.
  unfold isMainlyJapanese.
  rewrite !andb_true_iff, !negb_true_iff, Nat.ltb_ge.
  destruct (List.filter japanese text) as [|c m] eqn:Ef.
  - split.
    + intros [[_ Hl] _]. split; [exact Hl | cbn; lia].
    + intros [Hl _]. split; [split; [|exact Hl] | reflexivity].
      destruct text; [cbn in Hl; lia | reflexivity].
  - rewrite Nat.ltb_ge. split.
    + intros [[_ Hl] Hj]. now split.
    + intros [Hl Hj]. split; [split; [|exact Hl] | exact Hj].
      destruct text; [cbn in Hl; lia | reflexivity].
Qed.

(** X9: which elements [collectTargetElements] returns.  It returns, each
    once and in document order, exactly the elements whose tag is one of
    the sixteen of [TARGET_SELECTORS], that do not carry the attribute
    [data-immersive-translated], that neither match [EXCLUDE_SELECTORS] nor
    lie inside an element that does, and whose extracted text has at least
    two code units, of which at most three in ten are kana or CJK
    ideographs. *)
Theorem collectTargetElements_spec (page : list fragment) :
  StronglySorted lt (collectTargetElements page)
  /\ forall k,
       In k (collectTargetElements page)
       <-> exists f tag attrs ch,
             page !! k = Some f
             /\ f_node f = Elem tag attrs ch
             /\ In tag (List.map lit
                          ["p"; "h1"; "h2"; "h3"; "h4"; "h5"; "h6"; "li"; "td";
                           "th"; "blockquote"; "caption"; "dd"; "dt";
                           "figcaption"; "summary"]%string)
             /\ getAttribute (lit "data-immersive-translated") attrs = None
             /\ matches_exclude (f_node f) = false
             /\ f_inside_excluded f = false
             /\ 2 <= length (fst (getTranslatableText (f_node f)))
             /\ 10 * length (List.filter japanese
                               (fst (getTranslatableText (f_node f))))
                <= 3 * length (fst (getTranslatableText (f_node f))).
Proof.
  split; [apply collect_from_sorted|]. intros k.
  unfold collectTargetElements. rewrite collect_from_spec, Nat.sub_0_r.
  assert (He : forall f,
             eligible f = true
             <-> exists tag attrs ch,
                   f_node f = Elem tag attrs ch
                   /\ In tag TARGET_SELECTORS
                   /\ getAttribute TRANSLATED_ATTR attrs = None
                   /\ matches_exclude (f_node f) = false
                   /\ f_inside_excluded f = false
                   /\ 2 <= length (fst (getTranslatableText (f_node f)))
                   /\ 10 * length (List.filter japanese
                                     (fst (getTranslatableText (f_node f))))
                      <= 3 * length (fst (getTranslatableText (f_node f)))).
  { intros f. unfold eligible. cbv zeta.
    rewrite andb_true_iff, text_test_spec, !andb_true_iff, !negb_true_iff,
      orb_false_iff, matches_target_spec, hasAttribute_false.
    split.
    - intros [[[(tag & attrs & ch & E & Hin) Hm] [Hx Hi]] [Hl Hj]].
      exists tag, attrs, ch. rewrite E in Hm. cbn [attrs_of] in Hm.
      repeat (split; [assumption|]). assumption.
    - intros (tag & attrs & ch & E & Hin & Hm & Hx & Hi & Hl & Hj).
      split; [split; [split|]|].
      + now exists tag, attrs, ch.
      + rewrite E. exact Hm.
      + now split.
      + now split. }
  split.
  - intros (_ & f & Hf & Hel). apply He in Hel
      as (tag & attrs & ch & H). exists f, tag, attrs, ch. now split.
  - intros (f & tag & attrs & ch & Hf & H). split; [lia|].
    exists f. split; [exact Hf|]. apply He. now exists tag, attrs, ch.
Qed.

(** *** What the extension adds to the page is all it changes *)

(** The element without the marker attribute. *)
Definition strip (n : node) : node :=
  match n with
  | Elem tag attrs ch => Elem tag (removeAttribute TRANSLATED_ATTR attrs) ch
  | other => other
  end.

(** What the three sweeps of [removeAllTranslations] make of one element. *)
Definition cleaned (f : fragment) : fragment :=
  clear_marker (remove_siblings is_loader (remove_siblings is_translation f)).

Lemma cleaned_eq (f : fragment) :
  cleaned f = mkFragment (strip (f_node f)) (f_inside_excluded f) [].
Proof.
  destruct f as [n e a].
  unfold cleaned, clear_marker, map_attrs, remove_siblings, strip.
  cbn [f_node f_after f_inside_excluded]. f_equal; [now destruct n|].
  induction a as [|x after IH]; [reflexivity|].
  destruct x; cbn [List.filter is_translation is_loader negb]; exact IH.
Qed.

Lemma removeAllTranslations_doc (s : session) :
  doc (removeAllTranslations s) = List.map cleaned (doc s).
Proof.
  unfold removeAllTranslations. cbn [set_isTranslated doc].
  rewrite !List.map_map. reflexivity.
Qed.

Lemma removeAttribute_setAttribute (name value : jsstring) attrs :
  removeAttribute name (setAttribute name value attrs) = removeAttribute name attrs.
Proof.
  unfold removeAttribute. induction attrs as [|[k v] attrs IH]; cbn.
  - unfold eqs. rewrite bool_decide_eq_true_2 by reflexivity. reflexivity.
  - destruct (eqs k name) eqn:E; cbn; rewrite E; cbn; [reflexivity | now f_equal].
Qed.

Lemma removeAttribute_idem (name : jsstring) attrs :
  removeAttribute name (removeAttribute name attrs) = removeAttribute name attrs.
Proof.
  unfold removeAttribute. induction attrs as [|[k v] attrs IH]; [reflexivity|].
  cbn. destruct (eqs k name) eqn:E; cbn; [exact IH|]. rewrite E. cbn. now f_equal.
Qed.

Lemma removeAttribute_absent (name : jsstring) attrs :
  getAttribute name attrs = None -> removeAttribute name attrs = attrs.
Proof.
  unfold removeAttribute. induction attrs as [|[k v] attrs IH]; [reflexivity|].
  cbn. destruct (eqs k name); [discriminate|]. cbn. intros H. f_equal. now apply IH.
Qed.

Lemma getAttribute_removeAttribute (name : jsstring) attrs :
  getAttribute name (removeAttribute name attrs) = None.
Proof.
  unfold removeAttribute. induction attrs as [|[k v] attrs IH]; [reflexivity|].
  cbn. destruct (eqs k name) eqn:E; cbn; [exact IH|]. now rewrite E.
Qed.

(** The operations of a pass keep the element apart from its marker and
    the nodes inserted after it. *)
Definition keeps_base (g : fragment -> fragment) : Prop :=
  forall f, cleaned (g f) = cleaned f.

Lemma keeps_set_marker value : keeps_base (set_marker value).
Proof.
  intros [n e a]. rewrite !cleaned_eq. unfold set_marker, map_attrs. cbn.
  destruct n; cbn; try reflexivity. now rewrite removeAttribute_setAttribute.
Qed.

Lemma keeps_clear_marker : keeps_base clear_marker.
Proof.
  intros [n e a]. rewrite !cleaned_eq. unfold clear_marker, map_attrs. cbn.
  destruct n; cbn; try reflexivity. now rewrite removeAttribute_idem.
Qed.

Lemma keeps_showLoadingIndicator : keeps_base showLoadingIndicator.
Proof.
  intros [n e a]. rewrite !cleaned_eq. unfold showLoadingIndicator. cbn.
  destruct a as [|[|] a]; reflexivity.
Qed.

Lemma keeps_removeLoadingIndicator : keeps_base removeLoadingIndicator.
Proof.
  intros [n e a]. rewrite !cleaned_eq. unfold removeLoadingIndicator. cbn.
  destruct a as [|[|] a]; reflexivity.
Qed.

Lemma keeps_insertTranslation content : keeps_base (insertTranslation content).
Proof. intros [n e a]. rewrite !cleaned_eq. reflexivity. Qed.

Lemma keeps_compose g h : keeps_base g -> keeps_base h -> keeps_base (fun f => g (h f)).
Proof. intros Hg Hh f. now rewrite Hg, Hh. Qed.

Lemma cleaned_alter g (el : nat) (page : list fragment) :
  keeps_base g -> List.map cleaned (alter g el page) = List.map cleaned page.
Proof.
  intros Hg. revert el. induction page as [|f page IH]; intros el; [reflexivity|].
  destruct el as [|el]; cbn.
  - now rewrite Hg.
  - f_equal. apply IH.
Qed.

Lemma cleaned_fold g (batch : list nat) :
  keeps_base g ->
  forall page,
    List.map cleaned (fold_left (fun d el => alter g el d) batch page)
    = List.map cleaned page.
Proof.
  intros Hg. induction batch as [|el batch IH]; intros page; [reflexivity|].
  cbn [fold_left]. rewrite IH. now apply cleaned_alter.
Qed.

Lemma cleaned_insert_results translated batch :
  forall index page,
    List.map cleaned (snd (insert_results translated batch index page))
    = List.map cleaned page.
Proof.
  induction batch as [|[el placeholderMap] batch IH]; intros index page;
    [reflexivity|].
  cbn [insert_results].
  pose proof (cleaned_alter removeLoadingIndicator el page
                keeps_removeLoadingIndicator) as H1.
  destruct (translated_at translated index) as [item|]; [|exact H1].
  destruct (truthy item).
  - destruct item; try exact H1.
    destruct (restorePlaceholders s placeholderMap); [|exact H1].
    rewrite IH, cleaned_alter; [exact H1|].
    apply (keeps_compose (set_marker MARK_DONE) (insertTranslation _));
      [apply keeps_set_marker | apply keeps_insertTranslation].
  - now rewrite IH.
Qed.

Lemma cleaned_revert_batch batch page :
  List.map cleaned (revert_batch batch page) = List.map cleaned page.
Proof.
  apply cleaned_fold.
  apply (keeps_compose clear_marker removeLoadingIndicator);
    [apply keeps_clear_marker | apply keeps_removeLoadingIndicator].
Qed.

Lemma cleaned_mark_loading batch page :
  List.map cleaned (mark_loading batch page) = List.map cleaned page.
Proof.
  apply cleaned_fold.
  apply (keeps_compose showLoadingIndicator (set_marker MARK_LOADING));
    [apply keeps_showLoadingIndicator | apply keeps_set_marker].
Qed.

Lemma cleaned_translate_batch sendMessage batch (s : session) :
  List.map cleaned (doc (translate_batch sendMessage batch s))
  = List.map cleaned (doc s).
Proof.
  unfold translate_batch. cbn [doc].
  destruct (sendMessage _ _) as [|error translated].
  - now rewrite cleaned_revert_batch, cleaned_mark_loading.
  - destruct (truthy error).
    + now rewrite cleaned_revert_batch, cleaned_mark_loading.
    + destruct (insert_results _ _ _ _) as [ok page'] eqn:E.
      pose proof (cleaned_insert_results translated
                    (combine batch
                       (List.map snd
                          (List.map (fun el => getTranslatableText (node_at (doc s) el))
                                    batch)))
                    0 (mark_loading batch (doc s))) as H.
      rewrite E in H. cbn [snd] in H. rewrite cleaned_mark_loading in H.
      destruct ok; [exact H | now rewrite cleaned_revert_batch].
Qed.

Lemma cleaned_batch_loop sendMessage targets fuel :
  forall i s,
    List.map cleaned (doc (batch_loop sendMessage fuel targets i s))
    = List.map cleaned (doc s).
Proof.
  induction fuel as [|fuel IH]; intros i s; [reflexivity|].
  cbn [batch_loop]. destruct (i <? length targets); [|reflexivity].
  now rewrite IH, cleaned_translate_batch.
Qed.

Lemma cleaned_translatePage sendMessage (s : session) :
  List.map cleaned (doc (translatePage sendMessage s)) = List.map cleaned (doc s).
Proof.
  unfold translatePage. destruct (isTranslating s); [reflexivity|].
  destruct (collectTargetElements _); [reflexivity|].
  cbn [set_isTranslating set_isTranslated doc].
  now rewrite cleaned_batch_loop.
Qed.

(** A page the extension has not touched: no inserted node, no marker. *)
Definition untouched (f : fragment) : bool :=
  match f_after f with [] => true | _ => false end
  && negb (hasAttribute TRANSLATED_ATTR (f_node f)).

Lemma cleaned_untouched (f : fragment) : untouched f = true -> cleaned f = f.
Proof.
  intros H. rewrite cleaned_eq. destruct f as [n e a]. unfold untouched in H.
  cbn [f_node f_after f_inside_excluded] in *. apply andb_true_iff in H as [Ha Hn].
  destruct a; [|discriminate]. f_equal.
  destruct n as [d|d|tag attrs ch]; try reflexivity.
  unfold hasAttribute in Hn. cbn [attrs_of strip] in *.
  rewrite removeAttribute_absent; [reflexivity|].
  now destruct (getAttribute TRANSLATED_ATTR attrs).
Qed.

Lemma cleaned_page_untouched (page : list fragment) :
  forallb untouched page = true -> List.map cleaned page = page.
Proof.
  induction page as [|f page IH]; [reflexivity|]. cbn.
  intros H. apply andb_true_iff in H as [Hf Hp].
  now rewrite cleaned_untouched, IH.
Qed.

(** X10: [removeAllTranslations] undoes a page pass.  Whatever the service
    worker answered, the page after [translatePage] followed by
    [removeAllTranslations] is the page [removeAllTranslations] alone would
    have left: no pass changes anything but the marker attribute and the
    nodes inserted after the elements.  The cleaned page carries no inserted
    node and no marker, and a page the extension had not touched is back
    exactly as it was. *)
Theorem removeAllTranslations_undoes_pass sendMessage (s : session) :
  let s' := removeAllTranslations (translatePage sendMessage s) in
  doc s' = doc (removeAllTranslations s)
  /\ forallb untouched (doc s') = true
  /\ isTranslated s' = false
  /\ (forallb untouched (doc s) = true -> doc s' = doc s).
Proof.
  cbn zeta. rewrite !removeAllTranslations_doc, cleaned_translatePage.
  split; [reflexivity|]. split; [|split; [reflexivity|]].
  - induction (doc s) as [|f page IH]; [reflexivity|].
    cbn [List.map forallb]. rewrite IH, andb_true_r, cleaned_eq.
    unfold untouched, hasAttribute. cbn [f_node f_after andb].
    destruct (f_node f) as [d|d|tag attrs ch]; try reflexivity.
    cbn [strip attrs_of].
    now rewrite getAttribute_removeAttribute.
  - apply cleaned_page_untouched.
Qed.

Lemma removeAllTranslations_undoes_pass_witness :
  let s := mkSession hello_page false false 0 [] in
  let s' := removeAllTranslations (translatePage shouting s) in
  forallb untouched (doc s) = true
  /\ doc s' = doc (removeAllTranslations s)
  /\ forallb untouched (doc s') = true
  /\ isTranslated s' = false
  /\ (forallb untouched (doc s) = true -> doc s' = doc s).
Proof.
  split; [reflexivity|].
  apply (removeAllTranslations_undoes_pass shouting
           (mkSession hello_page false false 0 [])).
Defined.

(** *** Loading indicators *)

Definition no_loader (f : fragment) : bool :=
  forallb (fun x => negb (is_loader x)) (f_after f).

(** One indicator, right after the element, and none behind it. *)
Definition loader_first (f : fragment) : Prop :=
  exists rest, f_after f = Loader :: rest
               /\ forallb (fun x => negb (is_loader x)) rest = true.

(** During a batch: an indicator stands only right after an element that
    awaits its answer. *)
Definition pending (awaiting : nat -> Prop) (page : list fragment) : Prop :=
  forall i f, page !! i = Some f ->
              no_loader f = true \/ (awaiting i /\ loader_first f).

Lemma pending_mono (P Q : nat -> Prop) page :
  (forall i, P i -> Q i) -> pending P page -> pending Q page.
Proof.
  intros HPQ H i f Hf. destruct (H i f Hf) as [Hn | [Hp Hl]]; [now left|].
  right. split; [now apply HPQ | exact Hl].
Qed.

Lemma pending_alter (P Q : nat -> Prop) g (el : nat) page :
  pending P page ->
  (forall f, no_loader f = true \/ (P el /\ loader_first f) ->
             no_loader (g f) = true \/ (Q el /\ loader_first (g f))) ->
  (forall i, i <> el -> P i -> Q i) ->
  pending Q (alter g el page).
Proof.
  intros Hp Hg HPQ i f' Hf'. destruct (Nat.eq_dec i el) as [->|Hne].
  - rewrite list_lookup_alter_eq in Hf'.
    destruct (page !! el) as [f|] eqn:Ef; cbn in Hf'; [|discriminate Hf'].
    injection Hf' as <-. apply Hg. now apply Hp.
  - rewrite list_lookup_alter_ne in Hf' by congruence.
    destruct (Hp i f' Hf') as [Hn | [HP Hl]]; [now left|].
    right. split; [now apply HPQ | exact Hl].
Qed.

Lemma removeLoadingIndicator_no_loader (P : Prop) (f : fragment) :
  no_loader f = true \/ (P /\ loader_first f) ->
  no_loader (removeLoadingIndicator f) = true.
Proof.
  destruct f as [n e a]. unfold no_loader, loader_first, removeLoadingIndicator.
  cbn [f_after]. intros [Hn | (_ & rest & -> & Hr)]; [|exact Hr].
  destruct a as [|[|] a]; [reflexivity | discriminate Hn | exact Hn].
Qed.

Lemma no_loader_set_marker value (f : fragment) :
  no_loader (set_marker value f) = no_loader f.
Proof. reflexivity. Qed.

Lemma no_loader_clear_marker (f : fragment) :
  no_loader (clear_marker f) = no_loader f.
Proof. reflexivity. Qed.

Lemma no_loader_insertTranslation content (f : fragment) :
  no_loader f = true -> no_loader (insertTranslation content f) = true.
Proof.
  destruct f as [n e a]. unfold no_loader, insertTranslation. cbn [f_after].
  intros H. destruct a as [|[|] a]; [reflexivity | discriminate H | exact H].
Qed.

Lemma pending_mark_loading (P : nat -> Prop) (batch : list nat) :
  forall page,
    (forall el, In el batch -> P el) ->
    pending P page -> pending P (mark_loading batch page).
Proof.
  unfold mark_loading. induction batch as [|el batch IH]; intros page HP Hp;
    [exact Hp|].
  cbn [fold_left]. apply IH; [intros x Hx; apply HP; now right|].
  apply (pending_alter P P); [exact Hp | | tauto].
  intros [n e a] H. unfold showLoadingIndicator, set_marker, map_attrs.
  cbn [f_node f_after f_inside_excluded].
  unfold no_loader, loader_first in *. cbn [f_after] in *.
  destruct H as [Hn | (_ & rest & -> & Hr)].
  - destruct a as [|[|] a]; try discriminate Hn.
    + right. split; [apply HP; now left|]. exists []. now split.
    + right. split; [apply HP; now left|]. eexists. split; [reflexivity | exact Hn].
  - right. split; [apply HP; now left|]. exists rest. now split.
Qed.

Lemma pending_revert_batch (batch : list nat) :
  forall (P : nat -> Prop) page,
    pending P page ->
    pending (fun i => P i /\ ~ In i batch) (revert_batch batch page).
Proof.
  unfold revert_batch. induction batch as [|el batch IH]; intros P page Hp.
  - cbn [fold_left]. eapply pending_mono; [|exact Hp]. cbn. tauto.
  - cbn [fold_left].
    eapply pending_mono;
      [|apply (IH (fun i => P i /\ i <> el)),
          (pending_alter P (fun i => P i /\ i <> el)); [exact Hp| |]].
    + cbn. intros i [[HP Hne] Hni]. split; [exact HP|]. intros [->|Hi]; tauto.
    + intros f H. left. rewrite no_loader_clear_marker.
      eapply removeLoadingIndicator_no_loader, H.
    + tauto.
Qed.

Lemma pending_insert_results translated batch :
  forall (P : nat -> Prop) index page,
    pending P page ->
    pending P (snd (insert_results translated batch index page))
    /\ (fst (insert_results translated batch index page) = true ->
        pending (fun i => P i /\ ~ In i (List.map fst batch))
                (snd (insert_results translated batch index page))).
Proof.
  induction batch as [|[el placeholderMap] batch IH]; intros P index page Hp.
  - cbn. split; [exact Hp|]. intros _. eapply pending_mono; [|exact Hp]. cbn. tauto.
  - cbn [insert_results List.map fst].
    assert (H1 : pending (fun i => P i /\ i <> el)
                   (alter removeLoadingIndicator el page)).
    { apply (pending_alter P); [exact Hp | | tauto].
      intros f H. left. eapply removeLoadingIndicator_no_loader, H. }
    assert (Hw : forall page',
               pending (fun i => P i /\ i <> el) page' ->
               pending P (snd (insert_results translated batch (S index) page'))
               /\ (fst (insert_results translated batch (S index) page') = true ->
                   pending (fun i => P i /\ ~ In i (el :: List.map fst batch))
                     (snd (insert_results translated batch (S index) page')))).
    { intros page' Hp'. destruct (IH _ (S index) page' Hp') as [Ha Hb]. split.
      - eapply pending_mono; [|exact Ha]. cbn. tauto.
      - intros Hok. eapply pending_mono; [|exact (Hb Hok)]. cbn.
        intros i [[HP Hne] Hni]. split; [exact HP|]. intros [->|Hi]; tauto. }
    assert (Hstop : pending P (alter removeLoadingIndicator el page)).
    { eapply pending_mono; [|exact H1]. cbn. tauto. }
    destruct (translated_at translated index) as [item|];
      [|split; [exact Hstop | discriminate]].
    destruct (truthy item); [|now apply Hw].
    destruct item; try (split; [exact Hstop | discriminate]).
    destruct (restorePlaceholders s placeholderMap);
      [|split; [exact Hstop | discriminate]].
    apply Hw.
    intros i f' Hf'. destruct (Nat.eq_dec i el) as [->|Hne].
    + left. rewrite list_lookup_alter_eq in Hf'.
      destruct (alter removeLoadingIndicator el page !! el) as [f|] eqn:Ef;
        cbn in Hf'; [|discriminate Hf'].
      injection Hf' as <-.
      rewrite no_loader_set_marker. apply no_loader_insertTranslation.
      destruct (H1 el f Ef) as [Hn | [[_ Hne] _]]; [exact Hn | congruence].
    + rewrite list_lookup_alter_ne in Hf' by congruence. now apply H1.
Qed.

Lemma pending_none (page : list fragment) :
  pending (fun _ => False) page <-> forallb no_loader page = true.
Proof.
  rewrite forallb_forall. split.
  - intros H f Hf. apply list_elem_of_In, list_elem_of_lookup in Hf as [i Hi].
    destruct (H i f Hi) as [Hn | [[] _]]. exact Hn.
  - intros H i f Hf. left. apply H. eapply list_elem_of_In, list_elem_of_lookup_2, Hf.
Qed.

Lemma combine_fst (A B : Type) (l : list A) (l' : list B) :
  length l = length l' -> List.map fst (combine l l') = l.
Proof.
  revert l'. induction l as [|a l IH]; intros [|b l'] H; try discriminate H;
    [reflexivity|]. cbn. f_equal. apply IH. now injection H.
Qed.

Lemma translate_batch_no_loader sendMessage batch (s : session) :
  forallb no_loader (doc s) = true ->
  forallb no_loader (doc (translate_batch sendMessage batch s)) = true.
Proof.
  intros H. apply pending_none in H. apply pending_none.
  assert (Hm : pending (fun i => In i batch) (mark_loading batch (doc s))).
  { apply pending_mark_loading; [tauto|].
    apply (pending_mono (fun _ => False)); [intros i [] | exact H]. }
  assert (Hr : forall page, pending (fun i => In i batch) page ->
                            pending (fun _ => False) (revert_batch batch page)).
  { intros page Hp. eapply pending_mono; [|apply pending_revert_batch, Hp].
    cbn. tauto. }
  unfold translate_batch. cbn [doc].
  destruct (sendMessage _ _) as [|error translated]; [now apply Hr|].
  destruct (truthy error); [now apply Hr|].
  match goal with
  | |- context [insert_results ?t ?b ?n ?d] =>
      destruct (pending_insert_results t b (fun el => In el batch) n d Hm) as [Ha Hb];
      destruct (insert_results t b n d) as [ok page']
  end.
  cbn [fst snd] in *. destruct ok; [|now apply Hr].
  eapply pending_mono; [|exact (Hb eq_refl)]. cbn.
  rewrite combine_fst by now rewrite !length_map. tauto.
Qed.

Lemma batch_loop_no_loader sendMessage targets fuel :
  forall i s,
    forallb no_loader (doc s) = true ->
    forallb no_loader (doc (batch_loop sendMessage fuel targets i s)) = true.
Proof.
  induction fuel as [|fuel IH]; intros i s H; [exact H|].
  cbn [batch_loop]. destruct (i <? length targets); [|exact H].
  now apply IH, translate_batch_no_loader.
Qed.

(** X11: a page pass leaves no loading indicator behind.  If the page
    holds none before [translatePage], it holds none after it, whatever the
    service worker answers to each batch: an error, a rejected promise, an
    answer of the wrong shape or too short, or translations. *)
Theorem translatePage_no_loader sendMessage (s : session) :
  forallb no_loader (doc s) = true ->
  forallb no_loader (doc (translatePage sendMessage s)) = true.
Proof.
  intros H. unfold translatePage. destruct (isTranslating s); [exact H|].
  destruct (collectTargetElements _); [exact H|].
  cbn [set_isTranslating set_isTranslated doc].
  now apply batch_loop_no_loader.
Qed.

Lemma translatePage_no_loader_witness :
  forallb no_loader hello_page = true
  /\ forallb no_loader
       (doc (translatePage shouting (mkSession hello_page false false 0 [])))
     = true.
Proof.
  split; [reflexivity|].
  apply (translatePage_no_loader shouting (mkSession hello_page false false 0 [])).
  reflexivity.
Defined.

End PageExtras.

(* ===================================================================== *)
(** ** What a pass sends and what it leaves alone *)
(* ===================================================================== *)

Module PassExtras.

Import Dom Content Background Session SessionProofs PageExtras.

Lemma batch_loop_sent sendMessage targets fuel :
  forall i s,
    length targets <= i + pageBatchSize * fuel ->
    sent (batch_loop sendMessage fuel targets i s)
    = sent s + (length targets - i + 19) / 20.
Proof.
  unfold pageBatchSize.
  induction fuel as [|fuel IH]; intros i s Hl; cbn [batch_loop].
  - replace (length targets - i) with 0 by lia. cbn. lia.
  - destruct (Nat.ltb_spec i (length targets)) as [Hlt|Hge].
    + rewrite IH by (unfold pageBatchSize; lia).
      unfold translate_batch, pageBatchSize. cbn [sent].
      destruct (Nat.le_gt_cases (i + 20) (length targets)) as [Hfull|Hlast].
      * replace (length targets - i + 19)
          with (length targets - (i + 20) + 19 + 1 * 20) by lia.
        rewrite Nat.div_add by lia. lia.
      * replace (length targets - (i + 20)) with 0 by lia.
        rewrite (Nat.div_small (0 + 19)) by lia.
        assert (H1 : (length targets - i + 19) / 20 = 1).
        { symmetry. apply (Nat.div_unique _ 20 1 (length targets - i - 1)); lia. }
        lia.
    + replace (length targets - i) with 0 by lia. cbn. lia.
Qed.

(** X12: a page pass sends one TRANSLATE message for every twenty collected
    elements, the last batch possibly shorter: [ceil(n / 20)] messages for
    [n] elements, whatever the answers are.  A pass that starts while
    another one runs sends nothing and changes nothing. *)
Theorem translatePage_sent sendMessage (s : session) :
  (isTranslating s = false ->
   sent (translatePage sendMessage s)
   = sent s + (length (collectTargetElements (doc s)) + 19) / 20)
  /\ (isTranslating s = true -> translatePage sendMessage s = s).
Proof.
  unfold translatePage. split; intros ->; [|reflexivity].
  cbn [set_isTranslating doc].
  destruct (collectTargetElements (doc s)) as [|t targets] eqn:E.
  { cbn [set_isTranslating sent length Nat.add].
    rewrite (Nat.div_small 19 20) by lia. lia. }
  cbn [set_isTranslating set_isTranslated sent].
  rewrite batch_loop_sent by (unfold pageBatchSize; lia).
  cbn [sent]. now rewrite Nat.sub_0_r.
Qed.

Definition fifty : list fragment :=
  List.map (fun _ => mkFragment (paragraph (lit "Hello world")) false [])
           (seq 0 50).

Lemma translatePage_sent_witness :
  sent (translatePage shouting (mkSession fifty false false 0 [])) = 3
  /\ translatePage shouting (mkSession fifty false true 0 [])
     = mkSession fifty false true 0 [].
Proof.
  destruct (translatePage_sent shouting (mkSession fifty false false 0 []))
    as [H _].
  destruct (translatePage_sent shouting (mkSession fifty false true 0 []))
    as [_ H'].
  split; [exact (H eq_refl) | exact (H' eq_refl)].
Defined.

(** *** Elements that were not collected *)

Lemma fold_alter_outside g (batch : list nat) (i : nat) :
  ~ In i batch ->
  forall page : list fragment,
    fold_left (fun d el => alter g el d) batch page !! i = page !! i.
Proof.
  induction batch as [|el batch IH]; intros Hi page; [reflexivity|].
  cbn [fold_left]. rewrite IH by (intros H; apply Hi; now right).
  apply list_lookup_alter_ne. intros ->. apply Hi. now left.
Qed.

Lemma insert_results_outside translated batch (i : nat) :
  ~ In i (List.map fst batch) ->
  forall index page,
    snd (insert_results translated batch index page) !! i = page !! i.
Proof.
  induction batch as [|[el placeholderMap] batch IH]; intros Hi index page;
    [reflexivity|].
  cbn [List.map fst In] in Hi. cbn [insert_results].
  assert (H1 : alter removeLoadingIndicator el page !! i = page !! i).
  { apply list_lookup_alter_ne. tauto. }
  destruct (translated_at translated index) as [item|]; [|exact H1].
  destruct (truthy item).
  - destruct item; try exact H1.
    destruct (restorePlaceholders s placeholderMap); [|exact H1].
    rewrite IH by tauto. rewrite list_lookup_alter_ne by tauto. exact H1.
  - rewrite IH by tauto. exact H1.
Qed.

Lemma translate_batch_outside sendMessage batch (s : session) (i : nat) :
  ~ In i batch ->
  doc (translate_batch sendMessage batch s) !! i = doc s !! i.
Proof.
  intros Hi.
  assert (Hm : mark_loading batch (doc s) !! i = doc s !! i)
    by now apply fold_alter_outside.
  assert (Hr : forall page, revert_batch batch page !! i = page !! i)
    by (intros page; now apply fold_alter_outside).
  unfold translate_batch. cbn [doc].
  destruct (sendMessage _ _) as [|error translated]; [now rewrite Hr|].
  destruct (truthy error); [now rewrite Hr|].
  match goal with
  | |- context [insert_results ?t ?b ?n ?d] =>
      pose proof (insert_results_outside t b i) as Ho;
      rewrite combine_fst in Ho by (now rewrite !length_map);
      specialize (Ho Hi n d);
      destruct (insert_results t b n d) as [ok page']
  end.
  cbn [snd] in Ho. destruct ok; [|rewrite Hr]; now rewrite Ho.
Qed.

Lemma In_slice (A : Type) (i j : nat) (l : list A) (x : A) :
  In x (slice i j l) -> In x l.
Proof.
  unfold slice. intros H. apply list_elem_of_In in H. apply list_elem_of_In.
  eapply subseteq_drop, subseteq_take, H.
Qed.

Lemma batch_loop_outside sendMessage targets (k : nat) fuel :
  ~ In k targets ->
  forall i s,
    doc (batch_loop sendMessage fuel targets i s) !! k = doc s !! k.
Proof.
  intros Hk. induction fuel as [|fuel IH]; intros i s; [reflexivity|].
  cbn [batch_loop]. destruct (i <? length targets); [|reflexivity].
  rewrite IH. apply translate_batch_outside.
  intros H. apply Hk. eapply In_slice, H.
Qed.

(** X13: a page pass touches only the elements it collected.  On a page
    whose target elements do not contain one another (no element matching
    [TARGET_SELECTORS] inside another), an element that fails one of the
    tests of [collectTargetElements] (it carries the marker, an excluded
    element holds it, its text is shorter than two characters or mostly
    Japanese) is after the pass exactly as before: no marker, no indicator,
    no translation. *)
Theorem translatePage_leaves_others sendMessage (s : session) (i : nat) (f : fragment) :
  no_nested_targets (doc s) = true ->
  doc s !! i = Some f ->
  eligible f = false ->
  doc (translatePage sendMessage s) !! i = Some f.
Proof.
  intros _ Hf He.
  assert (Hi : ~ In i (collectTargetElements (doc s))).
  { intros H. apply collect_from_spec in H as (_ & g & Hg & Hge).
    rewrite Nat.sub_0_r in Hg. congruence. }
  unfold translatePage. destruct (isTranslating s); [exact Hf|].
  cbn [set_isTranslating doc].
  destruct (collectTargetElements (doc s)) as [|t targets] eqn:E; [exact Hf|].
  cbn [set_isTranslating set_isTranslated doc].
  now rewrite batch_loop_outside.
Qed.

Definition mixed_page : list fragment :=
  [mkFragment (paragraph (lit "Hello world")) false [];
   mkFragment (paragraph (lit "Home and contact")) true []].

(** A list item that holds a paragraph is outside these statements. *)
Example nested_page_excluded :
  no_nested_targets
    [mkFragment (Elem (lit "li") [] [paragraph (lit "Hello world")]) false [];
     mkFragment (paragraph (lit "Hello world")) false []]
  = false.
Proof. reflexivity. Qed.

Lemma translatePage_leaves_others_witness :
  no_nested_targets mixed_page = true
  /\ doc (translatePage shouting (mkSession mixed_page false false 0 [])) !! 1
     = Some (mkFragment (paragraph (lit "Home and contact")) true []).
Proof.
  split; [reflexivity|].
  apply (translatePage_leaves_others shouting
           (mkSession mixed_page false false 0 []) 1); reflexivity.
Defined.

(** *** Toggling twice *)

Lemma translatePage_nothing sendMessage (s : session) :
  isTranslating s = false ->
  collectTargetElements (doc s) = [] ->
  doc (translatePage sendMessage s) = doc s
  /\ isTranslated (translatePage sendMessage s) = isTranslated s
  /\ isTranslating (translatePage sendMessage s) = false.
Proof.
  intros Hg Hn. unfold translatePage. rewrite Hg.
  cbn [set_isTranslating doc]. rewrite Hn. repeat split.
Qed.

(** X14: switching the translation on and off again.  On a page the
    extension has not touched, with both flags down, two calls of
    [toggleTranslate] leave the page exactly as it was and both flags down,
    whatever the service worker answered in between. *)
Theorem toggleTranslate_twice sendMessage1 sendMessage2 (s : session) :
  isTranslated s = false ->
  isTranslating s = false ->
  forallb untouched (doc s) = true ->
  let s2 := toggleTranslate sendMessage2 (toggleTranslate sendMessage1 s) in
  doc s2 = doc s /\ isTranslated s2 = false /\ isTranslating s2 = false.
Proof.
  intros Hd Hg Hu. cbn zeta.
  replace (toggleTranslate sendMessage1 s) with (translatePage sendMessage1 s)
    by (unfold toggleTranslate; now rewrite Hd).
  unfold toggleTranslate.
  destruct (collectTargetElements (doc s)) as [|t targets] eqn:E.
  - destruct (translatePage_nothing sendMessage1 s Hg E) as (H1 & H2 & H3).
    rewrite H2, Hd.
    destruct (translatePage_nothing sendMessage2 (translatePage sendMessage1 s) H3)
      as (H4 & H5 & H6); [now rewrite H1|].
    rewrite H4, H5, H6, H1, H2, Hd. repeat split.
  - assert (Ht : isTranslated (translatePage sendMessage1 s) = true).
    { unfold translatePage. rewrite Hg. cbn [set_isTranslating doc]. now rewrite E. }
    assert (Hg' : isTranslating (translatePage sendMessage1 s) = false)
      by apply (translatePage_flags sendMessage1 s Hg).
    rewrite Ht.
    rewrite removeAllTranslations_doc, cleaned_translatePage.
    rewrite (cleaned_page_untouched _ Hu).
    split; [reflexivity|]. split; [reflexivity|]. exact Hg'.
Qed.

Lemma toggleTranslate_twice_witness :
  let s := mkSession hello_page false false 0 [] in
  let s2 := toggleTranslate shouting (toggleTranslate shouting s) in
  doc s2 = doc s /\ isTranslated s2 = false /\ isTranslating s2 = false.
Proof.
  apply (toggleTranslate_twice shouting shouting
           (mkSession hello_page false false 0 [])); reflexivity.
Defined.

End PassExtras.

(* ===================================================================== *)
(** ** A second pass *)
(* ===================================================================== *)

Module RepeatPass.

Import Dom Content Background Session SessionProofs PageExtras PassExtras.

(** An answer the insertion loop can use: no error, and an array whose
    items are strings or falsy values. *)
Definition item_ok (v : jsval) : bool :=
  match v with
  | Str _ => true
  | other => negb (truthy other)
  end.

Definition answer_ok (r : response) : bool :=
  match r with
  | Response error (Arr items) => negb (truthy error) && forallb item_ok items
  | _ => false
  end.

(** What [collectTargetElements] passes over at once: the element carries
    the marker or is none of the target elements. *)
Definition skipped (f : fragment) : bool :=
  hasAttribute TRANSLATED_ATTR (f_node f) || negb (matches_target (f_node f)).

Definition skipped_at (page : list fragment) (i : nat) : Prop :=
  forall f, page !! i = Some f -> skipped f = true.

Lemma skipped_not_eligible (f : fragment) : skipped f = true -> eligible f = false.
Proof.
  unfold skipped, eligible.
  destruct (matches_target (f_node f)); [|reflexivity].
  destruct (hasAttribute TRANSLATED_ATTR (f_node f)); [reflexivity | discriminate].
Qed.

Lemma getAttribute_setAttribute (name value : jsstring) attrs :
  getAttribute name (setAttribute name value attrs) = Some value.
Proof.
  induction attrs as [|[k v] attrs IH]; cbn.
  - unfold eqs. now rewrite bool_decide_eq_true_2.
  - destruct (eqs k name) eqn:E; cbn; rewrite E; [reflexivity | exact IH].
Qed.

Lemma skipped_set_marker value (f : fragment) : skipped (set_marker value f) = true.
Proof.
  destruct f as [[d|d|tag attrs ch] e a]; try reflexivity.
  unfold skipped, set_marker, map_attrs, hasAttribute.
  cbn [f_node attrs_of]. now rewrite getAttribute_setAttribute.
Qed.

Lemma skipped_showLoadingIndicator (f : fragment) :
  skipped (showLoadingIndicator f) = skipped f.
Proof. destruct f as [n e [|[|] a]]; reflexivity. Qed.

Lemma skipped_removeLoadingIndicator (f : fragment) :
  skipped (removeLoadingIndicator f) = skipped f.
Proof. destruct f as [n e [|[|] a]]; reflexivity. Qed.

Lemma skipped_alter g (el : nat) page (i : nat) :
  (forall f, skipped f = true -> skipped (g f) = true) ->
  skipped_at page i -> skipped_at (alter g el page) i.
Proof.
  intros Hg Hs f' Hf'. destruct (Nat.eq_dec el i) as [->|Hne].
  - rewrite list_lookup_alter_eq in Hf'.
    destruct (page !! i) as [f|] eqn:Ef; cbn in Hf'; [|discriminate Hf'].
    injection Hf' as <-. apply Hg, Hs, Ef.
  - rewrite list_lookup_alter_ne in Hf' by exact Hne. now apply Hs.
Qed.

Lemma skipped_alter_here g (el : nat) page :
  (forall f, skipped (g f) = true) -> skipped_at (alter g el page) el.
Proof.
  intros Hg f' Hf'. rewrite list_lookup_alter_eq in Hf'.
  destruct (page !! el) as [f|]; cbn in Hf'; [|discriminate Hf'].
  injection Hf' as <-. apply Hg.
Qed.

Lemma skipped_mark_loading (batch : list nat) (i : nat) :
  forall page,
    skipped_at page i \/ In i batch -> skipped_at (mark_loading batch page) i.
Proof.
  unfold mark_loading. induction batch as [|el batch IH]; intros page H.
  - destruct H as [H|[]]. exact H.
  - cbn [fold_left]. apply IH.
    assert (Hg : forall f, skipped (showLoadingIndicator (set_marker MARK_LOADING f))
                           = true).
    { intros f. rewrite skipped_showLoadingIndicator. apply skipped_set_marker. }
    destruct H as [H|[->|H]].
    + left. apply skipped_alter; [intros f _; apply Hg | exact H].
    + left. now apply skipped_alter_here.
    + now right.
Qed.

Lemma restore_token_chars (m : PlaceholderMap) (text : jsstring) :
  Forall (fun entry => forallb PatternFacts.is_token_char (fst entry) = true) m ->
  exists out, restorePlaceholders text m = Some out.
Proof.
  intros H. unfold restorePlaceholders.
  destruct (negb (Js.nonempty text)); [now exists []|].
  now apply CodecExtras.restore_entries_total.
Qed.

Lemma insert_results_ok (items : list jsval) batch :
  forallb item_ok items = true ->
  Forall (fun entry =>
            Forall (fun kv => forallb PatternFacts.is_token_char (fst kv) = true)
                   (snd entry)) batch ->
  forall index page,
    fst (insert_results (Arr items) batch index page) = true
    /\ forall i, skipped_at page i ->
                 skipped_at (snd (insert_results (Arr items) batch index page)) i.
Proof.
  intros Hitems Hb.
  induction Hb as [|[el placeholderMap] batch Hm _ IH]; intros index page;
    [split; [reflexivity | tauto]|].
  cbn [insert_results translated_at snd] in *.
  assert (Hi : item_ok (default Undef (items !! index)) = true).
  { destruct (items !! index) as [v|] eqn:Ev; [|reflexivity]. cbn.
    rewrite forallb_forall in Hitems. apply Hitems.
    eapply list_elem_of_In, list_elem_of_lookup_2, Ev. }
  assert (H1 : forall i, skipped_at page i ->
                         skipped_at (alter removeLoadingIndicator el page) i).
  { intros i. apply skipped_alter. intros f.
    now rewrite skipped_removeLoadingIndicator. }
  destruct (default Undef (items !! index)) as [| |b|t|l]; cbn [truthy];
    try (destruct (IH (S index) (alter removeLoadingIndicator el page))
          as [Ha Hc]; split; [exact Ha | intros i Hs; apply Hc, H1, Hs]).
  - destruct b; [discriminate Hi|].
    destruct (IH (S index) (alter removeLoadingIndicator el page)) as [Ha Hc].
    split; [exact Ha | intros i Hs; apply Hc, H1, Hs].
  - destruct (Js.nonempty t).
    + destruct (restore_token_chars placeholderMap t Hm) as [out ->].
      match goal with
      | |- context [insert_results _ _ _ ?d] =>
          destruct (IH (S index) d) as [Ha Hc]
      end.
      split; [exact Ha|]. intros i Hs. apply Hc, skipped_alter; [|apply H1, Hs].
      intros f _. apply skipped_set_marker.
    + destruct (IH (S index) (alter removeLoadingIndicator el page)) as [Ha Hc].
      split; [exact Ha | intros i Hs; apply Hc, H1, Hs].
  - discriminate Hi.
Qed.

Lemma translate_batch_skipped sendMessage batch (s : session) (i : nat) :
  (forall n texts, answer_ok (sendMessage n texts) = true) ->
  skipped_at (doc s) i \/ In i batch ->
  skipped_at (doc (translate_batch sendMessage batch s)) i.
Proof.
  intros Hok H. apply skipped_mark_loading in H.
  unfold translate_batch. cbn [doc].
  match goal with
  | |- context [sendMessage ?n ?t] =>
      specialize (Hok n t); destruct (sendMessage n t) as [|error translated]
  end; [discriminate Hok|].
  destruct translated as [| | | |items]; try discriminate Hok.
  cbn [answer_ok] in Hok. apply andb_true_iff in Hok as [He Hitems].
  apply negb_true_iff in He. rewrite He.
  match goal with
  | |- context [insert_results _ ?b ?n ?d] =>
      destruct (insert_results_ok items b Hitems) with (index := n) (page := d)
        as [Ha Hc]
  end.
  - apply Forall_forall. intros [el m] Hin. cbn [snd].
    apply list_elem_of_In, in_combine_r in Hin.
    rewrite List.map_map in Hin. apply List.in_map_iff in Hin as (x & <- & _).
    apply CodecExtras.extracted_key_chars.
  - match goal with
    | |- context [insert_results ?t ?b ?n ?d] =>
        destruct (insert_results t b n d) as [ok page']
    end.
    cbn [fst snd] in *. subst ok. now apply Hc.
Qed.

Lemma batch_loop_skipped sendMessage targets (k : nat) :
  (forall n texts, answer_ok (sendMessage n texts) = true) ->
  forall fuel i s,
    length targets <= i + pageBatchSize * fuel ->
    skipped_at (doc s) k \/ In k (drop i targets) ->
    skipped_at (doc (batch_loop sendMessage fuel targets i s)) k.
Proof.
  intros Hok. unfold pageBatchSize.
  induction fuel as [|fuel IH]; intros i s Hl H; cbn [batch_loop].
  - rewrite drop_ge in H by lia. destruct H as [H|[]]. exact H.
  - destruct (Nat.ltb_spec i (length targets)) as [Hlt|Hge].
    + apply IH; [unfold pageBatchSize; lia|].
      destruct H as [H|H].
      * left. apply translate_batch_skipped; [exact Hok | now left].
      * rewrite <- (take_drop 20 (drop i targets)), drop_drop in H.
        apply in_app_or in H as [H|H].
        -- left. apply translate_batch_skipped; [exact Hok|]. right.
           unfold slice, pageBatchSize.
           now replace (i + 20 - i) with 20 by lia.
        -- right. unfold pageBatchSize. exact H.
    + rewrite drop_ge in H by lia. destruct H as [H|[]]. exact H.
Qed.

(** X15: elements a pass has handled are not translated again.  On a page
    whose target elements do not contain one another (no element matching
    [TARGET_SELECTORS] inside another), after a pass whose batches were all
    answered with an array of strings (or of falsy values: missing items,
    empty strings), every element of the page fails the tests of
    [collectTargetElements], so that a second pass collects nothing, sends
    no message and leaves the page as it is. *)
Theorem second_pass_finds_nothing sendMessage1 sendMessage2 (s : session) :
  no_nested_targets (doc s) = true ->
  isTranslating s = false ->
  (forall n texts, answer_ok (sendMessage1 n texts) = true) ->
  let s1 := translatePage sendMessage1 s in
  collectTargetElements (doc s1) = []
  /\ doc (translatePage sendMessage2 s1) = doc s1
  /\ sent (translatePage sendMessage2 s1) = sent s1.
Proof.
  intros _ Hg Hok. cbn zeta.
  assert (Hnone : collectTargetElements (doc (translatePage sendMessage1 s)) = []).
  { destruct (collectTargetElements (doc (translatePage sendMessage1 s)))
      as [|k rest] eqn:E; [reflexivity|]. exfalso.
    assert (Hk : In k (collectTargetElements (doc (translatePage sendMessage1 s))))
      by (rewrite E; now left).
    apply collect_from_spec in Hk as (_ & f & Hf & He).
    rewrite Nat.sub_0_r in Hf.
    assert (Hs : skipped_at (doc (translatePage sendMessage1 s)) k).
    { revert Hf. unfold translatePage. rewrite Hg. cbn [set_isTranslating doc].
      destruct (collectTargetElements (doc s)) as [|t targets] eqn:Et.
      - cbn [set_isTranslating doc]. intros Hf.
        assert (Hin : In k (collectTargetElements (doc s))).
        { apply collect_from_spec. split; [lia|]. exists f.
          now rewrite Nat.sub_0_r. }
        rewrite Et in Hin. destruct Hin.
      - cbn [set_isTranslating set_isTranslated doc]. intros Hf.
        destruct (in_dec Nat.eq_dec k (t :: targets)) as [Hin|Hout].
        + apply batch_loop_skipped; [exact Hok | unfold pageBatchSize; lia|].
          right. exact Hin.
        + rewrite batch_loop_outside in Hf by exact Hout.
          assert (Hin : In k (collectTargetElements (doc s))).
          { apply collect_from_spec. split; [lia|]. exists f.
            now rewrite Nat.sub_0_r. }
          rewrite Et in Hin. contradiction. }
    apply Hs, skipped_not_eligible in Hf. congruence. }
  split; [exact Hnone|].
  assert (Hg1 : isTranslating (translatePage sendMessage1 s) = false)
    by apply (translatePage_flags sendMessage1 s Hg).
  destruct (translatePage_nothing sendMessage2 _ Hg1 Hnone) as (H1 & _ & _).
  split; [exact H1|].
  unfold translatePage at 1. rewrite Hg1.
  cbn [set_isTranslating doc]. rewrite Hnone. reflexivity.
Qed.

Lemma shouting_ok (n : nat) (texts : list jsstring) :
  answer_ok (shouting n texts) = true.
Proof.
  unfold shouting, answer_ok. cbn [truthy negb andb].
  induction texts as [|t texts IH]; [reflexivity | exact IH].
Qed.

Lemma second_pass_finds_nothing_witness :
  let s1 := translatePage shouting (mkSession hello_page false false 0 []) in
  collectTargetElements (doc s1) = []
  /\ doc (translatePage shouting s1) = doc s1
  /\ sent (translatePage shouting s1) = sent s1.
Proof.
  apply (second_pass_finds_nothing shouting shouting
           (mkSession hello_page false false 0 []));
    [reflexivity | reflexivity | exact shouting_ok].
Defined.

End RepeatPass.

(* ===================================================================== *)
(** ** More on the translation client *)
(* ===================================================================== *)

Module ClientExtras.

Import Background ClientProofs.

(** *** A call served from the cache *)

Lemma place_all_cached (getHash : jsstring -> jsstring) (cache : gmap jsstring jsval)
    (texts : list jsstring) (fetched : list jsval) :
  forallb (fun text => truthy (cache_get cache (getHash text))) texts = true ->
  place getHash cache texts fetched
  = List.map (fun text => cache_get cache (getHash text)) texts
  /\ uncached getHash cache texts = [].
Proof.
  induction texts as [|t texts IH]; [split; reflexivity|].
  cbn [forallb]. intros H. apply andb_true_iff in H as [Ht Hr].
  destruct (IH Hr) as [Hp Hu]. unfold uncached in *.
  cbn [place List.filter List.map]. rewrite Ht. cbn [negb].
  now rewrite Hp, Hu.
Qed.

Lemma translateTexts_hit (getHash : jsstring -> jsstring)
    (backend : nat -> request -> fetch_outcome) (texts : list jsstring)
    (sl tl : jsstring) (w : world) (cache : gmap jsstring jsval) :
  default ∅ (storage w !! cacheKey sl tl) = cache ->
  forallb (fun text => truthy (cache_get cache (getHash text))) texts = true ->
  translateTexts getHash backend texts sl tl w
  = (Ok (List.map (fun text => cache_get cache (getHash text)) texts), w).
Proof.
  intros Hcache H.
  destruct (place_all_cached getHash cache texts [] H) as [Hp Hu].
  destruct (check_then_merge getHash cache (length texts) [] ∅ texts (le_n _))
    as (Hm & _ & _ & Hu').
  cbn zeta in Hm, Hu'. rewrite Nat.sub_diag, app_nil_r in Hm.
  unfold translateTexts. rewrite Hcache.
  rewrite Hu' in *. rewrite Hu in *. cbn [merge fst] in Hm.
  now rewrite Hm, Hp.
Qed.

(** X16: a call whose texts all have a truthy entry in the cache of the
    language pair is answered from the cache alone: the results are the
    cached values, position by position, and the world is left as it is:
    no fetch, no wait, no write to the storage.  The empty list of texts is
    such a call. *)
Theorem translateTexts_all_cached getHash backend (texts : list jsstring)
    sl tl (w : world) :
  let cache := default ∅ (storage w !! cacheKey sl tl) in
  forallb (fun text => truthy (cache_get cache (getHash text))) texts = true ->
  translateTexts getHash backend texts sl tl w
  = (Ok (List.map (fun text => cache_get cache (getHash text)) texts), w).
Proof. intros cache H. now apply translateTexts_hit. Qed.

Lemma translateTexts_all_cached_witness :
  translateTexts (fun s => s) down [lit "A"; lit "A"] (lit "en") (lit "ja")
    warm_world
  = (Ok [Str [12354%N]; Str [12354%N]], warm_world).
Proof.
  apply (translateTexts_all_cached (fun s => s) down [lit "A"; lit "A"]
           (lit "en") (lit "ja") warm_world).
  reflexivity.
Defined.

(** *** The requests of a call, whatever the backend does *)

Definition is_fetch (ev : event) : bool :=
  match ev with EvFetch _ => true | EvDelay _ => false end.

Definition fetch_count (evs : list event) : nat :=
  length (List.filter is_fetch evs).

(** A request for one chunk of [texts]: the language pair of the call and
    between one and ten of the texts, taken from a multiple of ten on. *)
Definition request_ok (texts : list jsstring) (sl tl : jsstring)
    (req : request) : Prop :=
  r_sl req = sl /\ r_tl req = tl
  /\ 1 <= length (r_q req) <= batchSize
  /\ exists j, r_q req = slice (batchSize * j) (batchSize * j + batchSize) texts.

Definition event_ok (texts : list jsstring) (sl tl : jsstring)
    (ev : event) : Prop :=
  match ev with
  | EvFetch req => request_ok texts sl tl req
  | EvDelay ms => ms = 200%N \/ ms = 500%N \/ ms = 1000%N
  end.

Lemma fetch_count_app (a b : list event) :
  fetch_count (a ++ b) = fetch_count a + fetch_count b.
Proof. unfold fetch_count. now rewrite List.filter_app, length_app. Qed.

Lemma translateBatch_events backend (chunk : list jsstring) sl tl (w : world) :
  exists k evs,
    snd (translateBatch backend chunk sl tl w) = after w k evs
    /\ 1 <= k <= 3
    /\ fetch_count evs = k
    /\ Forall (fun ev => ev = EvFetch (mkRequest sl tl chunk)
                         \/ ev = EvDelay 500 \/ ev = EvDelay 1000) evs.
Proof.
  rewrite translateBatch_cases. cbn zeta.
  repeat match goal with
         | |- context [match ?x with Ok _ => _ | Throw _ => _ end] => destruct x
         end; cbn [snd]; eexists _, _;
    (split; [reflexivity|]); (split; [lia|]); (split; [reflexivity|]);
    repeat constructor; tauto.
Qed.

Lemma chunk_bound (n i : nat) :
  i < n -> (n - i + 9) / 10 = 1 + (n - (i + 10) + 9) / 10.
Proof.
  intros Hlt. destruct (Nat.le_gt_cases (i + 10) n) as [Hfull|Hlast].
  - replace (n - i + 9) with (n - (i + 10) + 9 + 1 * 10) by lia.
    rewrite Nat.div_add by lia. lia.
  - replace (n - (i + 10)) with 0 by lia.
    rewrite (Nat.div_small (0 + 9)) by lia.
    symmetry. apply (Nat.div_unique _ 10 _ (n - i - 1)); lia.
Qed.

Lemma fetch_loop_events backend (texts : list jsstring) sl tl fuel :
  forall j acc w,
    exists k evs,
      snd (fetch_loop backend fuel texts sl tl (batchSize * j) acc w)
      = after w k evs
      /\ k <= 3 * ((length texts - batchSize * j + 9) / 10)
      /\ (0 < fuel -> batchSize * j < length texts -> 1 <= k)
      /\ fetch_count evs = k
      /\ Forall (event_ok texts sl tl) evs.
Proof.
  unfold batchSize.
  induction fuel as [|fuel IH]; intros j acc w.
  - exists 0, []. cbn [fetch_loop ret snd]. rewrite after_zero.
    repeat split; try lia. constructor.
  - cbn [fetch_loop].
    destruct (Nat.ltb_spec (10 * j) (length texts)) as [Hlt|Hge].
    + unfold bind at 1. unfold batchSize.
      destruct (translateBatch_events backend
                  (slice (10 * j) (10 * j + 10) texts) sl tl w)
        as (k1 & evs1 & Hw1 & Hk1 & Hc1 & He1).
      assert (Hok1 : Forall (event_ok texts sl tl) evs1).
      { eapply Forall_impl; [exact He1|]. cbn.
        intros ev [-> | [-> | ->]]; cbn; try tauto.
        repeat split; cbn [r_q].
        - unfold slice. rewrite length_take, length_drop. lia.
        - unfold slice, batchSize. rewrite length_take. lia.
        - exists j. reflexivity. }
      destruct (translateBatch backend (slice (10 * j) (10 * j + 10) texts) sl tl w)
        as [[v|e] w1]; cbn [snd] in Hw1; subst w1.
      * unfold bind at 1.
        assert (Hd : exists evs2,
                   (if 10 * j + 10 <? length texts then delay 200%N else ret tt)
                     (after w k1 evs1)
                   = (Ok tt, after w k1 (evs1 ++ evs2))
                   /\ fetch_count evs2 = 0
                   /\ Forall (event_ok texts sl tl) evs2).
        { destruct (10 * j + 10 <? length texts).
          - exists [EvDelay 200]. rewrite delay_after, after_after.
            split; [reflexivity|]. split; [reflexivity|].
            constructor; [cbn; tauto | constructor].
          - exists []. cbn [ret]. rewrite app_nil_r.
            split; [reflexivity|]. split; [reflexivity | constructor]. }
        destruct Hd as (evs2 & -> & Hc2 & Hok2).
        replace (10 * j + 10) with (10 * S j) by lia.
        match goal with
        | |- context [fetch_loop _ _ _ _ _ _ ?a ?w0] =>
            destruct (IH (S j) a w0) as (k3 & evs3 & -> & Hk3 & _ & Hc3 & Hok3)
        end.
        exists (k3 + k1), ((evs1 ++ evs2) ++ evs3).
        rewrite after_after. split; [reflexivity|].
        rewrite (chunk_bound (length texts) (10 * j) Hlt).
        replace (10 * j + 10) with (10 * S j) by lia.
        repeat split; try lia.
        -- rewrite !fetch_count_app. lia.
        -- repeat (apply Forall_app; split); assumption.
      * exists k1, evs1. cbn [snd]. split; [reflexivity|].
        rewrite (chunk_bound (length texts) (10 * j) Hlt).
        repeat split; try lia. exact Hok1.
    + exists 0, []. cbn [ret snd]. rewrite after_zero.
      repeat split; try lia. constructor.
Qed.

(** X17: the traffic of one call, whatever the backend answers.  With [u]
    the texts the cache does not hold, [translateTexts] issues at least one
    fetch when [u] is not empty and none otherwise, at most three for each
    chunk of ten texts of [u]; every request carries the language pair of
    the call and between one and ten texts, a chunk of [u]; every wait
    lasts 200, 500 or 1000 ms. *)
Theorem translateTexts_traffic getHash backend (texts : list jsstring)
    sl tl (w : world) :
  let cache := default ∅ (storage w !! cacheKey sl tl) in
  let u := uncached getHash cache texts in
  let w' := snd (translateTexts getHash backend texts sl tl w) in
  exists evs,
    timeline w' = timeline w ++ evs
    /\ fetches w' = fetch_count evs + fetches w
    /\ fetch_count evs <= 3 * ((length u + 9) / 10)
    /\ (u <> [] -> 1 <= fetch_count evs)
    /\ Forall (event_ok u sl tl) evs.
Proof.
  intros cache u w'. subst w'.
  destruct (check_then_merge getHash cache (length texts) [] ∅ texts (le_n _))
    as (_ & _ & _ & Hu).
  cbn zeta in Hu. fold u in Hu.
  unfold translateTexts. fold cache. rewrite Hu.
  clearbody u. clear Hu. destruct u as [|t u'].
  - exists []. cbn [snd]. rewrite app_nil_r.
    split; [reflexivity|]. split; [reflexivity|]. split; [cbn; lia|].
    split; [congruence | constructor].
  - cbv beta iota. remember (t :: u') as u eqn:Eu.
    unfold bind, fetchTranslationsFromApi.
    destruct (fetch_loop_events backend u sl tl (length u) 0 [] w)
      as (k & evs & Hw & Hk & Hpos & Hc & Hok).
    subst k. unfold batchSize in Hw, Hk, Hpos. rewrite Nat.mul_0_r in Hw, Hk, Hpos.
    rewrite Nat.sub_0_r in Hk.
    assert (Hlen : 0 < length u) by (rewrite Eu; cbn; lia).
    destruct (fetch_loop backend (length u) u sl tl 0 [] w) as [[api|e] w1];
      cbn [snd] in Hw; subst w1; exists evs;
      unfold bind, storage_set, ret, after; cbn [snd timeline fetches];
      (split; [reflexivity|]); (split; [reflexivity|]);
      (split; [exact Hk|]); (split; [|exact Hok]);
      intros _; now apply Hpos.
Qed.

Lemma translateTexts_traffic_witness :
  let w' := snd (translateTexts (fun s => s) down twelve (lit "en") (lit "ja")
                   warm_world) in
  exists evs,
    timeline w' = timeline warm_world ++ evs
    /\ fetches w' = fetch_count evs + fetches warm_world
    /\ 1 <= fetch_count evs <= 6.
Proof.
  intros w'.
  destruct (translateTexts_traffic (fun s => s) down twelve (lit "en") (lit "ja")
              warm_world) as (evs & Ht & Hf & Hmax & Hmin & _).
  exists evs. split; [exact Ht|]. split; [exact Hf|]. split.
  - apply Hmin. vm_compute. discriminate.
  - exact Hmax.
Defined.

(** *** The traffic with a backend that keeps the contract *)

(** One fetch per chunk, 200 ms between two fetches. *)
Fixpoint schedule (sl tl : jsstring) (cs : list (list jsstring)) : list event :=
  match cs with
  | [] => []
  | c :: cs' =>
      EvFetch (mkRequest sl tl c)
      :: match cs' with
         | [] => []
         | _ => EvDelay 200 :: schedule sl tl cs'
         end
  end.

Lemma chunks_from_nil (fuel : nat) : chunks_from fuel [] = [].
Proof. now destruct fuel. Qed.

Lemma chunks_from_length (fuel : nat) :
  forall l, length l <= fuel -> length (chunks_from fuel l) = (length l + 9) / 10.
Proof.
  induction fuel as [|fuel IH]; intros l Hl.
  - destruct l; [reflexivity | cbn in Hl; lia].
  - destruct l as [|x l]; [reflexivity|].
    cbn [chunks_from length]. rewrite IH.
    + rewrite length_drop. unfold batchSize.
      pose proof (chunk_bound (length (x :: l)) 0) as H.
      rewrite !Nat.sub_0_r in H. change (0 + 10) with 10 in H.
      change (S (length l)) with (length (x :: l)).
      rewrite H by (cbn [length]; lia). reflexivity.
    + rewrite length_drop. cbn [length] in *. unfold batchSize. lia.
Qed.

Lemma chunks_from_sizes (fuel : nat) :
  forall l, Forall (fun c => 1 <= length c <= 10) (chunks_from fuel l).
Proof.
  induction fuel as [|fuel IH]; intros l; [constructor|].
  destruct l as [|x l]; [constructor|]. cbn [chunks_from].
  constructor; [|apply IH].
  unfold batchSize. rewrite length_take. cbn [length]. lia.
Qed.

Lemma fetch_loop_contract_world backend answer sl tl (texts : list jsstring) :
  follows_contract backend answer ->
  forall fuel i acc w,
    length texts <= i + batchSize * fuel ->
    let cs := chunks_from fuel (drop i texts) in
    fetch_loop backend fuel texts sl tl i acc w
    = (Ok (acc ++ List.map Str (answers_from answer sl tl (fetches w) cs)),
       after w (length cs) (schedule sl tl cs)).
Proof.
  intros Hc fuel. unfold batchSize.
  induction fuel as [|fuel IH]; intros i acc w Hl; cbn zeta.
  - cbn. now rewrite app_nil_r, after_zero.
  - cbn [fetch_loop chunks_from]. unfold batchSize in *.
    destruct (Nat.ltb_spec i (length texts)) as [Hi|Hi].
    + destruct (drop i texts) as [|x rest] eqn:Ed.
      { apply (f_equal length) in Ed. rewrite length_drop in Ed. cbn in Ed. lia. }
      rewrite <- Ed. unfold bind at 1.
      rewrite (translateBatch_contract backend answer) by assumption.
      pose proof (slice_take_drop i texts) as Hs. unfold batchSize in Hs.
      rewrite Hs. clear Hs.
      set (req := mkRequest sl tl (take 10 (drop i texts))).
      unfold bind at 1.
      specialize (IH (i + 10)). cbn zeta in IH. rewrite <- drop_drop in IH.
      destruct (Nat.ltb_spec (i + 10) (length texts)) as [Hmore|Hlast].
      * rewrite delay_after, after_after, IH by lia.
        cbn [fetches after Nat.add answers_from length schedule].
        destruct (chunks_from fuel (drop 10 (drop i texts))) as [|c cs] eqn:Ecs.
        { exfalso. destruct fuel as [|fuel']; [lia|].
          destruct (drop 10 (drop i texts)) as [|y ys] eqn:Ed2;
            [|discriminate Ecs].
          apply (f_equal length) in Ed2. rewrite !length_drop in Ed2.
          cbn in Ed2. lia. }
        rewrite after_after, List.map_app, <- app_assoc. f_equal.
        unfold after. f_equal. lia.
      * cbn [ret]. rewrite IH by lia.
        rewrite (drop_ge (drop i texts)) by (rewrite length_drop; lia).
        rewrite chunks_from_nil. cbn [answers_from length schedule List.map].
        rewrite !app_nil_r, after_after. cbn [app]. reflexivity.
    + rewrite drop_ge by lia. cbn. now rewrite app_nil_r, after_zero.
Qed.

(** X18: with a backend that keeps the contract, the texts the cache does
    not hold are sent once each, in order, ten to a request: one fetch per
    chunk, [ceil(u / 10)] fetches for [u] texts, with a wait of 200 ms
    between two requests and none after the last. *)
Theorem translateTexts_contract_traffic getHash backend answer
    (texts : list jsstring) sl tl (w : world) :
  follows_contract backend answer ->
  let cache := default ∅ (storage w !! cacheKey sl tl) in
  let u := uncached getHash cache texts in
  let w' := snd (translateTexts getHash backend texts sl tl w) in
  timeline w' = timeline w ++ schedule sl tl (chunks u)
  /\ fetches w' = length (chunks u) + fetches w
  /\ length (chunks u) = (length u + 9) / 10
  /\ concat (chunks u) = u
  /\ Forall (fun c => 1 <= length c <= 10) (chunks u).
Proof.
  intros Hc cache u w'. subst w'.
  split; [|split; [|split; [|split]]].
  3: now apply chunks_from_length.
  3: apply chunks_concat.
  3: apply chunks_from_sizes.
  all: destruct (check_then_merge getHash cache (length texts) [] ∅ texts (le_n _))
         as (_ & _ & _ & Hu);
       cbn zeta in Hu; fold u in Hu;
       unfold translateTexts; fold cache; rewrite Hu;
       clearbody u; clear Hu; destruct u as [|t u'];
       [cbn; now rewrite ?app_nil_r|];
       cbv beta iota; remember (t :: u') as u eqn:Eu;
       unfold bind, fetchTranslationsFromApi;
       rewrite (fetch_loop_contract_world backend answer sl tl u Hc)
         by (unfold batchSize; lia);
       cbn zeta; rewrite drop_0; reflexivity.
Qed.

Lemma translateTexts_contract_traffic_witness :
  let w' := snd (translateTexts (fun s => s) (per_text_backend shout) twelve
                   (lit "en") (lit "ja") warm_world) in
  let u := uncached (fun s => s)
             (default ∅ (storage warm_world !! cacheKey (lit "en") (lit "ja")))
             twelve in
  timeline w' = timeline warm_world ++ schedule (lit "en") (lit "ja") (chunks u)
  /\ fetches w' = length (chunks u) + fetches warm_world
  /\ length (chunks u) = (length u + 9) / 10
  /\ concat (chunks u) = u
  /\ Forall (fun c => 1 <= length c <= 10) (chunks u).
Proof.
  apply (translateTexts_contract_traffic (fun s => s) (per_text_backend shout)
           (per_text_answer shout) twelve (lit "en") (lit "ja") warm_world
           (per_text_follows_contract shout)).
Defined.

(** *** Calling again *)

Section Learned.

Variable getHash : jsstring -> jsstring.

(** The entries the merge loop collects do not depend on the result list. *)
Lemma merge_learned_absent (api : list jsval) (Is : list nat) (U : list jsstring)
    (k : jsstring) :
  ~ In k (List.map getHash U) ->
  forall i R m, snd (merge getHash api Is U i (R, m)) !! k = m !! k.
Proof.
  induction U as [|u U IH]; intros Hk i R m; [reflexivity|].
  cbn [List.map In] in Hk. cbn [merge snd fst].
  rewrite IH by tauto. apply lookup_insert_ne. tauto.
Qed.

Lemma merge_learned_some (api : list jsval) (Is : list nat) (U : list jsstring)
    (k : jsstring) :
  In k (List.map getHash U) ->
  forall i R m,
    exists j, j < length U
              /\ snd (merge getHash api Is U i (R, m)) !! k
                 = Some (at_index api (i + j)).
Proof.
  induction U as [|u U IH]; intros Hk i R m; [destruct Hk|].
  cbn [merge snd fst length].
  destruct (in_dec (fun a b : jsstring => decide (a = b)) k (List.map getHash U))
    as [Hin|Hout].
  - destruct (IH Hin (S i) (match Is !! i with
                            | Some originalIndex =>
                                <[originalIndex := at_index api i]> R
                            | None => R
                            end)
                (<[getHash u := at_index api i]> m)) as (j & Hj & Hl).
    exists (S j). split; [lia|]. rewrite Hl. f_equal. f_equal. lia.
  - destruct Hk as [Hk|Hk]; [|contradiction].
    exists 0. split; [lia|]. rewrite merge_learned_absent by exact Hout.
    rewrite Nat.add_0_r, <- Hk. apply lookup_insert_eq.
Qed.

Lemma merge_learned_at (api : list jsval) (Is : list nat) (U : list jsstring) :
  List.NoDup (List.map getHash U) ->
  forall j u i R m,
    U !! j = Some u ->
    snd (merge getHash api Is U i (R, m)) !! getHash u
    = Some (at_index api (i + j)).
Proof.
  induction U as [|u0 U IH]; intros Hnd j u i R m Hj; [discriminate Hj|].
  cbn [List.map] in Hnd. apply List.NoDup_cons_iff in Hnd as [Hout Hnd].
  cbn [merge snd fst]. destruct j as [|j].
  - injection Hj as <-. rewrite merge_learned_absent by exact Hout.
    rewrite Nat.add_0_r. apply lookup_insert_eq.
  - cbn in Hj. rewrite (IH Hnd j u) by exact Hj. f_equal. f_equal. lia.
Qed.

Variable cache : gmap jsstring jsval.

Lemma uncached_hash_absent (texts : list jsstring) (t : jsstring) :
  truthy (cache_get cache (getHash t)) = true ->
  ~ In (getHash t) (List.map getHash (uncached getHash cache texts)).
Proof.
  intros Ht Hin. apply List.in_map_iff in Hin as (u & Hu & Hin).
  apply List.filter_In in Hin as [_ Hf]. rewrite Hu, Ht in Hf. discriminate Hf.
Qed.

(** The placement read back from the cache the call leaves. *)
Lemma place_read_back (learned : gmap jsstring jsval) (api : list jsval)
    (texts : list jsstring) :
  forall i,
    (forall t, truthy (cache_get cache (getHash t)) = true ->
               learned !! getHash t = None) ->
    (forall j u, uncached getHash cache texts !! j = Some u ->
                 learned !! getHash u = Some (at_index api (i + j))) ->
    place getHash cache texts (drop i api)
    = List.map (fun t => cache_get (learned ∪ cache) (getHash t)) texts.
Proof.
  induction texts as [|t texts IH]; intros i H1 H2; [reflexivity|].
  cbn [place List.map]. unfold uncached in H2. cbn [List.filter] in H2.
  destruct (truthy (cache_get cache (getHash t))) eqn:Et; cbn [negb] in H2.
  - rewrite (IH i H1 H2). f_equal. unfold cache_get.
    now rewrite lookup_union_r by (apply H1, Et).
  - assert (Hh : cache_get (learned ∪ cache) (getHash t) = at_index api i).
    { unfold cache_get.
      rewrite (lookup_union_Some_l _ cache _ (at_index api i)); [reflexivity|].
      rewrite (H2 0 t eq_refl). now rewrite Nat.add_0_r. }
    rewrite Hh. unfold at_index.
    assert (Hrest : place getHash cache texts (drop (S i) api)
                    = List.map (fun t0 => cache_get (learned ∪ cache) (getHash t0))
                               texts).
    { apply IH; [exact H1|]. intros j u Hj.
      rewrite (H2 (S j) u Hj). f_equal. f_equal. lia. }
    destruct (drop i api) as [|v rest] eqn:Ed.
    + assert (Hge : length api <= i).
      { apply (f_equal length) in Ed. rewrite length_drop in Ed. cbn in Ed. lia. }
      rewrite lookup_ge_None_2 by exact Hge. cbn [default]. f_equal.
      rewrite <- Hrest. now rewrite drop_ge by lia.
    + assert (Hv : api !! i = Some v).
      { rewrite <- (Nat.add_0_r i), <- lookup_drop, Ed. reflexivity. }
      rewrite Hv. cbn [default]. f_equal. rewrite <- Hrest. f_equal.
      replace (S i) with (i + 1) by lia.
      rewrite <- (drop_drop api 1 i), Ed. reflexivity.
Qed.

End Learned.

Lemma answers_from_nonempty answer sl tl (cs : list (list jsstring)) :
  (forall n req, Forall (fun a => a <> []) (answer n req)) ->
  forall n, Forall (fun a => a <> []) (answers_from answer sl tl n cs).
Proof.
  intros H. induction cs as [|c cs IH]; intros n; [constructor|].
  cbn [answers_from]. apply Forall_app. split; [apply H | apply IH].
Qed.

(** The first call with a backend that keeps the contract, in full. *)
Lemma translateTexts_contract_run (getHash : jsstring -> jsstring)
    (backend : nat -> request -> fetch_outcome)
    (answer : nat -> request -> list jsstring)
    (texts : list jsstring) (sl tl : jsstring) (w : world) :
  follows_contract backend answer ->
  let cache := default ∅ (storage w !! cacheKey sl tl) in
  let u := uncached getHash cache texts in
  let api := List.map Str (answers_from answer sl tl (fetches w) (chunks u)) in
  u <> [] ->
  exists Is R,
    translateTexts getHash backend texts sl tl w
    = (Ok (place getHash cache texts api),
       mkWorld (<[cacheKey sl tl :=
                    snd (merge getHash api Is u 0 (R, ∅)) ∪ cache]> (storage w))
               (length (chunks u) + fetches w)
               (timeline w ++ schedule sl tl (chunks u))).
Proof.
  intros Hc cache u api Hne.
  destruct (check_then_merge getHash cache (length texts) api ∅ texts (le_n _))
    as (Hm & _ & _ & Hu).
  cbn zeta in Hm, Hu. rewrite Nat.sub_diag, app_nil_r in Hm. fold u in Hu.
  set (st := check_cache getHash cache texts 0
               (mkLookup (replicate (length texts) Null) [] [])) in *.
  exists (uncachedIndices st), (results st).
  unfold translateTexts. fold cache. fold st. rewrite Hu in *.
  subst api. clearbody u. clear Hu. destruct u as [|t u']; [congruence|].
  cbv beta iota. remember (t :: u') as u eqn:Eu.
  unfold bind at 1. unfold fetchTranslationsFromApi.
  rewrite (fetch_loop_contract_world backend answer sl tl u Hc)
    by (unfold batchSize; lia).
  cbn zeta. rewrite drop_0. cbn [app]. fold (chunks u).
  unfold bind, storage_set, ret, after. cbn [storage fetches timeline].
  now rewrite Hm.
Qed.

Lemma uncached_nil_all (getHash : jsstring -> jsstring)
    (cache : gmap jsstring jsval) (texts : list jsstring) :
  uncached getHash cache texts = [] ->
  forallb (fun text => truthy (cache_get cache (getHash text))) texts = true.
Proof.
  unfold uncached. induction texts as [|t texts IH]; [reflexivity|].
  cbn [List.filter forallb].
  destruct (truthy (cache_get cache (getHash t))); cbn [negb andb];
    [exact IH | discriminate].
Qed.

(** X19: calling again.  After a call answered by a backend that keeps the
    contract and returns no empty translation, the same call is served
    from the cache, whatever the backend would do: no fetch, no wait, no
    write.  If no two of the texts the first call had to fetch share a
    hash (in particular no text was asked twice), the second call returns
    what the first returned. *)
Theorem translateTexts_again (getHash : jsstring -> jsstring)
    (backend backend' : nat -> request -> fetch_outcome)
    (answer : nat -> request -> list jsstring)
    (texts : list jsstring) (sl tl : jsstring) (w : world) :
  follows_contract backend answer ->
  (forall n req, Forall (fun a => a <> []) (answer n req)) ->
  let cache := default ∅ (storage w !! cacheKey sl tl) in
  exists r w1,
    translateTexts getHash backend texts sl tl w = (Ok r, w1)
    /\ (exists r', translateTexts getHash backend' texts sl tl w1 = (Ok r', w1))
    /\ (List.NoDup (List.map getHash (uncached getHash cache texts)) ->
        translateTexts getHash backend' texts sl tl w1 = (Ok r, w1)).
Proof.
  intros Hc Hans cache.
  destruct (uncached getHash cache texts) as [|t0 u0] eqn:Eu.
  { pose proof (uncached_nil_all getHash cache texts Eu) as Hall.
    eexists _, w. split; [apply translateTexts_hit; [reflexivity | exact Hall]|].
    split; [eexists|intros _];
      (apply translateTexts_hit; [reflexivity | exact Hall]). }
  rewrite <- Eu.
  destruct (translateTexts_contract_run getHash backend answer texts sl tl w Hc)
    as (Is & R & Hrun); [fold cache; rewrite Eu; discriminate|].
  cbn zeta in Hrun. fold cache in Hrun.
  set (u := uncached getHash cache texts) in *.
  set (api := List.map Str (answers_from answer sl tl (fetches w) (chunks u))) in *.
  set (learned := snd (merge getHash api Is u 0 (R, ∅))) in *.
  match type of Hrun with _ = (_, ?x) => set (w1 := x) in * end.
  assert (Hcache1 : default ∅ (storage w1 !! cacheKey sl tl) = learned ∪ cache).
  { unfold w1. cbn [storage]. now rewrite lookup_insert_eq. }
  assert (Hlen : length api = length u).
  { unfold api. rewrite length_map, answers_from_length, chunks_concat;
      [reflexivity | apply Hc]. }
  assert (Htruthy : forall j, j < length u -> truthy (at_index api j) = true).
  { intros j Hj. unfold at_index.
    destruct (api !! j) as [v|] eqn:Ev.
    - cbn [default]. unfold api in Ev.
      apply list_lookup_fmap_Some in Ev as (a & -> & Ha).
      pose proof (answers_from_nonempty answer sl tl (chunks u) Hans (fetches w))
        as Hne.
      eapply Forall_lookup_1 in Hne; [|exact Ha].
      cbn [truthy]. now destruct a.
    - apply lookup_ge_None_1 in Ev. lia. }
  assert (Hcached : forall t, truthy (cache_get cache (getHash t)) = true ->
                              learned !! getHash t = None).
  { intros t Ht. unfold learned.
    rewrite merge_learned_absent by now apply uncached_hash_absent.
    apply lookup_empty. }
  assert (Hall : forallb (fun text => truthy (cache_get (learned ∪ cache)
                                                        (getHash text)))
                         texts = true).
  { apply forallb_forall. intros t Hin.
    destruct (truthy (cache_get cache (getHash t))) eqn:Et.
    - unfold cache_get in *. now rewrite lookup_union_r by (apply Hcached, Et).
    - assert (Hu : In (getHash t) (List.map getHash u)).
      { apply List.in_map. unfold u, uncached. apply List.filter_In.
        split; [exact Hin | now rewrite Et]. }
      destruct (merge_learned_some getHash api Is u (getHash t) Hu 0 R ∅)
        as (j & Hj & Hl).
      fold learned in Hl. unfold cache_get.
      rewrite (lookup_union_Some_l _ cache _ _ Hl). cbn [default].
      now apply Htruthy. }
  eexists _, w1. split; [exact Hrun|]. split.
  - eexists. apply translateTexts_hit; [exact Hcache1 | exact Hall].
  - intros Hnd. rewrite (translateTexts_hit _ _ _ _ _ _ _ Hcache1 Hall).
    f_equal. f_equal. symmetry.
    rewrite <- (drop_0 api) at 1.
    apply place_read_back; [exact Hcached|].
    intros j x Hj. unfold learned. now apply merge_learned_at.
Qed.

Lemma translateTexts_again_witness :
  exists r w1,
    translateTexts (fun s => s) (per_text_backend shout) twelve
      (lit "en") (lit "ja") warm_world = (Ok r, w1)
    /\ (exists r', translateTexts (fun s => s) down twelve
                     (lit "en") (lit "ja") w1 = (Ok r', w1))
    /\ (List.NoDup
          (List.map (fun s => s)
             (uncached (fun s => s)
                (default ∅ (storage warm_world !! cacheKey (lit "en") (lit "ja")))
                twelve)) ->
        translateTexts (fun s => s) down twelve (lit "en") (lit "ja") w1
        = (Ok r, w1)).
Proof.
  apply (translateTexts_again (fun s => s) (per_text_backend shout) down
           (per_text_answer shout) twelve (lit "en") (lit "ja") warm_world
           (per_text_follows_contract shout)).
  intros n req. unfold per_text_answer, shout.
  induction (r_q req) as [|t q IH]; constructor; [|exact IH].
  destruct t; discriminate.
Defined.

End ClientExtras.

(* ===================================================================== *)
(** ** A pass whose batches fail *)
(* ===================================================================== *)

Module FailedPass.

Import Dom Content Background Session SessionProofs PageExtras PassExtras.

(** The answers that send a batch down one of the two clean-up paths: the
    promise rejects, the answer carries a truthy [error], or it has no
    [translated] to index. *)
Definition failure (r : response) : bool :=
  match r with
  | Rejected => true
  | Response error translated =>
      truthy error
      || match translated with
         | Undef | Null => true
         | _ => false
         end
  end.

(** An element of an untouched page while its batch is under way: marked,
    with or without its indicator. *)
Definition marked (f0 : fragment) : fragment := set_marker MARK_LOADING f0.

Definition loading (f0 : fragment) : fragment := showLoadingIndicator (marked f0).

Lemma setAttribute_idem (name value : jsstring) attrs :
  setAttribute name value (setAttribute name value attrs)
  = setAttribute name value attrs.
Proof.
  induction attrs as [|[k v] attrs IH]; cbn.
  - unfold eqs. now rewrite bool_decide_eq_true_2.
  - destruct (eqs k name) eqn:E; cbn; rewrite E; [reflexivity | now f_equal].
Qed.

Lemma set_marker_idem value (f : fragment) :
  set_marker value (set_marker value f) = set_marker value f.
Proof.
  destruct f as [[d|d|tag attrs ch] e a]; try reflexivity.
  unfold set_marker, map_attrs. cbn [f_node f_inside_excluded f_after].
  now rewrite setAttribute_idem.
Qed.

Lemma clear_set_marker value (f : fragment) :
  untouched f = true -> clear_marker (set_marker value f) = f.
Proof.
  intros H. destruct f as [n e a]. unfold untouched in H.
  cbn [f_node f_after] in H. apply andb_true_iff in H as [_ Hn].
  destruct n as [d|d|tag attrs ch]; try reflexivity.
  unfold clear_marker, set_marker, map_attrs.
  cbn [f_node f_inside_excluded f_after].
  rewrite removeAttribute_setAttribute, removeAttribute_absent; [reflexivity|].
  unfold hasAttribute in Hn. cbn [attrs_of] in Hn.
  now destruct (getAttribute TRANSLATED_ATTR attrs).
Qed.

Lemma clear_untouched (f : fragment) : untouched f = true -> clear_marker f = f.
Proof.
  intros H. destruct f as [n e a]. unfold untouched in H.
  cbn [f_node f_after] in H. apply andb_true_iff in H as [_ Hn].
  destruct n as [d|d|tag attrs ch]; try reflexivity.
  unfold clear_marker, map_attrs. cbn [f_node f_inside_excluded f_after].
  rewrite removeAttribute_absent; [reflexivity|].
  unfold hasAttribute in Hn. cbn [attrs_of] in Hn.
  now destruct (getAttribute TRANSLATED_ATTR attrs).
Qed.

Lemma untouched_after (f : fragment) : untouched f = true -> f_after f = [].
Proof.
  unfold untouched. destruct (f_after f); [reflexivity | discriminate].
Qed.

(** The three forms of an element during a failing batch. *)
Definition in_flight (f0 f : fragment) : Prop :=
  f = marked f0 \/ f = loading f0.

Section Steps.

Variable f0 : fragment.
Hypothesis Hf0 : untouched f0 = true.

Lemma marked_after : f_after (marked f0) = [].
Proof. unfold marked, set_marker, map_attrs. cbn [f_after]. now apply untouched_after. Qed.

Lemma loading_eq :
  loading f0
  = mkFragment (f_node (marked f0)) (f_inside_excluded (marked f0)) [Loader].
Proof. unfold loading, showLoadingIndicator. now rewrite marked_after. Qed.

Lemma step_mark (f : fragment) :
  f = f0 \/ in_flight f0 f ->
  showLoadingIndicator (set_marker MARK_LOADING f) = loading f0.
Proof.
  intros [-> | [-> | ->]]; [reflexivity | |].
  - unfold marked. now rewrite set_marker_idem.
  - rewrite loading_eq. unfold marked, set_marker, map_attrs, showLoadingIndicator.
    cbn [f_node f_inside_excluded f_after].
    destruct (f_node f0) as [d|d|tag attrs ch]; try reflexivity.
    now rewrite setAttribute_idem.
Qed.

Lemma step_remove (f : fragment) :
  f = f0 \/ in_flight f0 f ->
  removeLoadingIndicator f = f0 /\ f = f0 \/ removeLoadingIndicator f = marked f0.
Proof.
  intros [-> | [-> | ->]].
  - left. split; [|reflexivity]. unfold removeLoadingIndicator.
    now rewrite untouched_after.
  - right. unfold removeLoadingIndicator. now rewrite marked_after.
  - right. rewrite loading_eq. unfold removeLoadingIndicator. cbn [f_after f_node f_inside_excluded].
    pose proof marked_after as Ha. destruct (marked f0) as [n e a].
    cbn in Ha. now subst a.
Qed.

Lemma step_revert (f : fragment) :
  f = f0 \/ in_flight f0 f ->
  clear_marker (removeLoadingIndicator f) = f0.
Proof.
  intros H. destruct (step_remove f H) as [[-> _] | ->].
  - now apply clear_untouched.
  - now apply clear_set_marker.
Qed.

End Steps.

(** The page during a failing batch, against the untouched page it
    started from. *)
Definition tracks (awaiting : nat -> Prop) (page0 page : list fragment) : Prop :=
  length page = length page0
  /\ forall i f0 f, page0 !! i = Some f0 -> page !! i = Some f ->
                    f = f0 \/ (awaiting i /\ in_flight f0 f).

Lemma tracks_mono (P Q : nat -> Prop) page0 page :
  (forall i, P i -> Q i) -> tracks P page0 page -> tracks Q page0 page.
Proof.
  intros HPQ [Hl H]. split; [exact Hl|]. intros i f0 f H0 Hf.
  destruct (H i f0 f H0 Hf) as [-> | [HP Hi]]; [now left|].
  right. split; [now apply HPQ | exact Hi].
Qed.

Lemma tracks_alter (P Q : nat -> Prop) g (el : nat) page0 page :
  tracks P page0 page ->
  (forall f0 f, page0 !! el = Some f0 ->
                f = f0 \/ in_flight f0 f ->
                g f = f0 \/ (Q el /\ in_flight f0 (g f))) ->
  (forall i, i <> el -> P i -> Q i) ->
  tracks Q page0 (alter g el page).
Proof.
  intros [Hl Hp] Hg HPQ. split; [now rewrite length_alter|].
  intros i f0 f' H0 Hf'. destruct (Nat.eq_dec i el) as [->|Hne].
  - rewrite list_lookup_alter_eq in Hf'.
    destruct (page !! el) as [f|] eqn:Ef; cbn in Hf'; [|discriminate Hf'].
    injection Hf' as <-. apply (Hg f0 f H0).
    destruct (Hp el f0 f H0 Ef) as [-> | [_ Hi]]; [now left | now right].
  - rewrite list_lookup_alter_ne in Hf' by congruence.
    destruct (Hp i f0 f' H0 Hf') as [-> | [HP Hi]]; [now left|].
    right. split; [now apply HPQ | exact Hi].
Qed.

Lemma tracks_none page0 page : tracks (fun _ => False) page0 page -> page = page0.
Proof.
  intros [Hl H]. apply list_eq. intros i.
  destruct (page0 !! i) as [f0|] eqn:E0.
  - destruct (page !! i) as [f|] eqn:Ef.
    + destruct (H i f0 f E0 Ef) as [-> | [[] _]]. reflexivity.
    + apply lookup_ge_None_1 in Ef. apply lookup_lt_Some in E0. lia.
  - apply lookup_ge_None_2. apply lookup_ge_None_1 in E0. lia.
Qed.

Section Batch.

Variable page0 : list fragment.
Hypothesis Hpage0 : forallb untouched page0 = true.

Lemma page0_untouched (i : nat) (f0 : fragment) :
  page0 !! i = Some f0 -> untouched f0 = true.
Proof.
  intros H. rewrite forallb_forall in Hpage0. apply Hpage0.
  eapply list_elem_of_In, list_elem_of_lookup_2, H.
Qed.

Lemma tracks_mark_loading (P : nat -> Prop) (batch : list nat) :
  (forall el, In el batch -> P el) ->
  forall page, tracks P page0 page -> tracks P page0 (mark_loading batch page).
Proof.
  unfold mark_loading. induction batch as [|el batch IH]; intros HP page Ht;
    [exact Ht|].
  cbn [fold_left]. apply IH; [intros x Hx; apply HP; now right|].
  apply (tracks_alter P P); [exact Ht | | tauto].
  intros f0 f H0 Hf. right. split; [apply HP; now left|]. right.
  apply step_mark; [eapply page0_untouched, H0 | exact Hf].
Qed.

Lemma tracks_remove (P : nat -> Prop) (el : nat) page :
  tracks P page0 page ->
  tracks P page0 (alter removeLoadingIndicator el page).
Proof.
  intros Ht. destruct Ht as [Hl Hp]. split; [now rewrite length_alter|].
  intros i f0 f' H0 Hf'. destruct (Nat.eq_dec i el) as [->|Hne].
  - rewrite list_lookup_alter_eq in Hf'.
    destruct (page !! el) as [f|] eqn:Ef; cbn in Hf'; [|discriminate Hf'].
    injection Hf' as <-.
    destruct (Hp el f0 f H0 Ef) as [-> | [HP Hi]].
    + left. destruct (step_remove f0 (page0_untouched el f0 H0) f0 (or_introl eq_refl))
        as [[H _] | H]; [exact H|].
      unfold removeLoadingIndicator.
      now rewrite (untouched_after f0 (page0_untouched el f0 H0)).
    + destruct (step_remove f0 (page0_untouched el f0 H0) f (or_intror Hi))
        as [[H _] | H]; [now left|].
      right. split; [exact HP | left; exact H].
  - rewrite list_lookup_alter_ne in Hf' by congruence. now apply Hp.
Qed.

Lemma tracks_revert_batch (batch : list nat) :
  forall (P : nat -> Prop) page,
    tracks P page0 page ->
    tracks (fun i => P i /\ ~ In i batch) page0 (revert_batch batch page).
Proof.
  unfold revert_batch. induction batch as [|el batch IH]; intros P page Ht.
  - cbn [fold_left]. eapply tracks_mono; [|exact Ht]. cbn. tauto.
  - cbn [fold_left].
    eapply tracks_mono;
      [|apply (IH (fun i => P i /\ i <> el)),
          (tracks_alter P (fun i => P i /\ i <> el)); [exact Ht| |]].
    + cbn. intros i [[HP Hne] Hni]. split; [exact HP|]. intros [->|Hi]; tauto.
    + intros f0 f H0 Hf. left.
      apply step_revert; [eapply page0_untouched, H0 | exact Hf].
    + tauto.
Qed.

Lemma translate_batch_failure sendMessage batch (s : session) :
  doc s = page0 ->
  failure (sendMessage (sent s)
             (List.map fst
                (List.map (fun el => getTranslatableText (node_at (doc s) el))
                          batch))) = true ->
  doc (translate_batch sendMessage batch s) = page0.
Proof.
  intros Hdoc Hfail. apply tracks_none.
  assert (H0 : tracks (fun i => In i batch) page0 page0).
  { split; [reflexivity|]. intros i f0 f Ha Hb. left. congruence. }
  assert (Hm : tracks (fun i => In i batch) page0 (mark_loading batch (doc s))).
  { rewrite Hdoc. apply tracks_mark_loading; [tauto | exact H0]. }
  assert (Hr : forall page, tracks (fun i => In i batch) page0 page ->
                            tracks (fun _ => False) page0 (revert_batch batch page)).
  { intros page Hp. eapply tracks_mono; [|apply tracks_revert_batch, Hp].
    cbn. tauto. }
  unfold translate_batch. cbn [doc].
  destruct (sendMessage _ _) as [|error translated]; [now apply Hr|].
  cbn [failure] in Hfail. destruct (truthy error); [now apply Hr|].
  cbn [orb] in Hfail.
  destruct batch as [|el batch].
  - cbn. rewrite Hdoc. eapply tracks_mono; [|exact H0]. cbn. tauto.
  - cbn [List.map combine insert_results].
    assert (Hnone : translated_at translated 0 = None)
      by (destruct translated; try discriminate Hfail; reflexivity).
    rewrite Hnone. apply Hr. now apply tracks_remove.
Qed.

End Batch.

Lemma batch_loop_failure sendMessage targets (page0 : list fragment) fuel :
  forallb untouched page0 = true ->
  (forall n texts, failure (sendMessage n texts) = true) ->
  forall i s, doc s = page0 ->
              doc (batch_loop sendMessage fuel targets i s) = page0.
Proof.
  intros Hu Hfail. induction fuel as [|fuel IH]; intros i s Hdoc; [exact Hdoc|].
  cbn [batch_loop]. destruct (i <? length targets); [|exact Hdoc].
  apply IH. apply translate_batch_failure; [exact Hu | exact Hdoc | apply Hfail].
Qed.

(** X20: a pass whose batches all fail changes nothing on the page.  On a
    page the extension has not touched, if every TRANSLATE message is
    answered by a rejection, by an answer with a truthy [error] or by one
    without [translated], then after [translatePage] the page is exactly
    as before: every marker and indicator the pass had set is taken back.
    What [handleTranslateRequest] answers when [translateTexts] throws is
    such an answer, whatever the error message. *)
Theorem failed_pass_leaves_page sendMessage (s : session) :
  forallb untouched (doc s) = true ->
  (forall n texts, failure (sendMessage n texts) = true) ->
  doc (translatePage sendMessage s) = doc s
  /\ forall getHash backend texts sl tl w e w',
       translateTexts getHash backend texts sl tl w = (Throw e, w') ->
       failure (fst (handleTranslateRequest getHash backend texts sl tl w)) = true.
Proof.
  intros Hu Hfail. split.
  - unfold translatePage. destruct (isTranslating s); [reflexivity|].
    cbn [set_isTranslating doc].
    destruct (collectTargetElements (doc s)) as [|t targets]; [reflexivity|].
    cbn [set_isTranslating set_isTranslated doc].
    now apply batch_loop_failure.
  - intros getHash backend texts sl tl w e w' H.
    unfold handleTranslateRequest. rewrite H. cbn [fst failure].
    apply orb_true_r.
Qed.

Lemma failed_pass_leaves_page_witness :
  let sendMessage := fun (_ : nat) (_ : list jsstring) =>
                       Response (Str (lit "HTTP 503: Service Unavailable")) Undef in
  let s := mkSession mixed_page false false 0 [] in
  doc (translatePage sendMessage s) = doc s
  /\ forall getHash backend texts sl tl w e w',
       translateTexts getHash backend texts sl tl w = (Throw e, w') ->
       failure (fst (handleTranslateRequest getHash backend texts sl tl w)) = true.
Proof.
  intros sendMessage s.
  apply (failed_pass_leaves_page sendMessage s); [reflexivity|].
  intros n texts. reflexivity.
Defined.

End FailedPass.

(* ===================================================================== *)
(** ** content.js and popup.js: the messages *)
(* ===================================================================== *)

Module Messages.

Import Dom Content Background Session.

(** The [type] of a message to the content script. *)
Inductive message : Type :=
  | TOGGLE_TRANSLATE
  | START_TRANSLATE
  | STOP_TRANSLATE
  | GET_STATUS
  | OtherMessage.

(** The object handed to [sendResponse]; [isTranslating] is only there in
    the answer to GET_STATUS. *)
Record reply : Type := mkReply {
  reply_isTranslated : bool;
  reply_isTranslating : option bool
}.

(** The messages of [showStatus] in the click handler. *)
Inductive status : Type :=
  | StatusRemoved                     (* 翻訳を解除しました *)
  | StatusLoading                     (* 翻訳中... *)
  | StatusDone                        (* 翻訳完了 ✓ *)
  | StatusNothing                     (* 翻訳対象がありません *)
  | StatusError (message : jsstring). (* エラー: ${error.message} *)

(** The active tab as the click handler meets it: the query yields no tab
    with an id; or no content script listens in the tab, so that
    [chrome.tabs.sendMessage] rejects with an error; or the content script
    listens, with its session. *)
Inductive tab : Type :=
  | NoTab
  | Unreachable (message : jsstring)
  | Listening (s : session).

(** What a click leaves: the popup's own [isTranslated], the messages
    handed to [showStatus] and the arguments of the calls of [updateUI]
    (translated, translating), both oldest first, and the tab.  The button
    is disabled during the click and enabled again on every way out. *)
Record clicked : Type := mkClicked {
  popup_isTranslated : bool;
  shown : list status;
  looks : list (bool * bool);
  page : tab
}.

Section Listener.

Variable sendMessage : nat -> list jsstring -> response.

(** The listener of content.js, each message handled to completion: the
    session after it and the answer sent, if any. *)
Definition onMessage (m : message) (s : session) : session * option reply :=
  match m with
  | TOGGLE_TRANSLATE =>
      let s' := toggleTranslate sendMessage s in
      (s', Some (mkReply (isTranslated s') None))
  | START_TRANSLATE =>
      let s' := translatePage sendMessage s in
      (s', Some (mkReply true None))
  | STOP_TRANSLATE =>
      let s' := removeAllTranslations s in
      (s', Some (mkReply false None))
  | GET_STATUS =>
      (s, Some (mkReply (isTranslated s) (Some (isTranslating s))))
  | OtherMessage => (s, None)
  end.

(** [response?.isTranslated || false] *)
Definition read_isTranslated (r : option reply) : bool :=
  match r with
  | Some answer => reply_isTranslated answer
  | None => false
  end.

(** The click handler of popup.js. *)
Definition click (isTranslated : bool) (t : tab) : clicked :=
  match t with
  | NoTab => mkClicked isTranslated [] [] t
  | Unreachable message =>
      if isTranslated then
        mkClicked isTranslated [StatusError message] [] t
      else
        mkClicked isTranslated [StatusLoading; StatusError message]
                  [(false, true)] t
  | Listening s =>
      if isTranslated then
        let s' := fst (onMessage STOP_TRANSLATE s) in
        mkClicked false [StatusRemoved] [(false, false)] (Listening s')
      else
        let r := onMessage START_TRANSLATE s in
        let translated := read_isTranslated (snd r) in
        mkClicked translated
                  [StatusLoading; if translated then StatusDone else StatusNothing]
                  [(false, true); (translated, false)]
                  (Listening (fst r))
  end.

End Listener.

(** X21: what the content script answers.  The answers to
    TOGGLE_TRANSLATE, STOP_TRANSLATE and GET_STATUS carry the value the
    flag [isTranslated] has once the message is handled, and GET_STATUS
    changes nothing.  The answer to START_TRANSLATE says [true] whatever
    happened, while the flag is set only if it was set before or the pass
    ran and collected an element. *)
Theorem onMessage_reply sendMessage (m : message) (s : session) :
  let r := onMessage sendMessage m s in
  (m = TOGGLE_TRANSLATE \/ m = STOP_TRANSLATE \/ m = GET_STATUS ->
   read_isTranslated (snd r) = isTranslated (fst r))
  /\ (m = GET_STATUS -> fst r = s)
  /\ (m = START_TRANSLATE ->
      read_isTranslated (snd r) = true
      /\ isTranslated (fst r)
         = isTranslated s
           || (negb (isTranslating s)
               && negb (Nat.eqb (length (collectTargetElements (doc s))) 0))).
Proof.
  cbn zeta. split; [|split].
  - intros [-> | [-> | ->]]; reflexivity.
  - intros ->. reflexivity.
  - intros ->. split; [reflexivity|]. cbn [onMessage fst]. unfold translatePage.
    destruct (isTranslating s); [now rewrite orb_false_r|].
    cbn [set_isTranslating doc negb andb].
    destruct (collectTargetElements (doc s)); cbn; [now rewrite orb_false_r|].
    now rewrite orb_true_r.
Qed.

Lemma onMessage_reply_witness :
  let sendMessage := fun (_ : nat) (_ : list jsstring) => Rejected in
  let s := mkSession SessionProofs.quiet_page false false 0 [] in
  let r := onMessage sendMessage START_TRANSLATE s in
  read_isTranslated (snd r) = true /\ isTranslated (fst r) = false.
Proof.
  intros sendMessage s r.
  destruct (onMessage_reply sendMessage START_TRANSLATE s) as (_ & _ & H).
  destruct (H eq_refl) as [H1 H2]. split; [exact H1|].
  subst r. rewrite H2. reflexivity.
Defined.

(** X22: the popup after a click on the translate button.  If the active
    tab has no id, the click changes and shows nothing.  If no content
    script answers in the tab, the popup shows the error and keeps its own
    [isTranslated]; when it was about to start a translation the button
    keeps the look of a translation in progress.  If the content script
    answers and the popup's flag is up, the translations are removed, the
    flag goes down and the removal is reported.  If the content script
    answers and the popup's flag is down, the popup ends up showing the
    translation as done and holding [isTranslated = true], whatever the
    page holds and the service worker answers.  In no case is the notice
    that there was nothing to translate shown.  On a page where nothing is
    collected the page's own flag stays down, so the popup and the answer
    to GET_STATUS disagree. *)
Theorem click_reports_done sendMessage :
  (forall isTranslated, click sendMessage isTranslated NoTab
                        = mkClicked isTranslated [] [] NoTab)
  /\ (forall message,
        click sendMessage true (Unreachable message)
        = mkClicked true [StatusError message] [] (Unreachable message))
  /\ (forall message,
        click sendMessage false (Unreachable message)
        = mkClicked false [StatusLoading; StatusError message]
                    [(false, true)] (Unreachable message))
  /\ (forall s,
        click sendMessage true (Listening s)
        = mkClicked false [StatusRemoved] [(false, false)]
                    (Listening (removeAllTranslations s)))
  /\ (forall s,
        click sendMessage false (Listening s)
        = mkClicked true [StatusLoading; StatusDone]
                    [(false, true); (true, false)]
                    (Listening (translatePage sendMessage s)))
  /\ (forall isTranslated t,
        ~ In StatusNothing (shown (click sendMessage isTranslated t)))
  /\ (forall s,
        isTranslated s = false ->
        collectTargetElements (doc s) = [] ->
        exists s',
          page (click sendMessage false (Listening s)) = Listening s'
          /\ popup_isTranslated (click sendMessage false (Listening s)) = true
          /\ read_isTranslated (snd (onMessage sendMessage GET_STATUS s'))
             = false).
Proof.
  do 5 (split; [reflexivity|]). split.
  { intros [|] [|message|s]; cbn; intros H;
      repeat (destruct H as [H|H]; [discriminate H|]); exact H. }
  intros s Hd Hn. exists (translatePage sendMessage s).
  split; [reflexivity|]. split; [reflexivity|].
  cbn [onMessage snd read_isTranslated reply_isTranslated].
  unfold translatePage. destruct (isTranslating s); [exact Hd|].
  cbn [set_isTranslating doc]. rewrite Hn. exact Hd.
Qed.

Lemma click_reports_done_witness :
  let sendMessage := fun (_ : nat) (_ : list jsstring) => Rejected in
  let s := mkSession SessionProofs.quiet_page false false 0 [] in
  isTranslated s = false
  /\ collectTargetElements (doc s) = []
  /\ exists s',
       page (click sendMessage false (Listening s)) = Listening s'
       /\ popup_isTranslated (click sendMessage false (Listening s)) = true
       /\ read_isTranslated (snd (onMessage sendMessage GET_STATUS s')) = false.
Proof.
  intros sendMessage s.
  split; [reflexivity|]. split; [reflexivity|].
  apply (click_reports_done sendMessage); reflexivity.
Defined.

End Messages.

(* ===================================================================== *)
(** ** The client against any backend *)
(* ===================================================================== *)

Module ClientShape.

Import Background ClientProofs ClientExtras.

Lemma place_cached_at (getHash : jsstring -> jsstring)
    (cache : gmap jsstring jsval) (texts : list jsstring) :
  forall (fetched : list jsval) (i : nat) (t : jsstring),
    texts !! i = Some t ->
    truthy (cache_get cache (getHash t)) = true ->
    place getHash cache texts fetched !! i = Some (cache_get cache (getHash t)).
Proof.
  induction texts as [|x texts IH]; intros fetched i t Hi Ht; [discriminate Hi|].
  cbn [place]. destruct i as [|i].
  - injection Hi as ->. now rewrite Ht.
  - cbn in Hi. destruct (truthy (cache_get cache (getHash x))).
    + cbn. now apply IH.
    + destruct fetched; cbn; now apply IH.
Qed.

(** What a successful call returns, as a placement of whatever was
    fetched. *)
Lemma translateTexts_placed (getHash : jsstring -> jsstring)
    (backend : nat -> request -> fetch_outcome) (texts : list jsstring)
    (sl tl : jsstring) (w w' : world) (r : list jsval) :
  translateTexts getHash backend texts sl tl w = (Ok r, w') ->
  exists fetched,
    r = place getHash (default ∅ (storage w !! cacheKey sl tl)) texts fetched.
Proof.
  set (cache := default ∅ (storage w !! cacheKey sl tl)).
  unfold translateTexts. fold cache.
  set (st := check_cache getHash cache texts 0
               (mkLookup (replicate (length texts) Null) [] [])).
  assert (Hm : forall api,
             fst (merge getHash api (uncachedIndices st) (uncachedTexts st) 0
                    (results st, ∅))
             = place getHash cache texts api).
  { intros api.
    destruct (check_then_merge getHash cache (length texts) api ∅ texts (le_n _))
      as (Hm & _). cbn zeta in Hm. fold st in Hm.
    now rewrite Nat.sub_diag, app_nil_r in Hm. }
  destruct (uncachedTexts st) as [|u us] eqn:Eu.
  - intros H. injection H as <- _. exists []. now rewrite <- (Hm []).
  - assert (Hm' : forall api,
               fst (merge getHash api (uncachedIndices st) (uncachedTexts st) 0
                      (results st, ∅))
               = place getHash cache texts api)
      by (intros api; rewrite Eu; apply Hm).
    clear Hm. rename Hm' into Hm.
    rewrite <- Eu. unfold bind at 1.
    destruct (fetchTranslationsFromApi backend (uncachedTexts st) sl tl w)
      as [[api|e] w1]; [|discriminate].
    unfold bind, storage_set, ret. intros H. injection H as <- _.
    exists api. apply Hm.
Qed.

(** X23: the shape of a result, whatever the backend answers.  A call of
    [translateTexts] that succeeds returns exactly one result per input,
    and every input found in the cache has its cached value at its own
    position, even when the backend's answers are too few, too many or
    of another shape. *)
Theorem translateTexts_shape (getHash : jsstring -> jsstring)
    (backend : nat -> request -> fetch_outcome) (texts : list jsstring)
    (sl tl : jsstring) (w w' : world) (r : list jsval) :
  translateTexts getHash backend texts sl tl w = (Ok r, w') ->
  let cache := default ∅ (storage w !! cacheKey sl tl) in
  length r = length texts
  /\ forall i t, texts !! i = Some t ->
                 truthy (cache_get cache (getHash t)) = true ->
                 r !! i = Some (cache_get cache (getHash t)).
Proof.
  intros H cache. destruct (translateTexts_placed _ _ _ _ _ _ _ _ H) as [api ->].
  split; [apply length_place | intros i t; apply place_cached_at].
Qed.

(** A backend that answers every request with a single item. *)
Definition terse : nat -> request -> fetch_outcome :=
  fun _ _ => FetchResponse 200 (lit "OK") (Some (Arr [Str (lit "x")])).

Lemma translateTexts_shape_witness :
  let r := translateTexts (fun s => s) terse twelve (lit "en") (lit "ja")
             warm_world in
  exists items,
    fst r = Ok items
    /\ length items = length twelve
    /\ items !! 2 = Some (Str [12354%N]).
Proof.
  intros r.
  assert (E : r = (Ok (default [] (match fst r with Ok l => Some l | _ => None end)),
                   snd r)) by (vm_compute; reflexivity).
  destruct (translateTexts_shape _ _ _ _ _ _ _ _ E) as [Hl Hc].
  eexists. split; [now rewrite E at 1|]. split; [exact Hl|].
  apply (Hc 2 (lit "A")); reflexivity.
Defined.

(** *** What a call writes *)



End ClientShape.

(* ===================================================================== *)
(** ** A pass that is answered well *)
(* ===================================================================== *)

Module GoodPass.

Import Dom Content Background Session SessionProofs PageExtras PassExtras
  RepeatPass FailedPass.

Lemma collect_from_NoDup (page : list fragment) :
  forall i, NoDup (collect_from i page).
Proof.
  induction page as [|f page IH]; intros i; [constructor|].
  cbn [collect_from]. destruct (eligible f); [|apply IH].
  constructor; [|apply IH]. intros H. apply list_elem_of_In in H.
  apply collect_from_spec in H. lia.
Qed.

Lemma setAttribute_override (name v1 v2 : jsstring) attrs :
  setAttribute name v2 (setAttribute name v1 attrs) = setAttribute name v2 attrs.
Proof.
  induction attrs as [|[k v] attrs IH]; cbn.
  - unfold eqs. now rewrite bool_decide_eq_true_2.
  - destruct (eqs k name) eqn:E; cbn; rewrite E; [reflexivity | now f_equal].
Qed.

(** Altering along a list of distinct positions, each position with its
    own function. *)
Lemma fold_alter_at (G : nat -> fragment -> fragment) (batch : list nat) :
  NoDup batch ->
  forall (page : list fragment) (j : nat),
    fold_left (fun d el => alter (G el) el d) batch page !! j
    = if decide (j ∈ batch) then G j <$> page !! j else page !! j.
Proof.
  induction 1 as [|el batch Hel Hnd IH]; intros page j; cbn [fold_left].
  - destruct (decide (j ∈ [])) as [H|_]; [now apply elem_of_nil in H | reflexivity].
  - rewrite IH. destruct (decide (j = el)) as [->|Hne].
    + destruct (decide (el ∈ batch)) as [|_]; [contradiction|].
      destruct (decide (el ∈ el :: batch)) as [_|Hn];
        [apply list_lookup_alter_eq | exfalso; apply Hn; now left].
    + rewrite list_lookup_alter_ne by congruence.
      destruct (decide (j ∈ batch)) as [Hin|Hout];
        destruct (decide (j ∈ el :: batch)) as [Hin'|Hout']; try reflexivity.
      * exfalso. apply Hout'. now right.
      * exfalso. apply elem_of_cons in Hin' as [?|?]; [congruence | contradiction].
Qed.

Lemma alter_alter (g h : fragment -> fragment) (el : nat) (page : list fragment) :
  alter g el (alter h el page) = alter (fun f => g (h f)) el page.
Proof.
  revert el. induction page as [|f page IH]; intros el; [reflexivity|].
  destruct el as [|el]; cbn; [reflexivity | f_equal; apply IH].
Qed.

Lemma fold_left_fst (A : Type) (F : nat -> A -> A) (b : list (nat * PlaceholderMap)) :
  forall a,
    fold_left (fun d entry => F (fst entry) d) b a
    = fold_left (fun d el => F el d) (List.map fst b) a.
Proof. induction b as [|x b IH]; intros a; [reflexivity | apply IH]. Qed.

Section Good.

(** The translation the service worker returns for a text. *)
Variable tr : jsstring -> jsstring.
Hypothesis tr_nonempty : forall t, tr t <> [].

(** A service worker that answers every message with the translations of
    its texts. *)
Definition worker : nat -> list jsstring -> response :=
  fun _ texts => Response Undef (Arr (List.map (fun t => Str (tr t)) texts)).

(** The markup inserted for an element. *)
Definition html_of (n : node) : option jsstring :=
  restorePlaceholders (tr (fst (getTranslatableText n)))
                      (snd (getTranslatableText n)).

(** The element once translated: marked as done and followed by its
    translation. *)
Definition translated_by (f : fragment) : fragment :=
  match html_of (f_node f) with
  | Some html => set_marker MARK_DONE (insertTranslation html f)
  | None => f
  end.

(** What the insertion loop does to an element. *)
Definition finish (n : node) (f : fragment) : fragment :=
  match html_of n with
  | Some html =>
      set_marker MARK_DONE (insertTranslation html (removeLoadingIndicator f))
  | None => f
  end.

Lemma html_total (n : node) : exists html, html_of n = Some html.
Proof. apply restore_token_chars, CodecExtras.extracted_key_chars. Qed.

Lemma finish_loading (f0 : fragment) :
  untouched f0 = true -> finish (f_node f0) (loading f0) = translated_by f0.
Proof.
  intros Hu. unfold finish, translated_by.
  destruct (html_of (f_node f0)) as [html|] eqn:Eh;
    [|destruct (html_total (f_node f0)) as [x Hx]; congruence].
  rewrite (loading_eq f0 Hu).
  pose proof (untouched_after f0 Hu) as Ha.
  destruct f0 as [n e a]. cbn [f_after] in Ha. subst a.
  unfold removeLoadingIndicator, marked, set_marker, map_attrs, insertTranslation.
  cbn [f_node f_inside_excluded f_after].
  destruct n as [d|d|tag attrs ch]; try reflexivity.
  cbn [tag_of]. now rewrite setAttribute_override.
Qed.

Lemma insert_results_fold (items : list jsval) (G : nat -> fragment -> fragment)
    (b : list (nat * PlaceholderMap)) :
  forall index page,
    (forall k el placeholderMap,
        b !! k = Some (el, placeholderMap) ->
        exists t html,
          items !! (index + k) = Some (Str t) /\ t <> []
          /\ restorePlaceholders t placeholderMap = Some html
          /\ forall f, G el f
                       = set_marker MARK_DONE
                           (insertTranslation html (removeLoadingIndicator f))) ->
    insert_results (Arr items) b index page
    = (true, fold_left (fun d entry => alter (G (fst entry)) (fst entry) d) b page).
Proof.
  induction b as [|[el placeholderMap] b IH]; intros index page H; [reflexivity|].
  destruct (H 0 el placeholderMap eq_refl) as (t & html & Hi & Ht & Hr & HG).
  rewrite Nat.add_0_r in Hi.
  cbn [insert_results translated_at fold_left fst]. rewrite Hi.
  cbn [default]. unfold id. cbn [truthy].
  destruct t as [|c t]; [congruence|]. cbn [Js.nonempty]. rewrite Hr.
  rewrite IH.
  - f_equal. f_equal. rewrite alter_alter.
    apply list_alter_ext; [|reflexivity]. intros f _. symmetry. apply HG.
  - intros k el' pm' Hk. destruct (H (S k) el' pm' Hk) as (t' & html' & Hi' & H').
    exists t', html'. split; [|exact H'].
    now replace (S index + k) with (index + S k) by lia.
Qed.

Lemma translate_batch_good (batch : list nat) (s : session) :
  NoDup batch ->
  (forall el, el ∈ batch ->
              exists f0, doc s !! el = Some f0 /\ untouched f0 = true) ->
  forall j,
    doc (translate_batch worker batch s) !! j
    = if decide (j ∈ batch) then translated_by <$> doc s !! j else doc s !! j.
Proof.
  intros Hnd Hin j. unfold translate_batch, worker. cbn [doc truthy].
  set (data := List.map (fun el => getTranslatableText (node_at (doc s) el)) batch).
  rewrite (insert_results_fold _ (fun el => finish (node_at (doc s) el))).
  - rewrite (fold_left_fst _ (fun el d => alter (finish (node_at (doc s) el)) el d)).
    rewrite combine_fst by (unfold data; now rewrite !length_map).
    rewrite fold_alter_at by exact Hnd.
    unfold mark_loading.
    rewrite (fold_alter_at
               (fun _ f => showLoadingIndicator (set_marker MARK_LOADING f)))
      by exact Hnd.
    destruct (decide (j ∈ batch)) as [Hj|Hj]; [|reflexivity].
    destruct (Hin j Hj) as (f0 & Hf0 & Hu). rewrite Hf0. cbn [fmap option_fmap option_map].
    f_equal. unfold node_at. rewrite Hf0. now apply finish_loading.
  - intros k el placeholderMap Hk.
    assert (Hel : batch !! k = Some el
                  /\ placeholderMap = snd (getTranslatableText (node_at (doc s) el))).
    { unfold data in Hk. clear -Hk. revert k Hk.
      induction batch as [|x batch IH]; intros k Hk; [discriminate Hk|].
      destruct k as [|k]; cbn in Hk; [injection Hk as <- <-; now split|].
      apply IH in Hk. exact Hk. }
    destruct Hel as [Hel ->].
    destruct (html_total (node_at (doc s) el)) as [html Hh].
    exists (tr (fst (getTranslatableText (node_at (doc s) el)))), html.
    split; [|split; [apply tr_nonempty | split; [exact Hh|]]].
    + unfold data. rewrite !List.map_map.
      change (List.map ?f batch) with (f <$> batch).
      cbn [Nat.add]. now rewrite list_lookup_fmap, Hel.
    + intros f. unfold finish. now rewrite Hh.
Qed.

Lemma batch_loop_good (page0 : list fragment) (targets : list nat) :
  NoDup targets ->
  (forall el, el ∈ targets -> exists f0, page0 !! el = Some f0) ->
  forallb untouched page0 = true ->
  forall fuel i s,
    length targets <= i + pageBatchSize * fuel ->
    (forall j, doc s !! j
               = if decide (j ∈ take i targets) then translated_by <$> page0 !! j
                 else page0 !! j) ->
    forall j, doc (batch_loop worker fuel targets i s) !! j
              = if decide (j ∈ targets) then translated_by <$> page0 !! j
                else page0 !! j.
Proof.
  intros Hnd Hrange Hu. unfold pageBatchSize.
  induction fuel as [|fuel IH]; intros i s Hl Hinv j; cbn [batch_loop].
  - rewrite Hinv. now rewrite take_ge by lia.
  - destruct (Nat.ltb_spec i (length targets)) as [Hlt|Hge];
      [|rewrite Hinv; now rewrite take_ge by lia].
    apply IH; [unfold pageBatchSize; lia|]. clear j. intros j.
    unfold slice, pageBatchSize. replace (i + 20 - i) with 20 by lia.
    set (batch := take 20 (drop i targets)).
    assert (Hsplit : take (i + 20) targets = take i targets ++ batch)
      by (unfold batch; now rewrite take_take_drop).
    assert (Hparts : NoDup (take i targets ++ batch)).
    { rewrite <- Hsplit.
      apply (sublist_NoDup _ targets); [exact Hnd | apply sublist_take]. }
    apply NoDup_app in Hparts as (_ & Hdisj & Hnb).
    rewrite translate_batch_good; [| exact Hnb |].
    + rewrite Hinv, Hsplit.
      destruct (decide (j ∈ batch)) as [Hj|Hj].
      * destruct (decide (j ∈ take i targets)) as [Hj'|_];
          [exfalso; now apply (Hdisj j Hj')|].
        destruct (decide (j ∈ take i targets ++ batch)) as [_|Hn];
          [reflexivity | exfalso; apply Hn, elem_of_app; now right].
      * destruct (decide (j ∈ take i targets)) as [Hj'|Hj'];
          destruct (decide (j ∈ take i targets ++ batch)) as [Hc|Hc];
          try reflexivity.
        -- exfalso. apply Hc, elem_of_app. now left.
        -- exfalso. apply elem_of_app in Hc as [?|?]; contradiction.
    + intros el Hel.
      assert (Hin : el ∈ targets).
      { eapply subseteq_drop, subseteq_take, Hel. }
      destruct (Hrange el Hin) as [f0 Hf0]. exists f0. split.
      * rewrite Hinv.
        destruct (decide (el ∈ take i targets)) as [Hj'|_];
          [exfalso; now apply (Hdisj el Hj') | exact Hf0].
      * rewrite forallb_forall in Hu. apply Hu.
        eapply list_elem_of_In, list_elem_of_lookup_2, Hf0.
Qed.

(** X25: what a pass makes of a page when the service worker translates.
    On a page the extension has not touched and whose target elements do
    not contain one another (no element matching [TARGET_SELECTORS] inside
    another), with a service worker that answers every batch with one
    non-empty translation per text, the pass leaves every element that
    fails the tests of [collectTargetElements] as it was, and every other
    element marked as done and followed by one new element of its tag,
    whose markup is the restored translation of the element's own text;
    every batch receives its own answers. *)
Theorem translatePage_translates (s : session) :
  no_nested_targets (doc s) = true ->
  isTranslating s = false ->
  forallb untouched (doc s) = true ->
  doc (translatePage worker s)
  = List.map (fun f => if eligible f then translated_by f else f) (doc s)
  /\ forall f, In f (doc s) -> eligible f = true ->
               exists html,
                 html_of (f_node f) = Some html
                 /\ translated_by f
                    = mkFragment (f_node (set_marker MARK_DONE f))
                        (f_inside_excluded f)
                        [Translation (tag_of (f_node f)) html].
Proof.
  intros _ Hg Hu. split.
  - apply list_eq. intros j.
    change (List.map ?f (doc s)) with (f <$> doc s). rewrite list_lookup_fmap.
    assert (Hspec : forall f0, doc s !! j = Some f0 ->
                               (j ∈ collectTargetElements (doc s)
                                <-> eligible f0 = true)).
    { intros f0 Hf0. rewrite list_elem_of_In.
      unfold collectTargetElements. rewrite collect_from_spec, Nat.sub_0_r.
      split.
      - intros (_ & g & Hg' & He). congruence.
      - intros He. split; [lia|]. now exists f0. }
    assert (Hgoal : (if decide (j ∈ collectTargetElements (doc s))
                     then translated_by <$> doc s !! j else doc s !! j)
                    = (fun f => if eligible f then translated_by f else f)
                        <$> doc s !! j).
    { destruct (doc s !! j) as [f0|] eqn:Ef; [|now destruct (decide _)].
      cbn [fmap option_fmap option_map].
      destruct (decide (j ∈ collectTargetElements (doc s))) as [Hin|Hout].
      - apply (Hspec f0 eq_refl) in Hin. now rewrite Hin.
      - destruct (eligible f0) eqn:He; [|reflexivity].
        exfalso. apply Hout. now apply (Hspec f0 eq_refl). }
    rewrite <- Hgoal. unfold translatePage. rewrite Hg.
    cbn [set_isTranslating doc].
    destruct (collectTargetElements (doc s)) as [|t targets] eqn:Et.
    + cbn [set_isTranslating doc].
      destruct (decide (j ∈ [])) as [H|_]; [now apply elem_of_nil in H | reflexivity].
    + cbn [set_isTranslating set_isTranslated doc]. rewrite <- Et.
      apply (batch_loop_good (doc s)).
      * apply collect_from_NoDup.
      * intros el Hel. apply list_elem_of_In, collect_from_spec in Hel
          as (_ & f0 & Hf0 & _). rewrite Nat.sub_0_r in Hf0. now exists f0.
      * exact Hu.
      * unfold pageBatchSize. lia.
      * intros k. cbn [doc take].
        destruct (decide (k ∈ [])) as [H|_]; [now apply elem_of_nil in H | reflexivity].
  - intros f Hf He. destruct (html_total (f_node f)) as [html Hh].
    exists html. split; [exact Hh|]. unfold translated_by. rewrite Hh.
    rewrite forallb_forall in Hu. specialize (Hu f Hf).
    pose proof (untouched_after f Hu) as Ha.
    destruct f as [n e a]. cbn [f_after] in Ha. subst a.
    destruct n; reflexivity.
Qed.

End Good.

Lemma translatePage_translates_witness :
  let tr := fun t : jsstring => t ++ lit "!" in
  let s := mkSession mixed_page false false 0 [] in
  doc (translatePage (worker tr) s)
  = List.map (fun f => if eligible f then translated_by tr f else f) (doc s)
  /\ forall f, In f (doc s) -> eligible f = true ->
               exists html,
                 html_of tr (f_node f) = Some html
                 /\ translated_by tr f
                    = mkFragment (f_node (set_marker MARK_DONE f))
                        (f_inside_excluded f)
                        [Translation (tag_of (f_node f)) html].
Proof.
  intros tr s.
  apply (translatePage_translates tr); [|reflexivity|reflexivity|reflexivity].
  intros t. unfold tr. destruct t; discriminate.
Defined.

End GoodPass.

(* ===================================================================== *)
(** ** Elements without embedded nodes *)
(* ===================================================================== *)

Module PlainText.

Import Regex Dom Content PatternFacts ShieldProofs NormalizeFacts EscapeFacts.

Lemma with_children_self (n : node) : with_children n (children_of n) = n.
Proof. now destruct n. Qed.

Lemma escaped_no_markup (text : jsstring) :
  forallb (fun c => negb (markup_char c)) (escapeHtml text) = true.
Proof.
  rewrite escapeHtml_flat_map. induction text as [|x text IH]; [reflexivity|].
  cbn [flat_map]. now rewrite forallb_app, escape_unit_no_markup, IH.
Qed.

(** X26: an element that holds no math and no code node.  Its text is its
    flattened text content, normalized, and its map is empty; whatever the
    translator returns for it is inserted as text: the markup built by
    [restorePlaceholders] is the escaped translation, which holds no [<],
    [>] or quote. *)
Theorem plain_element_translation (element : node) (translatedText : jsstring) :
  forallb plain (children_of element) = true ->
  getTranslatableText element = (normalize_ws (textContent element), [])
  /\ restorePlaceholders translatedText (snd (getTranslatableText element))
     = Some (escapeHtml translatedText)
  /\ forallb (fun c => negb (markup_char c)) (escapeHtml translatedText) = true.
Proof.
  intros Hp.
  assert (H : getTranslatableText element
              = (normalize_ws (textContent element), [])).
  { rewrite getTranslatableText_passes. cbn zeta.
    destruct (plain_list_untouched MATH matches_math (children_of element)
                math_embedded Hp) as [Hm1 Hm2].
    destruct (plain_list_untouched CODE matches_code (children_of element)
                code_embedded Hp) as [Hc1 Hc2].
    rewrite Hm1, Hm2, Hc1, Hc2. cbn [length entries_of app].
    now rewrite with_children_self. }
  split; [exact H|]. split; [|apply escaped_no_markup].
  rewrite H. cbn [snd]. unfold restorePlaceholders.
  now destruct translatedText.
Qed.

Lemma plain_element_translation_witness :
  let element := Elem (lit "p") [] [Text (lit " Tom  &   Jerry ")] in
  getTranslatableText element = (lit "Tom & Jerry", [])
  /\ restorePlaceholders (lit "<b>x</b>") (snd (getTranslatableText element))
     = Some (lit "&lt;b&gt;x&lt;/b&gt;").
Proof.
  intros element.
  destruct (plain_element_translation element (lit "<b>x</b>") eq_refl)
    as (H1 & H2 & _).
  split; [exact H1 | exact H2].
Defined.

End PlainText.

(* ===================================================================== *)
(** ** The answer of the service worker and the cache namespaces *)
(* ===================================================================== *)

Module WorkerAnswer.

Import Js Dom Content Background ClientProofs ClientExtras ClientShape Session
  FailedPass.

(** X27: [handleTranslateRequest] never throws and its answer has one of
    two shapes.  Either it carries [translated], an array with exactly one
    item per text, and no [error]; the content script takes such an answer
    down the insertion path.  Or it carries the message of the error
    [translateTexts] raised and no [translated], the storage being as
    before; the content script takes it down a clean-up path, even when
    the message is empty. *)
Theorem handleTranslateRequest_answer (getHash : jsstring -> jsstring)
    (backend : nat -> request -> fetch_outcome) (texts : list jsstring)
    (sl tl : jsstring) (w : world) :
  let answer := handleTranslateRequest getHash backend texts sl tl w in
  (exists translated,
      fst answer = Response Undef (Arr translated)
      /\ length translated = length texts
      /\ failure (fst answer) = false)
  \/ (exists e,
         fst answer = Response (Str (message_of e)) Undef
         /\ failure (fst answer) = true
         /\ storage (snd answer) = storage w).
Proof.
  cbn zeta. unfold handleTranslateRequest.
  destruct (translateTexts getHash backend texts sl tl w) as [[r|e] w'] eqn:E.
  - left. exists r. split; [reflexivity|]. split; [|reflexivity].
    destruct (translateTexts_placed _ _ _ _ _ _ _ _ E) as [api ->].
    apply length_place.
  - right. exists e. split; [reflexivity|]. split; [apply orb_true_r|].
    cbn [snd]. revert E. unfold translateTexts.
    match goal with
    | |- context [uncachedTexts ?st] => destruct (uncachedTexts st) as [|u us] eqn:Eu
    end; [discriminate|].
    rewrite <- Eu. unfold bind at 1.
    match goal with
    | |- context [fetchTranslationsFromApi backend ?l sl tl w] =>
        pose proof (fetch_loop_storage backend (length l) l sl tl 0 [] w) as Hs;
        unfold fetchTranslationsFromApi;
        destruct (fetch_loop backend (length l) l sl tl 0 [] w) as [[api|e'] w1]
    end.
    + unfold bind, storage_set, ret. discriminate.
    + intros H. injection H as _ <-. exact Hs.
Qed.

(** *** One cache per language pair *)

Lemma split_at_underscore (a a' b b' : jsstring) :
  forallb (fun c => negb (c =? c_underscore)%N) a = true ->
  forallb (fun c => negb (c =? c_underscore)%N) a' = true ->
  a ++ c_underscore :: b = a' ++ c_underscore :: b' ->
  a = a' /\ b = b'.
Proof.
  revert a'. induction a as [|x a IH]; intros [|x' a'] Ha Ha' H; cbn in *.
  - injection H as ->. now split.
  - injection H as <- _. apply andb_true_iff in Ha' as [Hx _].
    now rewrite N.eqb_refl in Hx.
  - injection H as -> _. apply andb_true_iff in Ha as [Hx _].
    now rewrite N.eqb_refl in Hx.
  - injection H as -> H. apply andb_true_iff in Ha as [_ Ha].
    apply andb_true_iff in Ha' as [_ Ha'].
    destruct (IH a' Ha Ha' H) as [-> ->]. now split.
Qed.

(** X28: the caches of two language pairs are kept apart.  The storage
    key [tr_cache_<source>_<target>] determines the pair as long as the
    source language codes hold no underscore. *)
Theorem cacheKey_injective (sl tl sl' tl' : jsstring) :
  forallb (fun c => negb (c =? c_underscore)%N) sl = true ->
  forallb (fun c => negb (c =? c_underscore)%N) sl' = true ->
  cacheKey sl tl = cacheKey sl' tl' ->
  sl = sl' /\ tl = tl'.
Proof.
  intros Hs Hs' H. unfold cacheKey in H. apply app_inv_head in H.
  change (lit "_") with [c_underscore] in H. cbn [app] in H.
  now apply split_at_underscore.
Qed.

Lemma cacheKey_injective_witness :
  (cacheKey (lit "en") (lit "ja") = cacheKey (lit "en") (lit "ja")
   -> lit "en" = lit "en" /\ lit "ja" = lit "ja")
  /\ cacheKey (lit "zh_TW") (lit "ja") = cacheKey (lit "zh") (lit "TW_ja").
Proof.
  split; [|reflexivity].
  apply (cacheKey_injective (lit "en") (lit "ja") (lit "en") (lit "ja"));
    reflexivity.
Defined.

End WorkerAnswer.

(* ===================================================================== *)
(** ** The states of a pass that collects something *)
(* ===================================================================== *)

Module PassStates.

Import Dom Content Background Session SessionProofs.

Lemma batch_loop_history sendMessage targets fuel :
  forall i s,
    history (batch_loop sendMessage fuel targets i s) = history s
    /\ isTranslated (batch_loop sendMessage fuel targets i s) = isTranslated s
    /\ isTranslating (batch_loop sendMessage fuel targets i s) = isTranslating s.
Proof.
  induction fuel as [|fuel IH]; intros i s; [repeat split|].
  cbn [batch_loop]. destruct (i <? length targets); [|repeat split].
  destruct (IH (i + pageBatchSize)
              (translate_batch sendMessage (slice i (i + pageBatchSize) targets) s))
    as (H1 & H2 & H3).
  rewrite H1, H2, H3. repeat split.
Qed.

(** X29: a page pass that starts in [Idle] and collects an element goes
    [Idle], [Translating], [Translated]: [isTranslating] is set, the
    batches run without touching the flags, then [isTranslated] is set
    while [isTranslating] still holds, and the [finally] clause resets
    [isTranslating].  The pass ends in [Translated] whatever the answers
    to its batches were. *)
Theorem collecting_pass_ends_translated sendMessage (s : session) :
  state_of_session s = Idle ->
  collectTargetElements (doc s) <> [] ->
  let s' := translatePage sendMessage s in
  history s' = history s ++ [(false, true); (true, true); (true, false)]
  /\ List.map state_of [(false, true); (true, true); (true, false)]
     = [Translating; Translating; Translated]
  /\ state_of_session s' = Translated.
Proof.
  unfold state_of_session, state_of. intros Hidle Hsome.
  destruct (isTranslating s) eqn:Eg; [discriminate|].
  destruct (isTranslated s) eqn:Ed; [discriminate|].
  cbn zeta. unfold translatePage. rewrite Eg. cbn [set_isTranslating doc].
  destruct (collectTargetElements (doc s)) as [|t targets] eqn:Et; [congruence|].
  match goal with
  | |- context [batch_loop ?sm ?fuel ?ts ?i ?s0] =>
      destruct (batch_loop_history sm ts fuel i s0) as (H1 & H2 & H3);
      set (s2 := batch_loop sm fuel ts i s0) in *
  end.
  cbn [set_isTranslating set_isTranslated history isTranslated isTranslating] in *.
  rewrite H1, H3, Ed. rewrite <- !app_assoc. repeat split.
Qed.

Lemma collecting_pass_ends_translated_witness :
  let sendMessage := fun (_ : nat) (_ : list jsstring) => Rejected in
  let s := mkSession hello_page false false 0 [] in
  let s' := translatePage sendMessage s in
  history s' = history s ++ [(false, true); (true, true); (true, false)]
  /\ List.map state_of [(false, true); (true, true); (true, false)]
     = [Translating; Translating; Translated]
  /\ state_of_session s' = Translated.
Proof.
  intros sendMessage s.
  apply (collecting_pass_ends_translated sendMessage s); [reflexivity|].
  vm_compute. discriminate.
Defined.

End PassStates.
